(** * PyORM: a shallow embedding of [main.py] and the properties of its
      schema-to-storage mapping engine.

    The Python module is a small object-relational mapper over [sqlite3].
    Its classes are embedded as follows.

    - Python values are the inductive [PyVal]; objects live in a heap and
      are referred to by address, so aliasing between an instance and the
      instances that reference it is kept.
    - Exceptions are values of [Exn]; every operation is a computation in
      the state-and-exception monad [M] over [World].
    - The [sqlite3] engine is not part of the module: it is a parameter of
      the development (the class [External]).  The world
      records the statement texts handed to [cursor.execute], oldest first.
    - A model class is its name and its namespace [vars], in declaration
      order; a [ForeignKeyField] carries its target class. *)

From stdpp Require Import gmap strings list pretty.
From Stdlib Require Import Ascii ZArith Lia.

Open Scope Z_scope.

(** ** Values and exceptions *)

(** A float is carried by the text [str()] renders for it: the module never
    computes with floats, it only formats them into statements. *)
Inductive PyVal : Type :=
  | VNone
  | VBool (b : bool)
  | VInt (z : Z)
  | VFloat (repr : string)
  | VStr (s : string)
  | VObj (a : nat).

Inductive Exn : Type :=
  | AssertionError
  | AttributeError
  | KeyError
  | IndexError
  | TypeError
  | ValueError
  | NotImplementedError
  | Sqlite3Error (msg : string).

Inductive Outcome (A : Type) : Type :=
  | Return (a : A)
  | Raise (e : Exn).
Arguments Return {A} a.
Arguments Raise {A} e.

#[global] Instance PyVal_eq_dec : EqDecision PyVal.
Proof. solve_decision. Defined.

#[global] Instance Exn_eq_dec : EqDecision Exn.
Proof. solve_decision. Defined.

(** [bool(v)] *)
Definition truthy (v : PyVal) : bool :=
  match v with
  | VNone => false
  | VBool b => b
  | VInt z => negb (z =? 0)
  | VFloat r => negb (String.eqb r "0.0" || String.eqb r "-0.0")
  | VStr s => negb (String.eqb s "")
  | VObj _ => true
  end.

(** [v == 1], the comparison made by [_table_exists]. *)
Definition eq_one (v : PyVal) : bool :=
  match v with
  | VInt z => z =? 1
  | VBool b => b
  | VFloat r => String.eqb r "1.0"
  | _ => false
  end.

(** [s.startswith("_")] *)
Definition startswith_underscore (s : string) : bool :=
  match s with
  | String "_"%char _ => true
  | _ => false
  end.

(** ** Model classes *)

(** What a class namespace binds a name to: an instance of one of the
    field classes, or any other object ([NonField]: a method, a docstring,
    a module name). *)
Inductive ClassAttr : Type :=
  | Field
  | BooleanField
  | IntField
  | FloatField
  | StringField
  | ForeignKeyField (other_cls : ModelCls)
  | NonField
with ModelCls : Type :=
  | Class (__name__ : string) (namespace : list (string * ClassAttr)).

(** [cls._table_name()] *)
Definition _table_name (cls : ModelCls) : string :=
  match cls with Class n _ => n end.

(** [vars(cls).items()] *)
Definition vars (cls : ModelCls) : list (string * ClassAttr) :=
  match cls with Class _ ns => ns end.

(** [vars(cls)[k]] *)
Fixpoint dict_get {A} (d : list (string * A)) (k : string) : option A :=
  match d with
  | [] => None
  | (k', v) :: d' => if String.eqb k' k then Some v else dict_get d' k
  end.

(** The schema of a class as the specification words it: the names bound
    in the class, in declaration order, without those that begin with an
    underscore. *)
Definition public (p : string * ClassAttr) : bool :=
  negb (startswith_underscore (fst p)).

Definition fieldsOf (cls : ModelCls) : list (string * ClassAttr) :=
  List.filter public (vars cls).

(** An instance: its class and its [__dict__]. *)
Record Instance : Type := {
  inst_cls : ModelCls;
  inst_dict : gmap string PyVal
}.

(** What [cursor.execute] leaves in the cursor. *)
Record Cursor : Type := {
  cur_rows : list (list PyVal);
  lastrowid : PyVal
}.

Definition fetchone (c : Cursor) : option (list PyVal) := head (cur_rows c).
Definition fetchall (c : Cursor) : list (list PyVal) := cur_rows c.

(** ** Field methods that need no state *)

Definition sqlite_type_name (f : ClassAttr) : Outcome string :=
  match f with
  | Field => Raise NotImplementedError
  | BooleanField => Return "INTEGER"
  | IntField => Return "INTEGER"
  | FloatField => Return "REAL"
  | StringField => Return "TEXT"
  | ForeignKeyField _ => Return "INTEGER"
  | NonField => Raise AttributeError
  end.

Definition column_declaration (f : ClassAttr) (field_name : string) : Outcome string :=
  match sqlite_type_name f with
  | Return t => Return (field_name +:+ " " +:+ t)
  | Raise e => Raise e
  end.

Definition get_post_declaration_constraint (f : ClassAttr) (field_name : string)
  : Outcome (option string) :=
  match f with
  | ForeignKeyField other_cls =>
      Return (Some ("FOREIGN KEY(" +:+ field_name +:+ ") REFERENCES "
                    +:+ _table_name other_cls +:+ "(rowid)"))
  | NonField => Raise AttributeError
  | _ => Return None
  end.

(** [field.unconvert(sqlite_val)] for a field object. *)
Definition unconvert (f : ClassAttr) (sqlite_val : PyVal) : PyVal :=
  match f with
  | BooleanField => VBool (truthy sqlite_val)
  | _ => sqlite_val
  end.

(** The loop
    [for i, c in enumerate(columns): sql.append(c);
       if i != len(columns) - 1: sql.append(", ")]
    with [n = len(columns)]. *)
Fixpoint append_columns (columns : list string) (i n : nat) (sql : string) : string :=
  match columns with
  | [] => sql
  | c :: rest =>
      let sql := sql +:+ c in
      let sql := if negb (Nat.eqb i (n - 1)) then sql +:+ ", " else sql in
      append_columns rest (S i) n sql
  end.

(** [tup[key]] on a Python sequence: negative keys count from the end. *)
Definition py_index {A} (l : list A) (key : Z) : option A :=
  let n := Z.of_nat (length l) in
  if (0 <=? key) && (key <? n) then l !! Z.to_nat key
  else if (- n <=? key) && (key <? 0) then l !! Z.to_nat (n + key)
  else None.

(** ** The world

    The class attributes of [Connector], the statements executed so far
    and the heap. *)
Record WorldOf (Database : Type) : Type := {
  DB_NAME : option string;
  DB_CONNECTION : option Database;
  executed : list string;
  heap : list Instance
}.
Arguments Build_WorldOf {Database} _ _ _ _.
Arguments DB_NAME {Database} _.
Arguments DB_CONNECTION {Database} _.
Arguments executed {Database} _.
Arguments heap {Database} _.

(** ** The outside of the module, a parameter

    [sqlite3] is not part of the module, and neither is the text Python
    gives for an object without [__str__].  What [sqlite3.connect] gives
    depends on the files outside the program: it is an argument of
    [connect] below, not a function of the name. *)
Class External : Type := {
  Database : Type;
  (** [cursor.execute(sql)] followed by [commit()]: an [sqlite3.Error]
      with its message, or the cursor and the new database. *)
  sqlite3_execute : string -> Database -> string + Cursor * Database;
  (** [str(obj)] for the instance at an address. *)
  object_repr : nat -> string
}.

Abbreviation World := (WorldOf Database).

Section ORM.

Context `{External}.

(** [str(v)], which is also what an f-string field [{v}] inserts. *)
Definition py_str (v : PyVal) : string :=
  match v with
  | VNone => "None"
  | VBool true => "True"
  | VBool false => "False"
  | VInt z => pretty z
  | VFloat r => r
  | VStr s => s
  | VObj a => object_repr a
  end.

Definition M (A : Type) : Type := World -> Outcome A * World.

Definition ret {A} (a : A) : M A := fun w => (Return a, w).
Definition raise {A} (e : Exn) : M A := fun w => (Raise e, w).
Definition bind {A B} (m : M A) (k : A -> M B) : M B :=
  fun w => match m w with
           | (Return a, w') => k a w'
           | (Raise e, w') => (Raise e, w')
           end.
Definition lift {A} (o : Outcome A) : M A := fun w => (o, w).

Notation "x <- m ;; k" := (bind m (fun x => k))
  (at level 100, m at next level, right associativity).
Notation "m ;;; k" := (bind m (fun _ => k))
  (at level 100, right associativity).

(** [for x in items: s = body(x, s)] *)
Definition for_each {A S} (items : list A) (body : A -> S -> M S) : S -> M S :=
  (fix loop (items : list A) (s : S) : M S :=
     match items with
     | [] => ret s
     | x :: rest => s' <- body x s ;; loop rest s'
     end) items.

(** ** Connector *)

Definition is_connected (w : World) : bool :=
  match DB_CONNECTION w with Some _ => true | None => false end.

(** [Connector.connect(db_name)].  [opened] is what the call
    [sqlite3.connect(db_name)] gives: an [sqlite3.Error] with its message,
    or the connection, whose contents are those of the file of that name
    at that moment.  [DB_NAME] is assigned before the call, so it is
    overwritten also when the call fails, and [DB_CONNECTION] then keeps
    the value it had. *)
Definition connect (db_name : string) (opened : string + Database) : M unit := fun w =>
  let w1 := {| DB_NAME := Some db_name; DB_CONNECTION := DB_CONNECTION w;
               executed := executed w; heap := heap w |} in
  match opened with
  | inl msg => (Raise (Sqlite3Error msg), w1)
  | inr db =>
      (Return tt, {| DB_NAME := DB_NAME w1; DB_CONNECTION := Some db;
                     executed := executed w1; heap := heap w1 |})
  end.

(** [assert cls.is_connected()] *)
Definition disconnnect : M unit := fun w =>
  if is_connected w then
    (Return tt, {| DB_NAME := None; DB_CONNECTION := None;
                   executed := executed w; heap := heap w |})
  else (Raise AssertionError, w).

(** The truth value of the bound method object [cls.is_connected]: a
    method object is always true. *)
Definition bound_method_truth (f : World -> bool) : bool := true.

(** [Connector.execute(sql)].  The assertion tests the method object, not
    the result of calling it; [cls.DB_CONNECTION.cursor()] then fails on
    [None] with an [AttributeError]. *)
Definition execute (sql : string) : M Cursor := fun w =>
  if negb (bound_method_truth is_connected) then (Raise AssertionError, w)
  else match DB_CONNECTION w with
       | None => (Raise AttributeError, w)
       | Some db =>
           let w1 := {| DB_NAME := DB_NAME w; DB_CONNECTION := Some db;
                        executed := executed w ++ [sql]; heap := heap w |} in
           match sqlite3_execute sql db with
           | inl msg => (Raise (Sqlite3Error msg), w1)
           | inr (cursor, db') =>
               (Return cursor,
                {| DB_NAME := DB_NAME w; DB_CONNECTION := Some db';
                   executed := executed w ++ [sql]; heap := heap w |})
           end
       end.

(** ** Instances in the heap *)

Definition with_heap (w : World) (h : list Instance) : World :=
  {| DB_NAME := DB_NAME w; DB_CONNECTION := DB_CONNECTION w;
     executed := executed w; heap := h |}.

(** [cls()]: [Model.__init__] binds [_id] to [None]. *)
Definition new_instance (cls : ModelCls) : M nat := fun w =>
  (Return (length (heap w)),
   with_heap w (heap w ++ [ {| inst_cls := cls; inst_dict := {[ "_id" := VNone ]} |} ])).

(** A computation that only reads the heap. *)
Definition reading {A} (f : list Instance -> Outcome A) : M A :=
  fun w => (f (heap w), w).

(** [type(self)] *)
Definition type_in (h : list Instance) (self : nat) : Outcome ModelCls :=
  match h !! self with
  | Some o => Return (inst_cls o)
  | None => Raise AttributeError
  end.

Definition type_of (self : nat) : M ModelCls := reading (fun h => type_in h self).

(** [obj.name], read from the instance's [__dict__]. *)
Definition getattr_in (h : list Instance) (obj : nat) (name : string) : Outcome PyVal :=
  match h !! obj with
  | Some o => match inst_dict o !! name with
              | Some v => Return v
              | None => Raise AttributeError
              end
  | None => Raise AttributeError
  end.

Definition getattr (obj : nat) (name : string) : M PyVal :=
  reading (fun h => getattr_in h obj name).

(** [vars(self)[field_name]] *)
Definition vars_self_in (h : list Instance) (self : nat) (field_name : string)
  : Outcome PyVal :=
  match h !! self with
  | Some o => match inst_dict o !! field_name with
              | Some v => Return v
              | None => Raise KeyError
              end
  | None => Raise AttributeError
  end.

Definition vars_self_get (self : nat) (field_name : string) : M PyVal :=
  reading (fun h => vars_self_in h self field_name).

Definition set_dict (name : string) (v : PyVal) (o : Instance) : Instance :=
  {| inst_cls := inst_cls o; inst_dict := <[ name := v ]> (inst_dict o) |}.

(** [setattr(obj, name, v)] *)
Definition setattr (obj : nat) (name : string) (v : PyVal) : M unit := fun w =>
  (Return tt, with_heap w (alter (set_dict name v) obj (heap w))).

(** The attribute lookup [field.convert] (or [field.unconvert]), which is
    evaluated before the arguments of the call. *)
Definition lookup_method (field : ClassAttr) : M unit :=
  match field with
  | NonField => raise AttributeError
  | _ => ret tt
  end.

(** [field.convert(py_val)] *)
Definition convert_in (h : list Instance) (field : ClassAttr) (py_val : PyVal)
  : Outcome PyVal :=
  match field with
  | BooleanField => Return (VInt (if truthy py_val then 1 else 0))
  | StringField => Return (VStr ("'" +:+ py_str py_val +:+ "'"))
  | ForeignKeyField _ =>
      match py_val with
      | VObj a => getattr_in h a "_id"
      | _ => Raise AttributeError
      end
  | NonField => Raise AttributeError
  | _ => Return py_val
  end.

Definition convert (field : ClassAttr) (py_val : PyVal) : M PyVal :=
  reading (fun h => convert_in h field py_val).

(** ** Model: table lifecycle *)

Definition _table_exists (cls : ModelCls) : M bool :=
  c <- execute ("SELECT count(name) FROM sqlite_master WHERE type='table' AND name='"
                +:+ _table_name cls +:+ "'") ;;
  match fetchone c with
  | None => raise TypeError
  | Some row =>
      match row !! 0%nat with
      | None => raise IndexError
      | Some v => ret (eq_one v)
      end
  end.

(** The second loop of [_create_table]: the constraints, after all the
    column declarations. *)
Definition constraints_loop (cls : ModelCls) (columns : list string) : M (list string) :=
  for_each (vars cls) (fun '(field_name, field) columns =>
    if startswith_underscore field_name then ret columns
    else
      constr <- lift (get_post_declaration_constraint field field_name) ;;
      match constr with
      | Some c => ret (columns ++ [c])
      | None => ret columns
      end) columns.

(** [_ensure_table_exists], given [_create_table]. *)
Definition ensure_with (create : ModelCls -> M unit) (cls : ModelCls) : M unit :=
  exists_ <- _table_exists cls ;;
  if negb exists_ then create cls else ret tt.

(** The body of the first loop of [_create_table]: the table of a
    referenced class first, then the declaration of the column. *)
Definition declare_step (create : ModelCls -> M unit)
    (item : string * ClassAttr) (columns : list string) : M (list string) :=
  let '(field_name, field) := item in
  match field with
  | ForeignKeyField other_cls => ensure_with create other_cls
  | _ => ret tt
  end ;;;
  if startswith_underscore field_name then ret columns
  else
    c <- lift (column_declaration field field_name) ;;
    ret (columns ++ [c]).

Fixpoint _create_table (cls : ModelCls) {struct cls} : M unit :=
  let sql := "CREATE TABLE " +:+ _table_name cls +:+ " (" in
  columns <- for_each (vars cls) (declare_step _create_table) [] ;;
  columns <- constraints_loop cls columns ;;
  let sql := append_columns columns 0 (length columns) sql in
  let sql := sql +:+ ")" in
  execute sql ;;; ret tt.

Definition _ensure_table_exists (cls : ModelCls) : M unit :=
  ensure_with _create_table cls.

(** ** Model: persistence *)

(** The body of the first loop of the insert branch of [save]. *)
Definition insert_step (self : nat) (item : string * ClassAttr)
    (columns : list PyVal) : M (list PyVal) :=
  let '(field_name, field) := item in
  if startswith_underscore field_name then ret columns
  else
    lookup_method field ;;;
    v <- vars_self_get self field_name ;;
    c <- convert field v ;;
    ret (columns ++ [c]).

Definition insert_columns (self : nat) (cls : ModelCls) : M (list PyVal) :=
  for_each (vars cls) (insert_step self) [].

(** The body of the first loop of the update branch of [save]. *)
Definition update_step (self : nat) (item : string * ClassAttr)
    (columns : list string) : M (list string) :=
  let '(field_name, field) := item in
  if startswith_underscore field_name then ret columns
  else
    lookup_method field ;;;
    v <- vars_self_get self field_name ;;
    c <- convert field v ;;
    ret (columns ++ [field_name +:+ "=" +:+ py_str c]).

Definition update_columns (self : nat) (cls : ModelCls) : M (list string) :=
  for_each (vars cls) (update_step self) [].

Definition save (self : nat) : M unit :=
  cls <- type_of self ;;
  _ensure_table_exists cls ;;;
  _id <- getattr self "_id" ;;
  match _id with
  | VNone =>
      let sql := "INSERT INTO " +:+ _table_name cls +:+ " VALUES (" in
      columns <- insert_columns self cls ;;
      let sql := append_columns (map py_str columns) 0 (length columns) sql in
      let sql := sql +:+ ")" in
      cursor <- execute sql ;;
      setattr self "_id" (lastrowid cursor)
  | _ =>
      let sql := "UPDATE " +:+ _table_name cls +:+ " SET " in
      columns <- update_columns self cls ;;
      let sql := append_columns columns 0 (length columns) sql in
      let sql := sql +:+ " WHERE rowid=" +:+ py_str _id in
      execute sql ;;; ret tt
  end.

Definition delete (self : nat) : M unit :=
  cls <- type_of self ;;
  _ensure_table_exists cls ;;;
  _id <- getattr self "_id" ;;
  let sql := "DELETE FROM " +:+ _table_name cls +:+ " WHERE rowid=" +:+ py_str _id in
  execute sql ;;; ret tt.

(** ** Model: decoding a row *)

(** [vals[idx]] for an index that is never negative. *)
Definition vals_get (vals : list PyVal) (idx : nat) : M PyVal :=
  match vals !! idx with
  | Some v => ret v
  | None => raise IndexError
  end.

(** [load_fk_field], given [field.other_cls.init_from_db_tuple].  When
    [fetchone()] is [None] the unpacking [rowid, *vals = tup] of the call
    fails with a [TypeError], after the instance was made. *)
Definition load_fk_field_with (init_other : list PyVal -> M nat)
    (other_cls : ModelCls) (other_id : PyVal) : M nat :=
  cursor <- execute ("SELECT rowid, * FROM " +:+ _table_name other_cls
                     +:+ " WHERE rowid=" +:+ py_str other_id +:+ " LIMIT 1") ;;
  match fetchone cursor with
  | Some tup => init_other tup
  | None => new_instance other_cls ;;; raise TypeError
  end.

(** The body of the loop of [init_from_db_tuple], given
    [init_from_db_tuple] itself for the referenced classes. *)
Definition decode_step (init : ModelCls -> list PyVal -> M nat)
    (obj : nat) (vals : list PyVal)
    (item : string * ClassAttr) (idx : nat) : M nat :=
  let '(field_name, field) := item in
  if startswith_underscore field_name then ret idx
  else
    match field with
    | ForeignKeyField other_cls =>
        other_id <- vals_get vals idx ;;
        loaded <- load_fk_field_with (init other_cls) other_cls other_id ;;
        setattr obj field_name (VObj loaded)
    | _ =>
        lookup_method field ;;;
        v <- vals_get vals idx ;;
        setattr obj field_name (unconvert field v)
    end ;;;
    ret (S idx).

Fixpoint init_from_db_tuple (cls : ModelCls) (tup : list PyVal) {struct cls} : M nat :=
  obj <- new_instance cls ;;
  match tup with
  | [] => raise ValueError
  | rowid :: vals =>
      for_each (vars cls) (decode_step init_from_db_tuple obj vals) 0%nat ;;;
      setattr obj "_id" rowid ;;;
      ret obj
  end.

Definition load_fk_field (other_cls : ModelCls) (other_id : PyVal) : M nat :=
  load_fk_field_with (init_from_db_tuple other_cls) other_cls other_id.

(** ** QuerySet *)

Record QuerySet : Type := {
  filter_kwargs : list (string * PyVal);
  model_cls : ModelCls;
  query_result : Cursor;
  items : list (list PyVal)
}.

(** The body of the loop of [get_query_string], on the text so far and
    the counter [i]; [n] is [len(self.filter_kwargs.items())]. *)
Definition condition_step (model_cls : ModelCls) (n : nat)
    (kv : string * PyVal) (st : string * nat) : M (string * nat) :=
  let '(k, v) := kv in
  let '(sql, i) := st in
  field <- match dict_get (vars model_cls) k with
           | Some field => ret field
           | None => raise KeyError
           end ;;
  converted_val <- convert field v ;;
  let sql := sql +:+ (k +:+ "=" +:+ py_str converted_val +:+ " ") in
  let sql := if negb (Nat.eqb i (n - 1)) then sql +:+ "AND " else sql in
  ret (sql, S i).

Definition conditions_loop (model_cls : ModelCls) (filter_kwargs : list (string * PyVal))
    (sql : string) : M (string * nat) :=
  for_each filter_kwargs (condition_step model_cls (length filter_kwargs)) (sql, 0%nat).

Definition get_query_string (model_cls : ModelCls) (filter_kwargs : list (string * PyVal))
  : M string :=
  let sql := "SELECT rowid, * FROM " +:+ _table_name model_cls in
  let sql := match filter_kwargs with [] => sql | _ => sql +:+ " WHERE " end in
  r <- conditions_loop model_cls filter_kwargs sql ;;
  ret (fst r).

(** [QuerySet.__init__]; [kwargs] keeps the order of the call *)
Definition QuerySet_init (model_cls : ModelCls) (kwargs : list (string * PyVal))
  : M QuerySet :=
  sql <- get_query_string model_cls kwargs ;;
  query_result <- execute sql ;;
  ret {| filter_kwargs := kwargs; model_cls := model_cls;
         query_result := query_result; items := fetchall query_result |}.

(** [cls.objects], with the keyword arguments as a list in call order *)
Definition objects (cls : ModelCls) (kwargs : list (string * PyVal)) : M QuerySet :=
  QuerySet_init cls kwargs.

(** [qs[key]] for an integer key. *)
Definition QuerySet_getitem (qs : QuerySet) (key : Z) : M nat :=
  match py_index (items qs) key with
  | Some tup => init_from_db_tuple (model_cls qs) tup
  | None => raise IndexError
  end.

Definition count (qs : QuerySet) : nat := length (items qs).

End ORM.

Notation "x <- m ;; k" := (bind m (fun x => k))
  (at level 100, m at next level, right associativity).
Notation "m ;;; k" := (bind m (fun _ => k))
  (at level 100, right associativity).

(** * The statements, in closed form

    The texts the specification gives for the generated statements, to be
    compared with what the loops of the module build. *)

(** [f] over a list, stopping at the first exception. *)
Fixpoint outcome_map {A B} (f : A -> Outcome B) (l : list A) : Outcome (list B) :=
  match l with
  | [] => Return []
  | x :: l' =>
      match f x with
      | Return y =>
          match outcome_map f l' with
          | Return ys => Return (y :: ys)
          | Raise e => Raise e
          end
      | Raise e => Raise e
      end
  end.

Section Shapes.

Context `{External}.

(** The stored value of one schema field of the instance [self]. *)
Definition field_value (h : list Instance) (self : nat) (p : string * ClassAttr)
  : Outcome PyVal :=
  match snd p with
  | NonField => Raise AttributeError
  | _ =>
      match vars_self_in h self (fst p) with
      | Return v => convert_in h (snd p) v
      | Raise e => Raise e
      end
  end.

Definition insert_statement (name : string) (values : list PyVal) : string :=
  "INSERT INTO " +:+ name +:+ " VALUES ("
  +:+ String.concat ", " (map py_str values) +:+ ")".

Definition assignment (p : string * ClassAttr) (c : PyVal) : string :=
  fst p +:+ "=" +:+ py_str c.

Definition update_statement (name : string) (fields : list (string * ClassAttr))
    (values : list PyVal) (_id : PyVal) : string :=
  "UPDATE " +:+ name +:+ " SET "
  +:+ String.concat ", " (zip_with assignment fields values)
  +:+ " WHERE rowid=" +:+ py_str _id.

Definition delete_statement (name : string) (_id : PyVal) : string :=
  "DELETE FROM " +:+ name +:+ " WHERE rowid=" +:+ py_str _id.

Definition create_statement (name : string) (items : list string) : string :=
  "CREATE TABLE " +:+ name +:+ " (" +:+ String.concat ", " items +:+ ")".

Definition load_statement (other_cls : ModelCls) (other_id : PyVal) : string :=
  "SELECT rowid, * FROM " +:+ _table_name other_cls
  +:+ " WHERE rowid=" +:+ py_str other_id +:+ " LIMIT 1".

(** A field object that refers to no other class. *)
Definition plain_field (field : ClassAttr) : bool :=
  match field with
  | ForeignKeyField _ | NonField => false
  | _ => true
  end.

(** One filter [k=v] of a query: the field is looked up in the class
    namespace and converts the value. *)
Definition condition (h : list Instance) (cls : ModelCls) (kv : string * PyVal)
  : Outcome string :=
  match dict_get (vars cls) (fst kv) with
  | None => Raise KeyError
  | Some field =>
      match convert_in h field (snd kv) with
      | Return c => Return (fst kv +:+ "=" +:+ py_str c)
      | Raise e => Raise e
      end
  end.

(** The selection as the specification gives it: the conditions joined by
    [" AND "] and nothing after the last one. *)
Definition select_statement_spec (name : string) (conds : list string) : string :=
  "SELECT rowid, * FROM " +:+ name
  +:+ match conds with
      | [] => ""
      | _ => " WHERE " +:+ String.concat " AND " conds
      end.

(** The selection as the module builds it: every condition is followed by
    a space. *)
Definition select_statement (name : string) (conds : list string) : string :=
  "SELECT rowid, * FROM " +:+ name
  +:+ match conds with
      | [] => ""
      | _ => " WHERE " +:+ String.concat " AND " conds +:+ " "
      end.

End Shapes.

(** * Relations between worlds, for the proofs *)

(** What the induction on a class needs of the classes it refers to. *)
Definition refers_ok (P : ModelCls -> Prop) (p : string * ClassAttr) : Prop :=
  match snd p with
  | ForeignKeyField other_cls => P other_cls
  | _ => True
  end.

Section Relations.

Context `{External}.

(** A relation that a computation keeps from every world. *)
Definition always {A} (R : World -> World -> Prop) (m : M A) : Prop :=
  forall w, R w (snd (m w)).

Definition same_heap (w w' : World) : Prop := heap w' = heap w.

(** The instance [cls()] makes. *)
Definition fresh (cls : ModelCls) : Instance :=
  {| inst_cls := cls; inst_dict := {[ "_id" := VNone ]} |}.

(** An instance decoded from a row is new, and the instances that were
    there stay as they were. *)
Definition decode_frame (cls : ModelCls) : Prop :=
  forall tup w obj w',
    init_from_db_tuple cls tup w = (Return obj, w') ->
    obj = length (heap w)
    /\ (length (heap w) < length (heap w'))%nat
    /\ forall a, (a < length (heap w))%nat -> heap w' !! a = heap w !! a.

(** The selection of one row of a table by its identity. *)
Definition selection (sql : string) : Prop :=
  exists other_cls other_id, sql = load_statement other_cls other_id.

(** A decoding that returns has added to the log, and only selections. *)
Definition decode_log (cls : ModelCls) : Prop :=
  forall tup w obj w',
    init_from_db_tuple cls tup w = (Return obj, w') ->
    exists l, executed w' = executed w ++ l /\ Forall selection l.

(** ** Decoding, as the specification words it

    A row is decoded field by field in schema order, each field from the
    value at its position, in the world the decoding has reached. *)

(** One schema field of the instance at [obj]: from the raw value [v] of
    the row, in the world [wa], the field is bound to [x], which leaves
    the world [wm].  A plain field is bound to the unconverted value.
    For a reference, the selection on the target table with [v] as the
    identity is executed in [wa]; the row it yields is decoded in the
    world after the selection, and the field is bound to the instance
    that gives. *)
Definition field_step (obj : nat) (item : string * ClassAttr) (v : PyVal)
    (wa : World) (x : PyVal) (wm : World) : Prop :=
  match snd item with
  | ForeignKeyField other_cls =>
      exists cursor wb tup loaded wc,
        execute (load_statement other_cls v) wa = (Return cursor, wb)
        /\ fetchone cursor = Some tup
        /\ init_from_db_tuple other_cls tup wb = (Return loaded, wc)
        /\ x = VObj loaded
        /\ wm = with_heap wc (alter (set_dict (fst item) x) obj (heap wc))
  | NonField => False
  | field =>
      x = unconvert field v
      /\ wm = with_heap wa (alter (set_dict (fst item) x) obj (heap wa))
  end.

(** The fields in order, each step starting in the world the one before
    it left; [trace] holds, for every field, the value it was bound to
    and the world after its step. *)
Fixpoint field_steps (obj : nat) (fields : list (string * ClassAttr))
    (vals : list PyVal) (wa : World) (trace : list (PyVal * World)) : Prop :=
  match fields with
  | [] => trace = []
  | item :: fields =>
      match vals, trace with
      | v :: vals, (x, wm) :: trace =>
          field_step obj item v wa x wm /\ field_steps obj fields vals wm trace
      | _, _ => False
      end
  end.

(** The world after all the steps of a trace that began in [wa]. *)
Fixpoint after_steps (wa : World) (trace : list (PyVal * World)) : World :=
  match trace with
  | [] => wa
  | (_, wm) :: trace => after_steps wm trace
  end.

(** The world in which step [i] of a trace that began in [wa] starts. *)
Definition before_step (wa : World) (trace : list (PyVal * World)) (i : nat)
  : option World :=
  match i with
  | O => Some wa
  | S j => snd <$> trace !! j
  end.

(** Decoding the row [(rowid, *vals)] for the class [cls] in [w]: the
    instance is made at the next address, the schema fields are bound in
    order, and [_id] is bound to the leading element. *)
Definition decodes_by (trace : list (PyVal * World)) (cls : ModelCls)
    (rowid : PyVal) (vals : list PyVal) (w : World) (obj : nat) (w' : World) : Prop :=
  let w0 := with_heap w (heap w ++ [fresh cls]) in
  obj = length (heap w)
  /\ field_steps obj (fieldsOf cls) vals w0 trace
  /\ w' = with_heap (after_steps w0 trace)
            (alter (set_dict "_id" rowid) obj (heap (after_steps w0 trace))).

Definition decodes (cls : ModelCls) (rowid : PyVal) (vals : list PyVal)
    (w : World) (obj : nat) (w' : World) : Prop :=
  exists trace, decodes_by trace cls rowid vals w obj w'.

(** What is left of a step in the heap [h] at the end: the instance [o]
    at [obj] has the field bound to [x], and for a reference the instance
    that was loaded is another one and is as its decoding left it. *)
Definition bound_field (h : list Instance) (obj : nat) (o : Instance)
    (item : string * ClassAttr) (x : PyVal) (wm : World) : Prop :=
  inst_dict o !! fst item = Some x
  /\ match snd item with
     | ForeignKeyField _ =>
         exists loaded, x = VObj loaded /\ loaded <> obj
           /\ is_Some (heap wm !! loaded)
           /\ h !! loaded = heap wm !! loaded
     | _ => True
     end.

End Relations.

(** * A small model of the storage engine

    Enough of SQLite to run the statements the module generates: a lexer
    (quoted literals with doubled quotes, [--] comments), a parser for the
    six statement shapes, and tables of rows keyed by [rowid]. *)
Module MiniSqlite.

Inductive Token : Type :=
  | TWord (s : string)
  | TNum (s : string)
  | TStr (s : string)
  | TSym (c : ascii).

Inductive Mode : Type :=
  | Start
  | InWord (acc : string)
  | InNum (acc : string)
  | InStr (acc : string)
  | Quote (acc : string)
  | Dash
  | Comment.

#[global] Instance Token_eq_dec : EqDecision Token.
Proof. solve_decision. Defined.

Definition between (lo hi : nat) (c : ascii) : bool :=
  let n := nat_of_ascii c in (lo <=? n)%nat && (n <=? hi)%nat.

Definition is_digit (c : ascii) : bool := between 48 57 c.
Definition is_letter (c : ascii) : bool :=
  between 65 90 c || between 97 122 c || Ascii.eqb c "_".
Definition is_blank (c : ascii) : bool :=
  Ascii.eqb c " " || between 9 13 c.
Definition is_punct (c : ascii) : bool :=
  Ascii.eqb c "(" || Ascii.eqb c ")" || Ascii.eqb c "," || Ascii.eqb c "="
  || Ascii.eqb c "*".

Definition snoc (s : string) (c : ascii) : string := s +:+ String c "".

Definition start (c : ascii) : option (list Token * Mode) :=
  if is_blank c then Some ([], Start)
  else if is_letter c then Some ([], InWord (String c ""))
  else if is_digit c then Some ([], InNum (String c ""))
  else if Ascii.eqb c "'" then Some ([], InStr "")
  else if Ascii.eqb c "-" then Some ([], Dash)
  else if is_punct c then Some ([TSym c], Start)
  else None.

Definition after (t : Token) (c : ascii) : option (list Token * Mode) :=
  match start c with
  | Some (ts, m) => Some (t :: ts, m)
  | None => None
  end.

Definition step (m : Mode) (c : ascii) : option (list Token * Mode) :=
  match m with
  | Start => start c
  | InWord a =>
      if is_letter c || is_digit c then Some ([], InWord (snoc a c))
      else after (TWord a) c
  | InNum a =>
      if is_digit c || Ascii.eqb c "." then Some ([], InNum (snoc a c))
      else after (TNum a) c
  | InStr a =>
      if Ascii.eqb c "'" then Some ([], Quote a) else Some ([], InStr (snoc a c))
  | Quote a =>
      if Ascii.eqb c "'" then Some ([], InStr (snoc a "'")) else after (TStr a) c
  | Dash =>
      if Ascii.eqb c "-" then Some ([], Comment) else after (TSym "-") c
  | Comment =>
      if between 10 10 c then Some ([], Start) else Some ([], Comment)
  end.

Definition finish (m : Mode) : option (list Token) :=
  match m with
  | Start | Comment => Some []
  | InWord a => Some [TWord a]
  | InNum a => Some [TNum a]
  | InStr _ => None
  | Quote a => Some [TStr a]
  | Dash => Some [TSym "-"]
  end.

Fixpoint lex_from (m : Mode) (s : string) : option (list Token) :=
  match s with
  | EmptyString => finish m
  | String c s' =>
      match step m c with
      | Some (ts, m') =>
          match lex_from m' s' with
          | Some r => Some (ts ++ r)
          | None => None
          end
      | None => None
      end
  end.

Definition lex (s : string) : option (list Token) := lex_from Start s.

Fixpoint has_quote (s : string) : bool :=
  match s with
  | EmptyString => false
  | String c s' => Ascii.eqb c "'" || has_quote s'
  end.

(** The number of quotes of a text. *)
Fixpoint quotes (s : string) : nat :=
  match s with
  | EmptyString => O
  | String c s' => ((if Ascii.eqb c "'" then 1 else 0) + quotes s')%nat
  end.

(** The value of a text that is one quoted literal and nothing else. *)
Definition sql_literal_value (text : string) : option string :=
  match lex text with
  | Some [TStr v] => Some v
  | _ => None
  end.

(** ** Statements *)

Inductive Expr : Type :=
  | ELit (v : PyVal)
  | ECol (c : string).

Inductive Stmt : Type :=
  | SProbe (name : string)
  | SCreate (table : string) (columns : list string)
  | SInsert (table : string) (values : list Expr)
  | SUpdate (table : string) (assigns : list (string * Expr)) (conds : list (string * Expr))
  | SDelete (table : string) (conds : list (string * Expr))
  | SSelect (table : string) (conds : list (string * Expr)) (limit : option nat).

Fixpoint digits_value (s : string) (acc : Z) : option Z :=
  match s with
  | EmptyString => Some acc
  | String c s' =>
      if is_digit c
      then digits_value s' (10 * acc + Z.of_nat (nat_of_ascii c - 48))
      else None
  end.

Definition num_value (negative : bool) (s : string) : PyVal :=
  match digits_value s 0 with
  | Some z => VInt (if negative then - z else z)
  | None => VFloat (if negative then "-" +:+ s else s)
  end.

Definition is_word (w : string) (t : Token) : bool := bool_decide (t = TWord w).
Definition is_sym (c : ascii) (t : Token) : bool := bool_decide (t = TSym c).

Definition parse_expr (ts : list Token) : option (Expr * list Token) :=
  match ts with
  | TNum n :: r => Some (ELit (num_value false n), r)
  | TSym c :: TNum n :: r =>
      if Ascii.eqb c "-" then Some (ELit (num_value true n), r) else None
  | TStr s :: r => Some (ELit (VStr s), r)
  | TWord w :: r => Some (if String.eqb w "NULL" then ELit VNone else ECol w, r)
  | _ => None
  end.

(** [e sep e sep ...], at least one. *)
Fixpoint parse_exprs (fuel : nat) (ts : list Token) : option (list Expr * list Token) :=
  match fuel with
  | O => None
  | S fuel =>
      '(e, r) ← parse_expr ts;
      match r with
      | t :: r' =>
          if is_sym "," t
          then '(es, r'') ← parse_exprs fuel r'; Some (e :: es, r'')
          else Some ([e], r)
      | [] => Some ([e], r)
      end
  end.

(** [c=e sep c=e sep ...], at least one. *)
Fixpoint parse_eqs (sep : Token) (fuel : nat) (ts : list Token)
  : option (list (string * Expr) * list Token) :=
  match fuel with
  | O => None
  | S fuel =>
      match ts with
      | TWord c :: t :: r0 =>
          if is_sym "=" t then
            '(e, r) ← parse_expr r0;
            match r with
            | t' :: r' =>
                if bool_decide (t' = sep)
                then '(es, r'') ← parse_eqs sep fuel r'; Some ((c, e) :: es, r'')
                else Some ([(c, e)], r)
            | [] => Some ([(c, e)], r)
            end
          else None
      | _ => None
      end
  end.

Definition parse_where (ts : list Token)
  : option (list (string * Expr) * list Token) :=
  match ts with
  | t :: r => if is_word "WHERE" t then parse_eqs (TWord "AND") (length ts) r
              else Some ([], ts)
  | [] => Some ([], ts)
  end.

(** The items of [CREATE TABLE t ( ... )]: column declarations, and
    foreign-key constraints, which are read and not enforced. *)
Fixpoint parse_items (fuel : nat) (ts : list Token) : option (list string) :=
  match fuel with
  | O => None
  | S fuel =>
      '(cols, r) ←
        match ts with
        | TWord f :: TWord k :: TSym p1 :: TWord _ :: TSym p2 :: TWord rf
          :: TWord _ :: TSym p3 :: TWord _ :: TSym p4 :: r =>
            if String.eqb f "FOREIGN" && String.eqb k "KEY" && Ascii.eqb p1 "("
               && Ascii.eqb p2 ")" && String.eqb rf "REFERENCES"
               && Ascii.eqb p3 "(" && Ascii.eqb p4 ")"
            then Some ([], r) else None
        | TWord c :: TWord _ :: r => Some ([c], r)
        | _ => None
        end;
      match r with
      | [t] => if is_sym ")" t then Some cols else None
      | t :: r' => if is_sym "," t
                   then rest ← parse_items fuel r'; Some (cols ++ rest)
                   else None
      | [] => None
      end
  end.

Definition probe_tokens (name : string) : list Token :=
  [TWord "SELECT"; TWord "count"; TSym "("; TWord "name"; TSym ")"; TWord "FROM";
   TWord "sqlite_master"; TWord "WHERE"; TWord "type"; TSym "="; TStr "table";
   TWord "AND"; TWord "name"; TSym "="; TStr name].

Definition parse_rows (ts : list Token) : option Stmt :=
  match ts with
  | TWord _ :: TWord r :: TSym c :: TSym s :: TWord f :: TWord t :: rest =>
      if String.eqb r "rowid" && Ascii.eqb c "," && Ascii.eqb s "*" && String.eqb f "FROM"
      then
        '(conds, rest) ← parse_where rest;
        match rest with
        | [] => Some (SSelect t conds None)
        | [TWord l; TNum n] =>
            if String.eqb l "LIMIT"
            then z ← digits_value n 0; Some (SSelect t conds (Some (Z.to_nat z)))
            else None
        | _ => None
        end
      else None
  | _ => None
  end.

Definition parse_select (ts : list Token) : option Stmt :=
  match last ts with
  | Some (TStr name) =>
      if bool_decide (ts = probe_tokens name) then Some (SProbe name)
      else parse_rows ts
  | _ => parse_rows ts
  end.

Definition parse_tokens (ts : list Token) : option Stmt :=
  match ts with
  | TWord kw :: r =>
      if String.eqb kw "SELECT" then parse_select ts
      else if String.eqb kw "CREATE" then
        match r with
        | TWord tb :: TWord t :: TSym p :: items =>
            if String.eqb tb "TABLE" && Ascii.eqb p "("
            then cols ← parse_items (length items) items; Some (SCreate t cols)
            else None
        | _ => None
        end
      else if String.eqb kw "INSERT" then
        match r with
        | TWord i :: TWord t :: TWord v :: TSym p :: vals =>
            if String.eqb i "INTO" && String.eqb v "VALUES" && Ascii.eqb p "("
            then
              '(es, rest) ← parse_exprs (length vals) vals;
              match rest with
              | [c] => if is_sym ")" c then Some (SInsert t es) else None
              | _ => None
              end
            else None
        | _ => None
        end
      else if String.eqb kw "UPDATE" then
        match r with
        | TWord t :: TWord s :: sets =>
            if String.eqb s "SET" then
              '(assigns, rest) ← parse_eqs (TSym ",") (length sets) sets;
              '(conds, rest) ← parse_where rest;
              match rest with [] => Some (SUpdate t assigns conds) | _ => None end
            else None
        | _ => None
        end
      else if String.eqb kw "DELETE" then
        match r with
        | TWord f :: TWord t :: rest =>
            if String.eqb f "FROM" then
              '(conds, rest) ← parse_where rest;
              match rest with [] => Some (SDelete t conds) | _ => None end
            else None
        | _ => None
        end
      else None
  | _ => None
  end.

Definition parse (sql : string) : option Stmt :=
  ts ← lex sql; parse_tokens ts.

(** ** Tables and execution

    Names of tables and columns are compared without regard to the case
    of the letters, as SQLite compares them. *)

Definition lower_char (c : ascii) : ascii :=
  if between 65 90 c then ascii_of_nat (nat_of_ascii c + 32) else c.

Fixpoint lower (s : string) : string :=
  match s with
  | EmptyString => EmptyString
  | String c s' => String (lower_char c) (lower s')
  end.

Definition same_name (a b : string) : bool := String.eqb (lower a) (lower b).

Record Table : Type := {
  tbl_name : string;
  tbl_columns : list string;
  tbl_rows : list (Z * list PyVal)
}.

Definition Db : Type := list Table.

Fixpoint find_table (db : Db) (t : string) : option Table :=
  match db with
  | [] => None
  | tb :: db' => if same_name (tbl_name tb) t then Some tb else find_table db' t
  end.

Fixpoint put_table (db : Db) (tb : Table) : Db :=
  match db with
  | [] => []
  | tb' :: db' =>
      if same_name (tbl_name tb') (tbl_name tb) then tb :: db'
      else tb' :: put_table db' tb
  end.

(** The row of a table with a given [rowid]. *)
Definition row_at (db : Db) (t : string) (rowid : Z) : option (list PyVal) :=
  match find_table db t with
  | Some tb => snd <$> List.find (fun r => fst r =? rowid) (tbl_rows tb)
  | None => None
  end.

Fixpoint column_index (cols : list string) (c : string) : option nat :=
  match cols with
  | [] => None
  | c' :: cols' => if same_name c' c then Some O else S <$> column_index cols' c
  end.

(** The names under which SQLite gives the identity of a row, unless a
    column of the table takes the name. *)
Definition is_rowid (c : string) : bool :=
  same_name c "rowid" || same_name c "oid" || same_name c "_rowid_".

Definition known_column (cols : list string) (c : string) : bool :=
  bool_decide (is_Some (column_index cols c)) || is_rowid c.

Definition known_expr (cols : list string) (e : Expr) : bool :=
  match e with
  | ELit _ => true
  | ECol c => known_column cols c
  end.

(** A name is read as the declared column of that name when there is
    one, and only then as the identity of the row. *)
Definition column_value (cols : list string) (row : Z * list PyVal) (c : string) : PyVal :=
  match column_index cols c with
  | Some i => default VNone (snd row !! i)
  | None => if is_rowid c then VInt (fst row) else VNone
  end.

Definition eval (cols : list string) (row : Z * list PyVal) (e : Expr) : PyVal :=
  match e with
  | ELit v => v
  | ECol c => column_value cols row c
  end.

Definition matches (cols : list string) (conds : list (string * Expr))
    (row : Z * list PyVal) : bool :=
  forallb (fun '(c, e) =>
    bool_decide (column_value cols row c = eval cols row e)) conds.

Definition known_conds (cols : list string) (conds : list (string * Expr)) : bool :=
  forallb (fun '(c, e) => known_column cols c && known_expr cols e) conds.

Definition next_rowid (rows : list (Z * list PyVal)) : Z :=
  1 + foldr (fun r m => Z.max (fst r) m) 0 rows.

(** One assignment applied to a row, the expression being read in the
    row as it was: to the value of the declared column of that name, or,
    under a name of the identity that no column takes, to the identity of
    the row, which has to be an integer. *)
Definition assign (cols : list string) (old : Z * list PyVal)
    (new : option (Z * list PyVal)) (a : string * Expr) : option (Z * list PyVal) :=
  '(id, vals) ← new;
  match column_index cols (fst a) with
  | Some i => Some (id, <[ i := eval cols old (snd a) ]> vals)
  | None =>
      if is_rowid (fst a) then
        match eval cols old (snd a) with
        | VInt z => Some (z, vals)
        | _ => None
        end
      else Some (id, vals)
  end.

Definition update_row (cols : list string) (assigns : list (string * Expr))
    (conds : list (string * Expr)) (row : Z * list PyVal) : option (Z * list PyVal) :=
  if matches cols conds row
  then foldl (assign cols row) (Some row) assigns
  else Some row.

Definition no_cursor : Cursor := {| cur_rows := []; lastrowid := VNone |}.

Definition literal (e : Expr) : option PyVal :=
  match e with
  | ELit v => Some v
  | ECol _ => None
  end.

Definition run (s : Stmt) (db : Db) : string + Cursor * Db :=
  match s with
  | SProbe name =>
      let n := match find_table db name with Some _ => 1 | None => 0 end in
      inr ({| cur_rows := [[VInt n]]; lastrowid := VNone |}, db)
  | SCreate t cols =>
      match find_table db t, cols with
      | Some _, _ => inl ("table " +:+ t +:+ " already exists")
      | None, [] => inl "syntax error"
      | None, _ =>
          if bool_decide (NoDup (lower <$> cols))
          then inr (no_cursor,
                    db ++ [ {| tbl_name := t; tbl_columns := cols; tbl_rows := [] |} ])
          else inl "duplicate column name"
      end
  | SInsert t es =>
      match find_table db t with
      | None => inl ("no such table: " +:+ t)
      | Some tb =>
          match mapM literal es with
          | None => inl "no such column"
          | Some vals =>
              if Nat.eqb (length vals) (length (tbl_columns tb)) then
                let id := next_rowid (tbl_rows tb) in
                inr ({| cur_rows := []; lastrowid := VInt id |},
                     put_table db {| tbl_name := tbl_name tb;
                                     tbl_columns := tbl_columns tb;
                                     tbl_rows := tbl_rows tb ++ [(id, vals)] |})
              else inl ("table " +:+ t +:+ " has a different number of columns")
          end
      end
  | SUpdate t assigns conds =>
      match find_table db t with
      | None => inl ("no such table: " +:+ t)
      | Some tb =>
          let cols := tbl_columns tb in
          if forallb (fun '(c, e) => known_column cols c && known_expr cols e) assigns
             && known_conds cols conds
          then
            match mapM (update_row cols assigns conds) (tbl_rows tb) with
            | None => inl "datatype mismatch"
            | Some rows =>
                if bool_decide (NoDup (fst <$> rows))
                then inr (no_cursor,
                          put_table db {| tbl_name := tbl_name tb; tbl_columns := cols;
                                          tbl_rows := rows |})
                else inl "UNIQUE constraint failed"
            end
          else inl "no such column"
      end
  | SDelete t conds =>
      match find_table db t with
      | None => inl ("no such table: " +:+ t)
      | Some tb =>
          let cols := tbl_columns tb in
          if known_conds cols conds
          then inr (no_cursor,
                    put_table db {| tbl_name := tbl_name tb; tbl_columns := cols;
                                    tbl_rows := List.filter (fun r => negb (matches cols conds r))
                                                       (tbl_rows tb) |})
          else inl "no such column"
      end
  | SSelect t conds limit =>
      match find_table db t with
      | None => inl ("no such table: " +:+ t)
      | Some tb =>
          let cols := tbl_columns tb in
          if known_conds cols conds then
            let rows := List.filter (matches cols conds) (tbl_rows tb) in
            let rows := match limit with Some n => take n rows | None => rows end in
            inr ({| cur_rows := map (fun r => column_value cols r "rowid" :: snd r) rows;
                    lastrowid := VNone |}, db)
          else inl "no such column"
      end
  end.

Definition execute_text (sql : string) (db : Db) : string + Cursor * Db :=
  match parse sql with
  | Some s => run s db
  | None => inl "syntax error"
  end.

(** What [sqlite3.connect(":memory:")] gives: a new database without
    tables. *)
Definition memory : Db := [].

Definition external : External := {|
  Database := Db;
  sqlite3_execute := execute_text;
  object_repr := fun a => "<__main__.Model object at " +:+ pretty a +:+ ">"
|}.

(** The stored row of a table with a given [rowid], and the columns of a
    stored table, in a world over this engine. *)
Definition stored_row (w : WorldOf Db) (t : string) (rowid : Z)
  : option (list PyVal) :=
  match DB_CONNECTION w with
  | Some db => row_at db t rowid
  | None => None
  end.

Definition stored_columns (w : WorldOf Db) (t : string) : option (list string) :=
  match DB_CONNECTION w with
  | Some db => tbl_columns <$> find_table db t
  | None => None
  end.

(** The stored rows are the same, and the tables that were there have
    the columns they had. *)
Definition same_rows (w w' : WorldOf Db) : Prop :=
  (forall t r, stored_row w' t r = stored_row w t r)
  /\ (forall t cols, stored_columns w t = Some cols -> stored_columns w' t = Some cols).

(** The statements of the table lifecycle: the existence probe and the
    creation. *)
Definition lifecycle (sql : string) : Prop :=
  (exists rest, sql = "SELECT " +:+ rest) \/ (exists rest, sql = "CREATE TABLE " +:+ rest).

(** ** Texts that are one name or one literal

    What the statements of the module are made of when nothing is
    injected: names that are identifiers, numbers, and quoted texts
    without a quote inside. *)

Definition is_word_char (c : ascii) : bool := is_letter c || is_digit c.
Definition is_num_char (c : ascii) : bool := is_digit c || Ascii.eqb c ".".

Fixpoint all_chars (P : ascii -> bool) (s : string) : bool :=
  match s with
  | EmptyString => true
  | String c s' => P c && all_chars P s'
  end.

(** A letter or an underscore, then letters, digits and underscores. *)
Definition identifier (s : string) : bool :=
  match s with
  | EmptyString => false
  | String c s' => is_letter c && all_chars is_word_char s'
  end.

(** Digits and points after a first digit. *)
Definition unsigned_text (s : string) : bool :=
  match s with
  | EmptyString => false
  | String c s' => is_digit c && all_chars is_num_char s'
  end.

(** A literal of the three shapes: a number, a number after a minus
    sign, a text between quotes. *)
Inductive Shape : Type :=
  | SNum (negative : bool) (digits : string)
  | SStr (body : string).

Definition shape_text (sh : Shape) : string :=
  match sh with
  | SNum false d => d
  | SNum true d => "-" +:+ d
  | SStr b => "'" +:+ b +:+ "'"
  end.

Definition shape_ok (sh : Shape) : bool :=
  match sh with
  | SNum _ d => unsigned_text d
  | SStr b => negb (has_quote b)
  end.

Definition shape_tokens (sh : Shape) : list Token :=
  match sh with
  | SNum false d => [TNum d]
  | SNum true d => [TSym "-"; TNum d]
  | SStr b => [TStr b]
  end.

Definition shape_expr (sh : Shape) : Expr :=
  match sh with
  | SNum n d => ELit (num_value n d)
  | SStr b => ELit (VStr b)
  end.

(** A value whose text in a statement is one literal: an integer, a
    float written with digits and a point, or what [StringField.convert]
    makes of a text without a quote. *)
Definition plain_value (c : PyVal) : Prop :=
  match c with
  | VInt _ => True
  | VFloat r => exists sh, shape_ok sh = true /\ r = shape_text sh
                           /\ match sh with SNum _ _ => True | SStr _ => False end
  | VStr s => exists body, s = "'" +:+ body +:+ "'" /\ has_quote body = false
  | _ => False
  end.

(** The lexer on a part of a text: the tokens that are complete and the
    mode at the end of the part. *)
Fixpoint lex_run (m : Mode) (s : string) : option (list Token * Mode) :=
  match s with
  | EmptyString => Some ([], m)
  | String c s' =>
      match step m c with
      | Some (ts, m') =>
          match lex_run m' s' with
          | Some (ts', m'') => Some (ts ++ ts', m'')
          | None => None
          end
      | None => None
      end
  end.

(** The mode ends in the token [tok], which a comma, a blank or the end
    of the text completes. *)
Definition closes (m : Mode) (tok : Token) : Prop :=
  finish m = Some [tok]
  /\ step m "," = Some ([tok; TSym ","], Start)
  /\ step m " " = Some ([tok], Start).

(** The text of an integer. *)
Definition int_shape (z : Z) : Shape := SNum (z <? 0) (pretty (Z.abs_N z)).

(** An assignment [name=literal], and the tokens of assignments that
    commas separate. *)
Definition assignment_text (a : string * Shape) : string :=
  fst a +:+ "=" +:+ shape_text (snd a).

Fixpoint assignment_tokens (items : list (string * Shape)) : list Token :=
  match items with
  | [] => []
  | a :: rest =>
      TWord (fst a) :: TSym "=" :: shape_tokens (snd a)
      ++ match rest with
         | [] => []
         | _ => TSym "," :: assignment_tokens rest
         end
  end.

Definition assignment_exprs (items : list (string * Shape)) : list (string * Expr) :=
  map (fun a => (fst a, shape_expr (snd a))) items.

End MiniSqlite.

(** * Example classes and worlds, over the engine model *)
Module Examples.

#[local] Existing Instance MiniSqlite.external.

(** [class Coord3D(Model): x = IntField(); y = IntField(); z = IntField();
    name = StringField()], with the two names Python adds to the
    namespace of a class. *)
Definition Coord3D : ModelCls :=
  Class "Coord3D"
    [("__module__", NonField); ("x", IntField); ("y", IntField);
     ("z", IntField); ("name", StringField); ("__doc__", NonField)].


Definition Course : ModelCls :=
  Class "Course"
    [("__module__", NonField); ("dept", StringField); ("name", StringField);
     ("__doc__", NonField)].

Definition EnrollmentRecord : ModelCls :=
  Class "EnrollmentRecord"
    [("__module__", NonField); ("course", ForeignKeyField Course);
     ("__doc__", NonField)].

(** The world before [Connector.connect]. *)
Definition w_start : World :=
  {| DB_NAME := None; DB_CONNECTION := None; executed := []; heap := [] |}.

(** A new [Coord3D] with its four fields assigned. *)
Definition new_point (name : string) (x y z : Z) : M nat :=
  p <- new_instance Coord3D ;;
  setattr p "name" (VStr name) ;;;
  setattr p "x" (VInt x) ;;;
  setattr p "y" (VInt y) ;;;
  setattr p "z" (VInt z) ;;;
  ret p.

(** Connected, with two points made and not saved. *)
Definition w_made : World :=
  snd ((connect ":memory:" (inr MiniSqlite.memory) ;;;
        new_point "p1" 1 2 3 ;;;
        new_point "p2" 1 3 2) w_start).

(** The two points saved: rows 1 and 2 of the table. *)
Definition w_saved : World :=
  snd ((save 0%nat ;;; save 1%nat) w_made).

(** The first point renamed to a text with a quote and a comment mark. *)
Definition w_renamed : World :=
  snd (setattr 0%nat "name" (VStr "p1' --") w_saved).

(** A class with a field that takes the name of the identity of a row. *)
Definition Ranked : ModelCls :=
  Class "Ranked"
    [("__module__", NonField); ("rowid", IntField); ("__doc__", NonField)].

(** Connected, with two instances of that class saved, of rank 7 and 1,
    as rows 1 and 2, and the first then set to rank 9. *)
Definition w_ranked : World :=
  snd ((connect ":memory:" (inr MiniSqlite.memory) ;;;
        a <- new_instance Ranked ;;
        setattr a "rowid" (VInt 7) ;;;
        save a ;;;
        b <- new_instance Ranked ;;
        setattr b "rowid" (VInt 1) ;;;
        save b ;;;
        setattr a "rowid" (VInt 9)) w_start).

(** A snapshot of one row of [Coord3D]. *)
Definition one_row : QuerySet :=
  {| filter_kwargs := []; model_cls := Coord3D;
     query_result := {| cur_rows := [[VInt 1; VInt 1; VInt 2; VInt 3; VStr "p1"]];
                        lastrowid := VNone |};
     items := [[VInt 1; VInt 1; VInt 2; VInt 3; VStr "p1"]] |}.

(** Connected, with a course saved and an enrollment that refers to it
    saved. *)
Definition w_enrolled : World :=
  snd ((connect ":memory:" (inr MiniSqlite.memory) ;;;
        chem <- new_instance Course ;;
        setattr chem "name" (VStr "General Chemistry") ;;;
        setattr chem "dept" (VStr "Science") ;;;
        save chem ;;;
        enrollment <- new_instance EnrollmentRecord ;;
        setattr enrollment "course" (VObj chem) ;;;
        save enrollment) w_start).

(** The first point as it is before and after it is saved. *)
Definition p1_made : Instance := default (fresh Coord3D) (heap w_made !! 0%nat).
Definition p1_saved : Instance := default (fresh Coord3D) (heap w_saved !! 0%nat).

(** The filters of a query on two fields, and with a name that the class
    does not bind. *)
Definition two_filters : list (string * PyVal) :=
  [("x", VInt 1); ("name", VStr "p1")].

End Examples.

(** * The rest of the module: iteration, and closed forms for the table
      lifecycle *)

(** [f] over a list in the monad, in order. *)
Definition each {E : External} {A B} (f : A -> M B) : list A -> M (list B) :=
  fix go (l : list A) : M (list B) :=
    match l with
    | [] => ret []
    | x :: l' => y <- f x ;; ys <- go l' ;; ret (y :: ys)
    end.

Section Iteration.

Context `{External}.

(** [QuerySet.Iterator]: the position and the query set. *)
Record Iterator : Type := {
  idx : nat;
  qs : QuerySet
}.

(** [QuerySet.__iter__] *)
Definition QuerySet_iter (q : QuerySet) : Iterator := {| idx := 0%nat; qs := q |}.

(** What a call of [__next__] ends in, apart from the exceptions of the
    decoding: the element and the iterator moved on, or the
    [StopIteration] that ends a [for] loop. *)
Inductive Next : Type :=
  | Yield (elem : nat) (it : Iterator)
  | StopIteration.

(** [Iterator.__next__] *)
Definition Iterator_next (it : Iterator) : M Next :=
  if (length (items (qs it)) <=? idx it)%nat then ret StopIteration
  else
    match items (qs it) !! idx it with
    | Some tup =>
        elem <- init_from_db_tuple (model_cls (qs it)) tup ;;
        ret (Yield elem {| idx := S (idx it); qs := qs it |})
    | None => raise IndexError
    end.

(** [[elem for elem in it]]: [__next__] is called until it stops; [fuel]
    bounds the number of calls, and [None] says that it ran out. *)
Fixpoint comprehension (fuel : nat) (it : Iterator) : M (option (list nat)) :=
  match fuel with
  | O => ret None
  | S fuel =>
      r <- Iterator_next it ;;
      match r with
      | StopIteration => ret (Some [])
      | Yield elem it' =>
          rest <- comprehension fuel it' ;;
          ret (cons elem <$> rest)
      end
  end.

(** The probe of [_table_exists]. *)
Definition probe_statement (cls : ModelCls) : string :=
  "SELECT count(name) FROM sqlite_master WHERE type='table' AND name='"
  +:+ _table_name cls +:+ "'".

(** The column declarations of a class, in schema order. *)
Definition declarations (cls : ModelCls) : Outcome (list string) :=
  outcome_map (fun p => column_declaration (snd p) (fst p)) (fieldsOf cls).

(** The constraints of the reference fields of a class, in schema order. *)
Definition foreign_keys (cls : ModelCls) : list string :=
  omap (fun p => match snd p with
                 | ForeignKeyField other_cls =>
                     Some ("FOREIGN KEY(" +:+ fst p +:+ ") REFERENCES "
                           +:+ _table_name other_cls +:+ "(rowid)")
                 | _ => None
                 end) (fieldsOf cls).

Definition is_reference (field : ClassAttr) : bool :=
  match field with
  | ForeignKeyField _ => true
  | _ => false
  end.

(** The log of the second world is the log of the first and then
    statements that all satisfy [P]. *)
Definition log_extends (P : string -> Prop) (w w' : World) : Prop :=
  exists l, executed w' = executed w ++ l /\ Forall P l.

(** A call of one of the methods of [Connector]; a call of [connect]
    comes with what [sqlite3.connect] gives for it. *)
Inductive ConnectorCall : Type :=
  | CallConnect (db_name : string) (opened : string + Database)
  | CallDisconnnect
  | CallExecute (sql : string).

(** The world after a call, whether it returned or raised. *)
Definition call (c : ConnectorCall) (w : World) : World :=
  match c with
  | CallConnect db_name opened => snd (connect db_name opened w)
  | CallDisconnnect => snd (disconnnect w)
  | CallExecute sql => snd (execute sql w)
  end.

(** The world after a sequence of calls, each exception being caught. *)
Definition calls (cs : list ConnectorCall) (w : World) : World :=
  foldl (fun w c => call c w) w cs.

(** The connection and the log are the same in both worlds. *)
Definition same_connection (w w' : World) : Prop :=
  DB_NAME w' = DB_NAME w
  /\ DB_CONNECTION w' = DB_CONNECTION w
  /\ executed w' = executed w.

End Iteration.

(** The table lifecycle extends the log and touches nothing else. *)
Definition lifecycle_only {E : External} (w w' : World) : Prop :=
  heap w' = heap w
  /\ DB_NAME w' = DB_NAME w
  /\ is_connected w' = is_connected w
  /\ log_extends MiniSqlite.lifecycle w w'.

(** The log only grows. *)
Definition log_grows {E : External} (w w' : World) : Prop :=
  log_extends (fun _ => True) w w'.

(** The [__dict__] that decoding a row leaves for plain fields: every
    field bound to its unconverted value, in schema order. *)
Definition decoded_dict (fields : list (string * ClassAttr)) (vals : list PyVal)
    (d : gmap string PyVal) : gmap string PyVal :=
  foldl (fun d pv => <[ fst (fst pv) := unconvert (snd (fst pv)) (snd pv) ]> d)
        d (zip fields vals).

(** The instance that decoding a row of plain fields makes. *)
Definition decoded_instance (cls : ModelCls) (rowid : PyVal) (vals : list PyVal)
  : Instance :=
  {| inst_cls := cls;
     inst_dict := <[ "_id" := rowid ]>
                    (decoded_dict (fieldsOf cls) vals {[ "_id" := VNone ]}) |}.

(** * More example classes and worlds *)
Module MoreExamples.

Import Examples.

#[local] Existing Instance MiniSqlite.external.

(** A class with a public method beside its field. *)
Definition Tagged : ModelCls :=
  Class "Tagged"
    [("__module__", NonField); ("label", StringField); ("describe", NonField);
     ("__doc__", NonField)].

(** Connected, and nothing else done. *)
Definition w_connected : World := snd (connect ":memory:" (inr MiniSqlite.memory) w_start).

(** A point made before [Connector.connect]. *)
Definition w_offline : World := snd (new_point "p1" 1 2 3 w_start).

(** Connected, with a point of which only [x] was assigned. *)
Definition w_partial : World :=
  snd ((connect ":memory:" (inr MiniSqlite.memory) ;;;
        p <- new_instance Coord3D ;;
        setattr p "x" (VInt 1)) w_start).

(** Connected, with a course that was never saved and an enrollment that
    refers to it. *)
Definition w_pending : World :=
  snd ((connect ":memory:" (inr MiniSqlite.memory) ;;;
        chem <- new_instance Course ;;
        setattr chem "name" (VStr "General Chemistry") ;;;
        setattr chem "dept" (VStr "Science") ;;;
        enrollment <- new_instance EnrollmentRecord ;;
        setattr enrollment "course" (VObj chem)) w_start).

(** Connected, with an instance of the class with a method. *)
Definition w_tagged : World :=
  snd ((connect ":memory:" (inr MiniSqlite.memory) ;;;
        t <- new_instance Tagged ;;
        setattr t "label" (VStr "a")) w_start).

(** The database of the world with the saved enrollment. *)
Definition db_enrolled : MiniSqlite.Db := default [] (DB_CONNECTION w_enrolled).

(** [Coord3D.objects()] on the two saved points. *)
Definition all_points : QuerySet :=
  match fst (objects Coord3D [] w_saved) with
  | Return q => q
  | Raise _ => one_row
  end.

(** A session on the connector: a statement, a second [connect] that
    fails, a statement again, the end of the connection, and a statement
    without it. *)
Definition session : list ConnectorCall :=
  [CallExecute "SELECT rowid, * FROM Coord3D";
   CallConnect "missing/points.db" (inl "unable to open database file");
   CallExecute "SELECT rowid, * FROM Coord3D";
   CallDisconnnect;
   CallExecute "SELECT rowid, * FROM Coord3D"].

End MoreExamples.

(** * Properties *)

(** ** Texts *)

Lemma string_app_cons (x : ascii) (a b : string) :
  String x a +:+ b = String x (a +:+ b).
Proof. reflexivity. Qed.

Lemma string_app_assoc (a b c : string) : (a +:+ b) +:+ c = a +:+ (b +:+ c).
Proof.
  induction a as [|x a IH]; [reflexivity |].
  by rewrite !string_app_cons, IH.
Qed.

Lemma string_app_nil_r (a : string) : a +:+ "" = a.
Proof.
  induction a as [|x a IH]; [reflexivity |].
  by rewrite string_app_cons, IH.
Qed.

Lemma string_length_app (a b : string) :
  String.length (a +:+ b) = (String.length a + String.length b)%nat.
Proof.
  induction a as [|x a IH]; [reflexivity |].
  rewrite string_app_cons. simpl. by rewrite IH.
Qed.

Lemma concat_cons (sep x : string) (l : list string) :
  l ≠ [] → String.concat sep (x :: l) = x +:+ sep +:+ String.concat sep l.
Proof. destruct l; [done | reflexivity]. Qed.

(** The separator loop of the module is a join. *)
Lemma append_columns_concat (columns : list string) (i n : nat) (sql : string) :
  (i + length columns = n)%nat →
  append_columns columns i n sql = sql +:+ String.concat ", " columns.
Proof.
  revert i sql. induction columns as [|c rest IH]; intros i sql Hn.
  - cbn [append_columns String.concat]. by rewrite string_app_nil_r.
  - cbn [append_columns]. cbn [length] in Hn. destruct rest as [|c' rest'].
    + cbn [length] in Hn. replace (i =? n - 1)%nat with true.
      2:{ symmetry. apply Nat.eqb_eq. lia. }
      reflexivity.
    + replace (i =? n - 1)%nat with false.
      2:{ symmetry. apply Nat.eqb_neq. cbn [length] in Hn. lia. }
      cbn [negb]. rewrite IH by (cbn [length] in *; lia).
      rewrite (concat_cons _ c) by done. by rewrite !string_app_assoc.
Qed.

Lemma append_columns_all (columns : list string) (sql : string) :
  append_columns columns 0 (length columns) sql = sql +:+ String.concat ", " columns.
Proof. by apply append_columns_concat. Qed.

(** Conditions each followed by a space and joined by ["AND "]. *)
Lemma concat_spaced (conds : list string) :
  conds ≠ [] →
  String.concat "AND " (map (fun c => c +:+ " ") conds)
  = String.concat " AND " conds +:+ " ".
Proof.
  induction conds as [|c rest IH]; [done | intros _].
  destruct rest as [|c' rest']; [reflexivity |].
  rewrite (concat_cons " AND ") by done.
  change (map (λ c0, c0 +:+ " ") (c :: c' :: rest'))
    with ((c +:+ " ") :: map (λ c0, c0 +:+ " ") (c' :: rest')).
  rewrite concat_cons by done. rewrite IH by done.
  by rewrite !string_app_assoc.
Qed.

Section Properties.

Context `{External}.

(** ** The monad *)

Lemma bind_Return {A B} (m : M A) (k : A → M B) w a w1 :
  m w = (Return a, w1) → bind m k w = k a w1.
Proof. unfold bind. by intros ->. Qed.

Lemma bind_Raise {A B} (m : M A) (k : A → M B) w e w1 :
  m w = (Raise e, w1) → bind m k w = (Raise e, w1).
Proof. unfold bind. by intros ->. Qed.

Lemma bind_inv {A B} (m : M A) (k : A → M B) w r w' :
  bind m k w = (r, w') →
  (∃ a w1, m w = (Return a, w1) ∧ k a w1 = (r, w'))
  ∨ (∃ e, m w = (Raise e, w') ∧ r = Raise e).
Proof.
  unfold bind. destruct (m w) as [[a|e] w1]; intros Hk.
  - left. eauto.
  - right. inversion Hk; subst. eauto.
Qed.

Lemma bind_inv_Return {A B} (m : M A) (k : A → M B) w b w' :
  bind m k w = (Return b, w') →
  ∃ a w1, m w = (Return a, w1) ∧ k a w1 = (Return b, w').
Proof.
  intros Hb. apply bind_inv in Hb as [Hb | (e & _ & Hb)]; [done | discriminate].
Qed.

Lemma for_each_nil {A S} (body : A → S → M S) s : for_each [] body s = ret s.
Proof. reflexivity. Qed.

Lemma for_each_cons {A S} x (items : list A) (body : A → S → M S) s :
  for_each (x :: items) body s = (s' <- body x s ;; for_each items body s').
Proof. reflexivity. Qed.

(** ** Connector *)

Lemma execute_connected sql w db :
  DB_CONNECTION w = Some db →
  execute sql w =
    match sqlite3_execute sql db with
    | inl msg => (Raise (Sqlite3Error msg),
                  {| DB_NAME := DB_NAME w; DB_CONNECTION := Some db;
                     executed := executed w ++ [sql]; heap := heap w |})
    | inr (cursor, db') =>
        (Return cursor,
         {| DB_NAME := DB_NAME w; DB_CONNECTION := Some db';
            executed := executed w ++ [sql]; heap := heap w |})
    end.
Proof. unfold execute. intros ->. simpl. by destruct (sqlite3_execute sql db) as [?|[? ?]]. Qed.

(** C2, as the code has it: with no connection the assertion of [execute]
    does not fire, the absent connection is used and the call ends in an
    [AttributeError]; [disconnnect], which calls [is_connected], stops at
    its assertion in the same state. *)
Theorem execute_without_connection (sql : string) (w : World) :
  DB_CONNECTION w = None →
  execute sql w = (Raise AttributeError, w)
  ∧ execute sql w ≠ (Raise AssertionError, w)
  ∧ disconnnect w = (Raise AssertionError, w).
Proof.
  intros Hnone. unfold execute, disconnnect, is_connected, bound_method_truth.
  rewrite Hnone. simpl. repeat split; congruence.
Qed.

End Properties.

Section Queries.

Context `{External}.

Lemma outcome_map_app {A B} (f : A → Outcome B) (l1 l2 : list A) :
  outcome_map f (l1 ++ l2) =
    match outcome_map f l1 with
    | Return ys1 =>
        match outcome_map f l2 with
        | Return ys2 => Return (ys1 ++ ys2)
        | Raise e => Raise e
        end
    | Raise e => Raise e
    end.
Proof.
  induction l1 as [|x l1 IH]; simpl.
  - by destruct (outcome_map f l2).
  - destruct (f x); [|reflexivity]. rewrite IH.
    destruct (outcome_map f l1); [|reflexivity]. by destruct (outcome_map f l2).
Qed.

Lemma outcome_map_length {A B} (f : A → Outcome B) (l : list A) ys :
  outcome_map f l = Return ys → length ys = length l.
Proof.
  revert ys. induction l as [|x l IH]; intros ys; simpl.
  - by intros [= <-].
  - destruct (f x); [|done]. destruct (outcome_map f l); [|done].
    intros [= <-]. simpl. f_equal. by apply IH.
Qed.

Lemma outcome_map_lookup {A B} (f : A → Outcome B) (l : list A) ys i x :
  outcome_map f l = Return ys → l !! i = Some x →
  ∃ y, f x = Return y ∧ ys !! i = Some y.
Proof.
  revert ys i. induction l as [|x0 l IH]; intros ys i; simpl; [done |].
  destruct (f x0) as [y0|] eqn:Hx0; [|done].
  destruct (outcome_map f l) as [ys'|]; [|done].
  intros [= <-]. destruct i as [|i]; simpl.
  - intros [= <-]. eauto.
  - intros Hi. by apply (IH ys' i).
Qed.


(** The loop of [get_query_string] from any position on. *)
Lemma conditions_from cls n rest i sql w :
  (i + length rest = n)%nat →
  for_each rest (condition_step cls n) (sql, i) w =
    (match outcome_map (condition (heap w) cls) rest with
     | Return conds =>
         Return (sql +:+ String.concat "AND " (map (fun c => c +:+ " ") conds), n)
     | Raise e => Raise e
     end, w).
Proof.
  revert i sql. induction rest as [|[k v] rest IH]; intros i sql Hn.
  - cbn [length] in Hn. replace n with i by lia.
    cbn. by rewrite string_app_nil_r.
  - rewrite for_each_cons. cbn [length] in Hn.
    cbn [outcome_map]. unfold condition at 1. cbn [fst snd].
    unfold bind at 1. unfold condition_step at 1. unfold bind at 1.
    destruct (dict_get (vars cls) k) as [field|]; [|reflexivity].
    cbn [ret]. unfold bind at 1, convert, reading.
    destruct (convert_in (heap w) field v) as [c|e]; [|reflexivity].
    cbn [ret]. rewrite IH by lia.
    destruct (outcome_map (condition (heap w) cls) rest) as [conds|e] eqn:Hrest;
      [|reflexivity].
    apply outcome_map_length in Hrest.
    f_equal. f_equal. f_equal.
    destruct conds as [|c' conds'].
    + destruct rest; [|discriminate Hrest]. cbn [length] in Hn.
      assert ((i =? n - 1)%nat = true) as -> by (apply Nat.eqb_eq; lia).
      cbn [map String.concat negb]. by rewrite string_app_nil_r, !string_app_assoc.
    + destruct rest; [discriminate Hrest|]. cbn [length] in Hn.
      assert ((i =? n - 1)%nat = false) as -> by (apply Nat.eqb_neq; lia).
      cbn [negb map]. rewrite (concat_cons "AND " _ (_ :: _)) by discriminate.
      by rewrite !string_app_assoc.
Qed.

(** [get_query_string] reads the heap and nothing else; its text is the
    selection with a space after every condition. *)
Lemma get_query_string_closed cls kwargs w :
  get_query_string cls kwargs w =
    (match outcome_map (condition (heap w) cls) kwargs with
     | Return conds => Return (select_statement (_table_name cls) conds)
     | Raise e => Raise e
     end, w).
Proof.
  unfold get_query_string, conditions_loop. unfold bind.
  rewrite conditions_from by (simpl; lia).
  destruct (outcome_map (condition (heap w) cls) kwargs) as [conds|e] eqn:Hc;
    [|reflexivity].
  unfold ret. cbn [fst]. f_equal. f_equal. unfold select_statement.
  apply outcome_map_length in Hc.
  destruct kwargs as [|kv kwargs]; destruct conds as [|c conds];
    try discriminate Hc.
  - cbn [map String.concat]. by rewrite !string_app_nil_r.
  - rewrite concat_spaced by discriminate. by rewrite !string_app_assoc.
Qed.


Lemma QuerySet_init_closed cls kwargs w :
  QuerySet_init cls kwargs w =
    match outcome_map (condition (heap w) cls) kwargs with
    | Return conds =>
        (query_result <- execute (select_statement (_table_name cls) conds) ;;
         ret {| filter_kwargs := kwargs; model_cls := cls;
                query_result := query_result;
                items := fetchall query_result |}) w
    | Raise e => (Raise e, w)
    end.
Proof.
  unfold QuerySet_init. unfold bind at 1. rewrite get_query_string_closed.
  by destruct (outcome_map (condition (heap w) cls) kwargs).
Qed.

(** C4, amended: the statement is [SELECT rowid, * FROM <Name>] and, for a
    non-empty filter, [ WHERE c1=v1 AND c2=v2 ...] followed by one space;
    every value is the conversion of the filter's value by the field of
    that name, in the order of the filters.  The statement is executed at
    construction and the rows it yields are the snapshot. *)
Theorem query_construction cls kwargs conds w :
  outcome_map (condition (heap w) cls) kwargs = Return conds →
  (∀ i k v, kwargs !! i = Some (k, v) →
     ∃ field c, dict_get (vars cls) k = Some field
       ∧ convert_in (heap w) field v = Return c
       ∧ conds !! i = Some (k +:+ "=" +:+ py_str c))
  ∧ get_query_string cls kwargs w
    = (Return (select_statement (_table_name cls) conds), w)
  ∧ QuerySet_init cls kwargs w =
      (query_result <- execute (select_statement (_table_name cls) conds) ;;
       ret {| filter_kwargs := kwargs; model_cls := cls;
              query_result := query_result;
              items := fetchall query_result |}) w.
Proof.
  intros Hc. split; [|split].
  - intros i k v Hi.
    destruct (outcome_map_lookup _ _ _ _ _ Hc Hi) as (c & Hcond & Hci).
    unfold condition in Hcond. cbn [fst snd] in Hcond.
    destruct (dict_get (vars cls) k) as [field|]; [|done].
    destruct (convert_in (heap w) field v) as [cv|] eqn:Hcv; [|done].
    injection Hcond as <-. by exists field, cv.
  - by rewrite get_query_string_closed, Hc.
  - by rewrite QuerySet_init_closed, Hc.
Qed.


Lemma py_index_spec {A} (l : list A) (key : Z) :
  let n := Z.of_nat (length l) in
  (0 ≤ key < n → py_index l key = l !! Z.to_nat key ∧ is_Some (l !! Z.to_nat key))
  ∧ (- n ≤ key < 0 →
       py_index l key = l !! Z.to_nat (n + key) ∧ is_Some (l !! Z.to_nat (n + key)))
  ∧ (key < - n ∨ n ≤ key → py_index l key = None).
Proof.
  intros n. unfold py_index. fold n. repeat split.
  - assert ((0 <=? key) && (key <? n) = true) as -> by lia. done.
  - apply lookup_lt_is_Some. lia.
  - assert ((0 <=? key) && (key <? n) = false) as -> by lia.
    assert ((- n <=? key) && (key <? 0) = true) as -> by lia. done.
  - apply lookup_lt_is_Some. lia.
  - intros Hout.
    assert ((0 <=? key) && (key <? n) = false) as -> by lia.
    assert ((- n <=? key) && (key <? 0) = false) as -> by lia. done.
Qed.

(** C8, amended: a position from [0] to [count - 1] decodes the row at that
    position; a negative position down to [- count] decodes the row that
    many places from the end; every other position raises [IndexError]
    and changes nothing. *)
Theorem getitem_positions (qs : QuerySet) (key : Z) w :
  let n := Z.of_nat (count qs) in
  (0 ≤ key < n →
     ∃ tup, items qs !! Z.to_nat key = Some tup
       ∧ QuerySet_getitem qs key w = init_from_db_tuple (model_cls qs) tup w)
  ∧ (- n ≤ key < 0 →
     ∃ tup, items qs !! Z.to_nat (n + key) = Some tup
       ∧ QuerySet_getitem qs key w = init_from_db_tuple (model_cls qs) tup w)
  ∧ (key < - n ∨ n ≤ key → QuerySet_getitem qs key w = (Raise IndexError, w)).
Proof.
  intros n. unfold QuerySet_getitem.
  destruct (py_index_spec (items qs) key) as (Hin & Hneg & Hout).
  fold (count qs) in Hin, Hneg, Hout. fold n in Hin, Hneg, Hout.
  repeat split.
  - intros Hk. destruct (Hin Hk) as [-> [tup Htup]]. exists tup. by rewrite Htup.
  - intros Hk. destruct (Hneg Hk) as [-> [tup Htup]]. exists tup. by rewrite Htup.
  - intros Hk. by rewrite (Hout Hk).
Qed.

End Queries.

(** ** Induction on the classes a class refers to *)

Fixpoint ModelCls_induction (P : ModelCls → Prop)
    (step : ∀ name ns, Forall (refers_ok P) ns → P (Class name ns))
    (cls : ModelCls) {struct cls} : P cls :=
  match cls with
  | Class name ns =>
      step name ns
        ((fix all (ns : list (string * ClassAttr)) : Forall (refers_ok P) ns :=
            match ns with
            | [] => @List.Forall_nil _ (refers_ok P)
            | (n, f) :: rest =>
                @List.Forall_cons _ (refers_ok P) (n, f) rest
                  (match f return refers_ok P (n, f) with
                   | ForeignKeyField other_cls => ModelCls_induction P step other_cls
                   | _ => I
                   end)
                  (all rest)
            end) ns)
  end.

Section Frames.

Context `{External}.

(** ** Relations that every step of a computation keeps *)

Section Always.

Context (R : World → World → Prop) `{!PreOrder R}.

Lemma always_ret {A} (a : A) : always R (ret a).
Proof. intros w. reflexivity. Qed.

Lemma always_raise {A} e : always R (@raise _ A e).
Proof. intros w. reflexivity. Qed.

Lemma always_lift {A} (o : Outcome A) : always R (lift o).
Proof. intros w. reflexivity. Qed.

Lemma always_reading {A} (f : list Instance → Outcome A) : always R (reading f).
Proof. intros w. reflexivity. Qed.

Lemma always_bind {A B} (m : M A) (k : A → M B) :
  always R m → (∀ a, always R (k a)) → always R (bind m k).
Proof.
  intros Hm Hk w. unfold bind. specialize (Hm w).
  destruct (m w) as [[a|e] w1]; cbn [snd] in *; [|done].
  etrans; [exact Hm | apply Hk].
Qed.

Lemma always_for_each {A S} (items : list A) (body : A → S → M S) s :
  Forall (λ x, ∀ s, always R (body x s)) items →
  always R (for_each items body s).
Proof.
  intros Hall. revert s. induction Hall as [|x items Hx _ IH]; intros s.
  - apply always_ret.
  - rewrite for_each_cons. apply always_bind; [apply Hx | apply IH].
Qed.

(** The statements of the table lifecycle begin with [SELECT] or with
    [CREATE TABLE]; [ok] is what is known of such statements. *)
Context (ok : string → Prop).
Hypothesis ok_select : ∀ rest, ok ("SELECT " +:+ rest).
Hypothesis ok_create : ∀ rest, ok ("CREATE TABLE " +:+ rest).
Hypothesis R_execute : ∀ sql, ok sql → always R (execute sql).

Lemma always_table_exists cls : always R (_table_exists cls).
Proof.
  unfold _table_exists. apply always_bind.
  { apply R_execute.
    apply (ok_select ("count(name) FROM sqlite_master WHERE type='table' AND name='"
                      +:+ _table_name cls +:+ "'")). }
  intros c.
  destruct (fetchone c) as [row|]; [|apply always_raise].
  destruct (row !! 0%nat); [apply always_ret | apply always_raise].
Qed.

Lemma always_constraints_loop cls columns : always R (constraints_loop cls columns).
Proof.
  unfold constraints_loop. apply always_for_each, Forall_forall.
  intros [field_name field] _ s.
  destruct (startswith_underscore field_name); [apply always_ret |].
  apply always_bind; [apply always_lift |]. intros [c|]; apply always_ret.
Qed.

Lemma always_ensure_with create cls :
  always R (create cls) → always R (ensure_with create cls).
Proof.
  intros Hc. unfold ensure_with. apply always_bind; [apply always_table_exists |].
  intros []; [apply always_ret | exact Hc].
Qed.

Lemma always_create_table cls : always R (_create_table cls).
Proof.
  induction cls as [name ns IH] using ModelCls_induction.
  cbn [_create_table]. apply always_bind.
  - apply always_for_each. cbn [vars].
    eapply Forall_impl; [exact IH |]. intros [field_name field] Hfield columns.
    unfold declare_step. apply always_bind.
    + destruct field; try apply always_ret.
      apply always_ensure_with. exact Hfield.
    + intros _. destruct (startswith_underscore field_name); [apply always_ret |].
      apply always_bind; [apply always_lift | intros c; apply always_ret].
  - intros columns. apply always_bind; [apply always_constraints_loop |].
    intros columns'. apply always_bind; [| intros _; apply always_ret].
    apply R_execute. rewrite append_columns_all, !string_app_assoc.
    apply ok_create.
Qed.

Lemma always_ensure_table_exists cls : always R (_ensure_table_exists cls).
Proof. apply always_ensure_with, always_create_table. Qed.

End Always.

(** ** The heap is not touched by statements *)

#[global] Instance same_heap_preorder : PreOrder same_heap.
Proof.
  split; [done |]. unfold same_heap. intros w1 w2 w3 H12 H23. congruence.
Qed.

Lemma execute_same_heap sql : always same_heap (execute sql).
Proof.
  intros w. unfold execute, same_heap. cbn [bound_method_truth negb].
  destruct (DB_CONNECTION w); [|done].
  by destruct (sqlite3_execute sql d) as [|[]].
Qed.

Lemma ensure_table_exists_heap cls w :
  heap (snd (_ensure_table_exists cls w)) = heap w.
Proof.
  apply (always_ensure_table_exists same_heap (λ _, True)); try done.
  intros sql _. apply execute_same_heap.
Qed.

End Frames.

Section Persistence.

Context `{External}.

Lemma fieldsOf_eq cls : fieldsOf cls = List.filter public (vars cls).
Proof. reflexivity. Qed.

Lemma field_step_value self field_name field w :
  (lookup_method field ;;;
   v <- vars_self_get self field_name ;;
   convert field v) w
  = (field_value (heap w) self (field_name, field), w).
Proof.
  unfold field_value, bind, lookup_method, vars_self_get, convert, reading.
  cbn [fst snd].
  destruct field; cbn [raise ret]; try reflexivity;
    by destruct (vars_self_in (heap w) self field_name).
Qed.

(** The first loop of the insert branch, from any position on. *)
Lemma insert_columns_from self items columns w :
  for_each items (insert_step self) columns w =
    (match outcome_map (field_value (heap w) self) (List.filter public items) with
     | Return values => Return (columns ++ values)
     | Raise e => Raise e
     end, w).
Proof.
  revert columns. induction items as [|[field_name field] items IH]; intros columns.
  - cbn. by rewrite app_nil_r.
  - rewrite for_each_cons. cbn [List.filter].
    change (public (field_name, field)) with (negb (startswith_underscore field_name)).
    unfold bind at 1. unfold insert_step at 1.
    destruct (startswith_underscore field_name); cbn [negb ret].
    + apply IH.
    + pose proof (field_step_value self field_name field w) as Hv.
      unfold bind in Hv |- *. cbn [outcome_map].
      destruct (lookup_method field w) as [[[]|e1] w1] eqn:H1.
      * destruct (vars_self_get self field_name w1) as [[v|e2] w2] eqn:H2.
        -- destruct (convert field v w2) as [[c|e3] w3] eqn:H3;
             injection Hv as <- ->; [|reflexivity].
           cbn [ret]. rewrite IH.
           destruct (outcome_map _ _); [|reflexivity].
           by rewrite <- app_assoc.
        -- by injection Hv as <- ->.
      * by injection Hv as <- ->.
Qed.

Lemma insert_columns_closed self cls w :
  insert_columns self cls w
  = (outcome_map (field_value (heap w) self) (fieldsOf cls), w).
Proof.
  unfold insert_columns. rewrite insert_columns_from, <- fieldsOf_eq.
  by destruct (outcome_map _ _).
Qed.

Lemma zip_with_snoc {A B C} (f : A → B → C) l1 l2 x y :
  length l1 = length l2 →
  zip_with f (l1 ++ [x]) (l2 ++ [y]) = zip_with f l1 l2 ++ [f x y].
Proof.
  revert l2. induction l1 as [|a l1 IH]; intros [|b l2] Hlen; try done.
  cbn. f_equal. apply IH. by injection Hlen.
Qed.

(** The first loop of the update branch, from any position on. *)
Lemma update_columns_from self items columns w :
  for_each items (update_step self) columns w =
    (match outcome_map (field_value (heap w) self) (List.filter public items) with
     | Return values =>
         Return (columns ++ zip_with assignment (List.filter public items) values)
     | Raise e => Raise e
     end, w).
Proof.
  revert columns. induction items as [|[field_name field] items IH]; intros columns.
  - cbn. by rewrite app_nil_r.
  - rewrite for_each_cons. cbn [List.filter].
    change (public (field_name, field)) with (negb (startswith_underscore field_name)).
    unfold bind at 1. unfold update_step at 1.
    destruct (startswith_underscore field_name); cbn [negb ret].
    + apply IH.
    + pose proof (field_step_value self field_name field w) as Hv.
      unfold bind in Hv |- *. cbn [outcome_map].
      destruct (lookup_method field w) as [[[]|e1] w1] eqn:H1.
      * destruct (vars_self_get self field_name w1) as [[v|e2] w2] eqn:H2.
        -- destruct (convert field v w2) as [[c|e3] w3] eqn:H3;
             injection Hv as <- ->; [|reflexivity].
           cbn [ret]. rewrite IH.
           destruct (outcome_map _ _); [|reflexivity].
           cbn [zip_with]. by rewrite <- app_assoc.
        -- by injection Hv as <- ->.
      * by injection Hv as <- ->.
Qed.

Lemma update_columns_closed self cls w :
  update_columns self cls w =
    (match outcome_map (field_value (heap w) self) (fieldsOf cls) with
     | Return values => Return (zip_with assignment (fieldsOf cls) values)
     | Raise e => Raise e
     end, w).
Proof. unfold update_columns. by rewrite update_columns_from, <- fieldsOf_eq. Qed.

Lemma ensure_Return_heap cls w w1 :
  _ensure_table_exists cls w = (Return tt, w1) → heap w1 = heap w.
Proof. intros Hw. pose proof (ensure_table_exists_heap cls w) as Hh. by rewrite Hw in Hh. Qed.

(** [save] on an instance without identity. *)
Lemma save_insert_closed self o w w1 values :
  heap w !! self = Some o →
  inst_dict o !! "_id" = Some VNone →
  _ensure_table_exists (inst_cls o) w = (Return tt, w1) →
  outcome_map (field_value (heap w) self) (fieldsOf (inst_cls o)) = Return values →
  save self w =
    (cursor <- execute (insert_statement (_table_name (inst_cls o)) values) ;;
     setattr self "_id" (lastrowid cursor)) w1.
Proof.
  intros Hself Hid Hens Hvals. pose proof (ensure_Return_heap _ _ _ Hens) as Hheap.
  unfold save. unfold bind at 1. unfold type_of, reading at 1, type_in. rewrite Hself.
  unfold bind at 1. rewrite Hens.
  unfold bind at 1. unfold getattr, reading at 1, getattr_in.
  rewrite Hheap, Hself, Hid.
  unfold bind at 1. rewrite insert_columns_closed, Hheap, Hvals.
  rewrite append_columns_concat by (by rewrite length_map).
  unfold insert_statement. by rewrite !string_app_assoc.
Qed.

(** [save] on an instance that has an identity. *)
Lemma save_update_closed self o w w1 values _id :
  heap w !! self = Some o →
  inst_dict o !! "_id" = Some _id →
  _id ≠ VNone →
  _ensure_table_exists (inst_cls o) w = (Return tt, w1) →
  outcome_map (field_value (heap w) self) (fieldsOf (inst_cls o)) = Return values →
  save self w =
    (execute (update_statement (_table_name (inst_cls o)) (fieldsOf (inst_cls o))
                values _id) ;;; ret tt) w1.
Proof.
  intros Hself Hid Hnone Hens Hvals.
  pose proof (ensure_Return_heap _ _ _ Hens) as Hheap.
  unfold save. unfold bind at 1. unfold type_of, reading at 1, type_in. rewrite Hself.
  unfold bind at 1. rewrite Hens.
  unfold bind at 1. unfold getattr, reading at 1, getattr_in.
  rewrite Hheap, Hself, Hid.
  assert (∀ (A : Type) (x y : A), match _id with VNone => x | _ => y end = y) as Hbranch.
  { intros A x y. by destruct _id. }
  rewrite Hbranch.
  unfold bind at 1. rewrite update_columns_closed, Hheap, Hvals.
  rewrite append_columns_all.
  unfold update_statement. by rewrite !string_app_assoc.
Qed.


Lemma field_value_lookup self o h field_name field c :
  h !! self = Some o →
  field_value h self (field_name, field) = Return c →
  ∃ v, inst_dict o !! field_name = Some v ∧ convert_in h field v = Return c.
Proof.
  intros Hself. unfold field_value, vars_self_in. cbn [fst snd]. rewrite Hself.
  destruct (inst_dict o !! field_name) as [v|]; [|by destruct field].
  intros Hc. exists v. split; [done |]. by destruct field.
Qed.

(** C5: with the table in place and every schema field of the instance
    convertible, [save] without identity converts the fields in schema
    order, executes [INSERT INTO <name> VALUES (<v1>, <v2>, ...)] and
    binds [_id] to the identity the engine returns; with an identity it
    executes [UPDATE <name> SET f1=<v1>, f2=<v2>, ... WHERE rowid=<identity>]
    over all the fields. *)
Theorem save_statements self o w w1 values :
  heap w !! self = Some o →
  _ensure_table_exists (inst_cls o) w = (Return tt, w1) →
  outcome_map (field_value (heap w) self) (fieldsOf (inst_cls o)) = Return values →
  (∀ i field_name field,
     fieldsOf (inst_cls o) !! i = Some (field_name, field) →
     ∃ v c, inst_dict o !! field_name = Some v
       ∧ convert_in (heap w) field v = Return c
       ∧ values !! i = Some c)
  ∧ (inst_dict o !! "_id" = Some VNone →
     save self w =
       (cursor <- execute (insert_statement (_table_name (inst_cls o)) values) ;;
        setattr self "_id" (lastrowid cursor)) w1)
  ∧ (∀ _id, inst_dict o !! "_id" = Some _id → _id ≠ VNone →
     save self w =
       (execute (update_statement (_table_name (inst_cls o))
                   (fieldsOf (inst_cls o)) values _id) ;;; ret tt) w1).
Proof.
  intros Hself Hens Hvals. split; [|split].
  - intros i field_name field Hi.
    destruct (outcome_map_lookup _ _ _ _ _ Hvals Hi) as (c & Hc & Hci).
    destruct (field_value_lookup _ _ _ _ _ _ Hself Hc) as (v & Hv & Hconv).
    by exists v, c.
  - intros Hid. by apply save_insert_closed.
  - intros _id Hid Hnone. by apply save_update_closed.
Qed.

Lemma delete_same_heap self : always same_heap (delete self).
Proof.
  unfold delete. apply always_bind; [apply _ | apply always_reading, _ |].
  intros cls. apply always_bind; [apply _ | |].
  { apply (always_ensure_table_exists same_heap (λ _, True)); try done.
    intros sql _. apply execute_same_heap. }
  intros _. apply always_bind; [apply _ | apply always_reading, _ |].
  intros _id. apply always_bind; [apply _ | apply execute_same_heap |].
  intros _. apply always_ret, _.
Qed.

Lemma delete_closed self o w w1 _id :
  heap w !! self = Some o →
  inst_dict o !! "_id" = Some _id →
  _ensure_table_exists (inst_cls o) w = (Return tt, w1) →
  delete self w =
    (execute (delete_statement (_table_name (inst_cls o)) _id) ;;; ret tt) w1.
Proof.
  intros Hself Hid Hens. pose proof (ensure_Return_heap _ _ _ Hens) as Hheap.
  unfold delete. unfold bind at 1. unfold type_of, reading at 1, type_in. rewrite Hself.
  unfold bind at 1. rewrite Hens.
  unfold bind at 1. unfold getattr, reading at 1, getattr_in.
  by rewrite Hheap, Hself, Hid.
Qed.

(** C10: [delete] neither tests nor clears the identity.  It executes
    [DELETE FROM <name> WHERE rowid=<identity>] whatever the identity is,
    with the text [None] for an instance that was never saved, and it
    leaves the heap, so the instance and its [_id], as they were; a [save]
    after it therefore executes the [UPDATE] of that identity. *)
Theorem delete_keeps_identity self o w w1 _id :
  heap w !! self = Some o →
  inst_dict o !! "_id" = Some _id →
  _ensure_table_exists (inst_cls o) w = (Return tt, w1) →
  delete self w =
    (execute (delete_statement (_table_name (inst_cls o)) _id) ;;; ret tt) w1
  ∧ delete_statement (_table_name (inst_cls o)) VNone
    = "DELETE FROM " +:+ _table_name (inst_cls o) +:+ " WHERE rowid=None"
  ∧ heap (snd (delete self w)) = heap w
  ∧ (∀ w2 w3 values,
       _id ≠ VNone →
       delete self w = (Return tt, w2) →
       _ensure_table_exists (inst_cls o) w2 = (Return tt, w3) →
       outcome_map (field_value (heap w2) self) (fieldsOf (inst_cls o))
         = Return values →
       save self w2 =
         (execute (update_statement (_table_name (inst_cls o))
                     (fieldsOf (inst_cls o)) values _id) ;;; ret tt) w3).
Proof.
  intros Hself Hid Hens. pose proof (delete_same_heap self w) as Hheap.
  unfold same_heap in Hheap. repeat split.
  - by apply delete_closed.
  - exact Hheap.
  - intros w2 w3 values Hnone Hdel Hens2 Hvals. rewrite Hdel in Hheap.
    cbn [snd] in Hheap. apply save_update_closed; try done. by rewrite Hheap.
Qed.

End Persistence.

Section Decoding.

Context `{External}.

Lemma new_instance_eq cls w :
  new_instance cls w = (Return (length (heap w)), with_heap w (heap w ++ [fresh cls])).
Proof. reflexivity. Qed.

Lemma vals_get_inv vals idx w v w' :
  vals_get vals idx w = (Return v, w') → vals !! idx = Some v ∧ w' = w.
Proof.
  unfold vals_get. destruct (vals !! idx); cbn; intros [= <- <-]; done.
Qed.

Lemma lookup_method_inv field w u w' :
  lookup_method field w = (Return u, w') → field ≠ NonField ∧ w' = w.
Proof. destruct field; cbn; intros [= <-]; done. Qed.

Lemma setattr_inv obj name x w u w' :
  setattr obj name x w = (Return u, w') →
  w' = with_heap w (alter (set_dict name x) obj (heap w)).
Proof. unfold setattr. by intros [= <-]. Qed.

Lemma load_inv init other_cls other_id w loaded w' :
  load_fk_field_with init other_cls other_id w = (Return loaded, w') →
  ∃ cursor wb tup,
    execute (load_statement other_cls other_id) w = (Return cursor, wb)
    ∧ fetchone cursor = Some tup
    ∧ init tup wb = (Return loaded, w').
Proof.
  unfold load_fk_field_with. intros Hl.
  apply bind_inv_Return in Hl as (cursor & wb & Hex & Hl).
  destruct (fetchone cursor) as [tup|] eqn:Hf.
  - by exists cursor, wb, tup.
  - apply bind_inv_Return in Hl as (? & ? & _ & Hl). discriminate Hl.
Qed.

Lemma execute_heap sql w r w' : execute sql w = (r, w') → heap w' = heap w.
Proof. intros He. pose proof (execute_same_heap sql w) as Hh. by rewrite He in Hh. Qed.

Lemma filter_public_cons item items :
  List.filter public (item :: items)
  = if startswith_underscore (fst item) then List.filter public items
    else item :: List.filter public items.
Proof. cbn [List.filter]. unfold public at 1. by destruct (startswith_underscore _). Qed.

Lemma init_from_db_tuple_inv name ns tup w obj w' :
  init_from_db_tuple (Class name ns) tup w = (Return obj, w') →
  ∃ rowid vals idx' w2,
    tup = rowid :: vals
    ∧ obj = length (heap w)
    ∧ for_each ns (decode_step init_from_db_tuple obj vals) 0%nat
        (with_heap w (heap w ++ [fresh (Class name ns)])) = (Return idx', w2)
    ∧ w' = with_heap w2 (alter (set_dict "_id" rowid) obj (heap w2)).
Proof.
  cbn [init_from_db_tuple]. intros Hinit.
  apply bind_inv_Return in Hinit as (obj0 & wa & Hnew & Hinit).
  rewrite new_instance_eq in Hnew. injection Hnew as <- <-.
  destruct tup as [|rowid vals]; [discriminate Hinit |].
  apply bind_inv_Return in Hinit as (idx' & w2 & Hloop & Hinit).
  apply bind_inv_Return in Hinit as ([] & w3 & Hset%setattr_inv & [= <- <-]).
  by exists rowid, vals, idx', w2.
Qed.

Lemma decode_step_plain obj vals field_name field idx w v :
  startswith_underscore field_name = false →
  plain_field field = true →
  vals !! idx = Some v →
  decode_step init_from_db_tuple obj vals (field_name, field) idx w
  = (Return (S idx),
     with_heap w (alter (set_dict field_name (unconvert field v)) obj (heap w))).
Proof.
  intros Hu Hp Hv. unfold decode_step. rewrite Hu.
  destruct field; try discriminate Hp;
    unfold bind, lookup_method, vals_get, ret, setattr; by rewrite Hv.
Qed.

(** A row with a value for every field of a class without references is
    always decoded. *)
Lemma decode_loop_returns obj vals items :
  Forall (λ item, public item = true → plain_field (snd item) = true) items →
  ∀ idx w1,
    (idx + length (List.filter public items) ≤ length vals)%nat →
    ∃ idx' w2,
      for_each items (decode_step init_from_db_tuple obj vals) idx w1 = (Return idx', w2).
Proof.
  induction 1 as [|[field_name field] rest Hplain _ IH]; intros idx w1 Hlen.
  - by exists idx, w1.
  - rewrite for_each_cons. rewrite filter_public_cons in Hlen. cbn [fst] in Hlen.
    unfold public in Hplain. cbn [fst snd] in Hplain.
    destruct (startswith_underscore field_name) eqn:Hu.
    + unfold bind, decode_step. rewrite Hu. by apply IH.
    + cbn [length] in Hlen.
      destruct (lookup_lt_is_Some_2 vals idx) as [v Hv]; [lia |].
      unfold bind. rewrite (decode_step_plain _ _ _ _ _ _ v Hu (Hplain eq_refl) Hv).
      apply IH. lia.
Qed.

Lemma init_from_db_tuple_cons cls rowid vals w :
  init_from_db_tuple cls (rowid :: vals) w =
    (for_each (vars cls) (decode_step init_from_db_tuple (length (heap w)) vals) 0%nat ;;;
     setattr (length (heap w)) "_id" rowid ;;;
     ret (length (heap w))) (with_heap w (heap w ++ [fresh cls])).
Proof. by destruct cls. Qed.

(** ** Decoding is the binding of the fields in order *)

(** One turn of the loop of [init_from_db_tuple] on a schema field. *)
Lemma decode_step_public obj vals field_name field idx w idx1 wm :
  startswith_underscore field_name = false →
  decode_step init_from_db_tuple obj vals (field_name, field) idx w = (Return idx1, wm)
  ↔ idx1 = S idx
    ∧ ∃ v x, vals !! idx = Some v ∧ field_step obj (field_name, field) v w x wm.
Proof.
  intros Hu. unfold decode_step, field_step. rewrite Hu. cbn [fst snd]. split.
  - intros Hs. apply bind_inv_Return in Hs as ([] & w2 & Hs & [= <- <-]).
    split; [done |].
    destruct field as [| | | | |other_cls|]; cbv beta iota in Hs;
      try (match type of Hs with
           | (lookup_method ?f ;;; _) _ = _ =>
               apply bind_inv_Return in Hs as (? & ? & [Hf ->]%lookup_method_inv & Hs);
               try done;
               apply bind_inv_Return in Hs as (v & ? & [Hv ->]%vals_get_inv & Hs%setattr_inv);
               by exists v, (unconvert f v)
           end).
    apply bind_inv_Return in Hs as (other_id & ? & [Hv ->]%vals_get_inv & Hs).
    apply bind_inv_Return in Hs as (loaded & wc & Hload & Hs%setattr_inv).
    apply load_inv in Hload as (cursor & wb & tup & Hex & Hfetch & Hinit).
    exists other_id, (VObj loaded). split; [done |].
    by exists cursor, wb, tup, loaded, wc.
  - intros (-> & v & x & Hv & Hstep).
    destruct field as [| | | | |other_cls|]; try done;
      try (destruct Hstep as [-> ->];
           unfold bind, lookup_method, vals_get, ret, setattr; by rewrite Hv).
    destruct Hstep as (cursor & wb & tup & loaded & wc & Hex & Hfetch & Hinit & -> & ->).
    unfold load_statement in Hex.
    unfold bind, vals_get, load_fk_field_with. rewrite Hv. cbn [ret].
    unfold bind. by rewrite Hex, Hfetch, Hinit.
Qed.

(** The loop of [init_from_db_tuple], from any position on. *)
Lemma decode_loop_iff obj vals items :
  ∀ idx w idx' wz,
    for_each items (decode_step init_from_db_tuple obj vals) idx w = (Return idx', wz)
    ↔ idx' = (idx + length (List.filter public items))%nat
      ∧ ∃ trace,
          field_steps obj (List.filter public items) (drop idx vals) w trace
          ∧ wz = after_steps w trace.
Proof.
  induction items as [|[field_name field] items IH]; intros idx w idx' wz.
  - cbn. split.
    + intros [= <- <-]. split; [lia |]. by exists [].
    + intros (-> & trace & -> & ->). cbn. by rewrite Nat.add_0_r.
  - rewrite for_each_cons, filter_public_cons. cbn [fst].
    destruct (startswith_underscore field_name) eqn:Hu.
    + unfold bind, decode_step. rewrite Hu. cbn [ret]. apply IH.
    + cbn [length]. split.
      * intros Hloop. apply bind_inv_Return in Hloop as (idx1 & wm & Hstep & Hrest).
        apply (decode_step_public _ _ _ _ _ _ _ _ Hu) in Hstep
          as (-> & v & x & Hv & Hstep).
        apply IH in Hrest as (-> & trace & Hsteps & ->).
        split; [lia |]. exists ((x, wm) :: trace). by rewrite (drop_S _ _ _ Hv).
      * intros (-> & trace & Hsteps & ->).
        destruct (drop idx vals) as [|v rest] eqn:Hdrop; [done |].
        destruct trace as [|[x wm] trace]; [done |].
        destruct Hsteps as [Hstep Hsteps].
        assert (vals !! idx = Some v) as Hv.
        { rewrite <- (Nat.add_0_r idx), <- lookup_drop. by rewrite Hdrop. }
        assert (rest = drop (S idx) vals) as ->.
        { rewrite (drop_S _ _ _ Hv) in Hdrop. by injection Hdrop. }
        rewrite (bind_Return _ _ _ (S idx) wm).
        -- apply IH. split; [lia |]. by exists trace.
        -- apply (decode_step_public _ _ _ _ _ _ _ _ Hu). eauto.
Qed.

(** [init_from_db_tuple] returns exactly when, and what, the decoding of
    the specification gives. *)
Lemma init_from_db_tuple_decodes cls rowid vals w obj w' :
  init_from_db_tuple cls (rowid :: vals) w = (Return obj, w')
  ↔ decodes cls rowid vals w obj w'.
Proof.
  rewrite init_from_db_tuple_cons. unfold decodes, decodes_by. split.
  - intros Hinit. apply bind_inv_Return in Hinit as (idx' & wz & Hloop & Hinit).
    apply bind_inv_Return in Hinit as ([] & w3 & Hset%setattr_inv & [= <- <-]).
    apply decode_loop_iff in Hloop as (_ & trace & Hsteps & ->).
    rewrite drop_0, <- fieldsOf_eq in Hsteps. by exists trace.
  - intros (trace & -> & Hsteps & ->).
    rewrite (bind_Return _ _ _ (0 + length (fieldsOf cls))%nat
               (after_steps (with_heap w (heap w ++ [fresh cls])) trace)).
    + reflexivity.
    + apply decode_loop_iff. split; [by rewrite <- fieldsOf_eq |].
      exists trace. by rewrite drop_0, <- fieldsOf_eq.
Qed.

(** What one step leaves of the heap. *)
Lemma field_step_frame obj item v wa x wm oa :
  refers_ok decode_frame item →
  heap wa !! obj = Some oa →
  field_step obj item v wa x wm →
  (length (heap wa) ≤ length (heap wm))%nat
  ∧ (∀ a, (a < length (heap wa))%nat → a ≠ obj → heap wm !! a = heap wa !! a)
  ∧ heap wm !! obj = Some (set_dict (fst item) x oa)
  ∧ match snd item with
    | ForeignKeyField _ =>
        ∃ loaded, x = VObj loaded ∧ loaded ≠ obj ∧ (loaded < length (heap wm))%nat
    | _ => True
    end.
Proof.
  intros Hrefers Hobj. destruct item as [field_name field].
  unfold field_step, refers_ok in *. cbn [fst snd] in *.
  assert (∀ w0, heap w0 !! obj = Some oa →
            let w3 := with_heap w0 (alter (set_dict field_name x) obj (heap w0)) in
            length (heap w3) = length (heap w0)
            ∧ (∀ a, a ≠ obj → heap w3 !! a = heap w0 !! a)
            ∧ heap w3 !! obj = Some (set_dict field_name x oa)) as Hset.
  { intros w0 Hobj0. cbn. split; [apply length_alter |]. split.
    - intros a Ha. by apply list_lookup_alter_ne.
    - by rewrite list_lookup_alter_eq, Hobj0. }
  destruct field as [| | | | |other_cls|]; try done;
    try (intros [-> ->]; destruct (Hset wa Hobj) as (Hlen & Hne & Heq);
         split; [by rewrite Hlen |]; split; [intros a _ Ha; by apply Hne |];
         by split).
  intros (cursor & wb & tup & loaded & wc & Hex & Hfetch & Hinit & -> & ->).
  pose proof (execute_heap _ _ _ _ Hex) as Hwb.
  destruct (Hrefers tup wb loaded wc Hinit) as (Hloaded & Hgrow & Hkeep).
  rewrite Hwb in Hloaded, Hgrow, Hkeep.
  assert (obj < length (heap wa))%nat as Hlt by (by eapply lookup_lt_Some).
  assert (heap wc !! obj = Some oa) as Hobjc by (by rewrite Hkeep).
  destruct (Hset wc Hobjc) as (Hlen & Hne & Heq).
  split; [rewrite Hlen; lia |]. split.
  { intros a Ha Hneq. rewrite Hne by done. by apply Hkeep. }
  split; [exact Heq |].
  exists loaded. split; [done |]. split; [lia |]. rewrite Hlen. lia.
Qed.

(** What the steps leave of the heap. *)
Lemma field_steps_frame obj fields :
  Forall (refers_ok decode_frame) fields →
  ∀ vals wa trace oa,
    heap wa !! obj = Some oa →
    field_steps obj fields vals wa trace →
    (length (heap wa) ≤ length (heap (after_steps wa trace)))%nat
    ∧ (∀ a, (a < length (heap wa))%nat → a ≠ obj →
         heap (after_steps wa trace) !! a = heap wa !! a)
    ∧ ∃ oz,
        heap (after_steps wa trace) !! obj = Some oz
        ∧ inst_cls oz = inst_cls oa
        ∧ (∀ name, name ∉ fst <$> fields → inst_dict oz !! name = inst_dict oa !! name)
        ∧ (NoDup (fst <$> fields) →
           ∀ i item x wm, fields !! i = Some item → trace !! i = Some (x, wm) →
             bound_field (heap (after_steps wa trace)) obj oz item x wm).
Proof.
  induction 1 as [|item fields Hitem _ IH]; intros vals wa trace oa Hobj Hsteps.
  - cbn in Hsteps. subst trace. cbn. split; [done |]. split; [done |].
    exists oa. by repeat split.
  - cbn [field_steps] in Hsteps.
    destruct vals as [|v vals]; [done |]. destruct trace as [|[x wm] trace]; [done |].
    destruct Hsteps as [Hstep Hsteps].
    destruct (field_step_frame _ _ _ _ _ _ _ Hitem Hobj Hstep)
      as (Hlen & Hkeep & Hom & Hloaded).
    destruct (IH vals wm trace _ Hom Hsteps)
      as (Hlen2 & Hkeep2 & oz & Hoz & Hcls & Hdict & Hfields).
    cbn [after_steps]. split; [lia |]. split.
    { intros a Ha Hne. rewrite Hkeep2 by (done || lia). by apply Hkeep. }
    exists oz. split; [done |]. split; [done |]. split.
    { intros name Hname. rewrite fmap_cons in Hname.
      apply not_elem_of_cons in Hname as [Hn Hname].
      rewrite Hdict by done. cbn. by rewrite lookup_insert_ne. }
    rewrite fmap_cons. intros [Hnotin Hnodup]%NoDup_cons [|i] item' x' wm' Hi Ht.
    + injection Hi as <-. injection Ht as <- <-. split.
      * rewrite Hdict by done. cbn. by rewrite lookup_insert_eq.
      * destruct (snd item); try done.
        destruct Hloaded as (loaded & -> & Hne & Hlt).
        exists loaded. split; [done |]. split; [done |].
        split; [by apply lookup_lt_is_Some_2 |]. by apply Hkeep2.
    + by apply (Hfields Hnodup i).
Qed.

(** The step of every field is in the trace, and starts in the world
    the step before it left. *)
Lemma field_steps_lookup obj fields :
  ∀ vals wa trace i item,
    field_steps obj fields vals wa trace →
    fields !! i = Some item →
    ∃ v wa' x wm,
      vals !! i = Some v
      ∧ before_step wa trace i = Some wa'
      ∧ trace !! i = Some (x, wm)
      ∧ field_step obj item v wa' x wm.
Proof.
  induction fields as [|item0 fields IH]; intros vals wa trace i item Hsteps Hi; [done |].
  cbn [field_steps] in Hsteps.
  destruct vals as [|v vals]; [done |]. destruct trace as [|[x wm] trace]; [done |].
  destruct Hsteps as [Hstep Hsteps]. destruct i as [|i].
  - injection Hi as <-. by exists v, wa, x, wm.
  - destruct (IH _ _ _ _ _ Hsteps Hi) as (v' & wa' & x' & wm' & Hv & Hb & Ht & Hs).
    exists v', wa', x', wm'. split; [done |]. split; [|done].
    destruct i as [|i]; cbn in Hb |- *; [by injection Hb as <- | done].
Qed.

Lemma refers_ok_public (P : ModelCls → Prop) ns :
  Forall (refers_ok P) ns → Forall (refers_ok P) (List.filter public ns).
Proof.
  rewrite !Forall_forall. intros Hall item Hin. apply Hall.
  apply list_elem_of_In, filter_In in Hin as [Hin _]. by apply list_elem_of_In.
Qed.

Lemma decode_frame_all cls : decode_frame cls.
Proof.
  induction cls as [name ns IH] using ModelCls_induction.
  intros tup w obj w' Hinit.
  destruct tup as [|rowid vals]; [by apply init_from_db_tuple_inv in Hinit as (? & ? & ? & ? & ? & _) |].
  apply init_from_db_tuple_decodes in Hinit as (trace & -> & Hsteps & ->).
  set (wa := with_heap w (heap w ++ [fresh (Class name ns)])) in *.
  assert (heap wa !! length (heap w) = Some (fresh (Class name ns))) as Hobj.
  { cbn. by rewrite list_lookup_middle. }
  destruct (field_steps_frame _ _ (refers_ok_public _ _ IH) _ _ _ _ Hobj Hsteps)
    as (Hlen & Hkeep & _).
  assert (length (heap wa) = S (length (heap w))) as Hwa.
  { cbn. rewrite length_app. cbn. lia. }
  split; [done |]. split.
  - cbn. rewrite length_alter. lia.
  - intros a Ha. cbn. rewrite list_lookup_alter_ne by lia.
    rewrite Hkeep by lia. cbn. by rewrite lookup_app_l.
Qed.

(** A statement that was executed is the last of the log. *)
Lemma execute_log sql w c w' :
  execute sql w = (Return c, w') → executed w' = executed w ++ [sql].
Proof.
  unfold execute. cbn [bound_method_truth negb].
  destruct (DB_CONNECTION w) as [db|]; [|done].
  destruct (sqlite3_execute sql db) as [|[c' db']]; [done |]. by intros [= <- <-].
Qed.

(** What one step adds to the log: nothing for a plain field, and for a
    reference its selection, then what the decoding of the row adds. *)
Lemma field_step_log obj item v wa x wm :
  refers_ok decode_log item →
  field_step obj item v wa x wm →
  ∃ l, executed wm = executed wa ++ l
    ∧ Forall selection l
    ∧ ∀ other_cls, snd item = ForeignKeyField other_cls →
        ∃ l', l = load_statement other_cls v :: l'.
Proof.
  intros Hrefers. destruct item as [field_name field].
  unfold field_step, refers_ok in *. cbn [fst snd] in *.
  destruct field as [| | | | |other_cls|]; try done;
    try (intros [-> ->]; exists []; cbn; by rewrite app_nil_r).
  intros (cursor & wb & tup & loaded & wc & Hex & Hfetch & Hinit & -> & ->).
  destruct (Hrefers tup wb loaded wc Hinit) as (l & Hl & Hsel).
  exists (load_statement other_cls v :: l). cbn [executed with_heap].
  rewrite Hl, (execute_log _ _ _ _ Hex), <- app_assoc. split; [done |]. split.
  - constructor; [by exists other_cls, v | done].
  - intros c [= <-]. by exists l.
Qed.

Lemma field_steps_log obj fields :
  Forall (refers_ok decode_log) fields →
  ∀ vals wa trace,
    field_steps obj fields vals wa trace →
    ∃ l, executed (after_steps wa trace) = executed wa ++ l
      ∧ Forall selection l
      ∧ ∀ i field_name other_cls v,
          fields !! i = Some (field_name, ForeignKeyField other_cls) →
          vals !! i = Some v →
          load_statement other_cls v ∈ l.
Proof.
  induction 1 as [|item fields Hitem _ IH]; intros vals wa trace Hsteps.
  - cbn in Hsteps. subst trace. exists []. cbn. by rewrite app_nil_r.
  - cbn [field_steps] in Hsteps.
    destruct vals as [|v vals]; [done |]. destruct trace as [|[x wm] trace]; [done |].
    destruct Hsteps as [Hstep Hsteps].
    destruct (field_step_log _ _ _ _ _ _ Hitem Hstep) as (l1 & Hl1 & Hsel1 & Hfirst).
    destruct (IH vals wm trace Hsteps) as (l2 & Hl2 & Hsel2 & Hrest).
    exists (l1 ++ l2). cbn [after_steps]. rewrite Hl2, Hl1, <- app_assoc.
    split; [done |]. split; [by apply Forall_app |].
    intros [|i] field_name other_cls v' Hi Hv; apply elem_of_app.
    + injection Hi as ->. injection Hv as <-. left.
      destruct (Hfirst other_cls eq_refl) as [l' ->]. by left.
    + right. by apply (Hrest i field_name).
Qed.

Lemma decode_log_all cls : decode_log cls.
Proof.
  induction cls as [name ns IH] using ModelCls_induction.
  intros tup w obj w' Hinit.
  destruct tup as [|rowid vals];
    [by apply init_from_db_tuple_inv in Hinit as (? & ? & ? & ? & ? & _) |].
  apply init_from_db_tuple_decodes in Hinit as (trace & -> & Hsteps & ->).
  destruct (field_steps_log _ _ (refers_ok_public _ _ IH) _ _ _ Hsteps)
    as (l & Hl & Hsel & _).
  exists l. by split.
Qed.

(** What a decoding adds to the log. *)
Lemma decodes_by_log trace cls rowid vals w obj w' :
  decodes_by trace cls rowid vals w obj w' →
  ∃ l, executed w' = executed w ++ l
    ∧ Forall selection l
    ∧ ∀ i field_name other_cls v,
        fieldsOf cls !! i = Some (field_name, ForeignKeyField other_cls) →
        vals !! i = Some v →
        load_statement other_cls v ∈ l.
Proof.
  intros (-> & Hsteps & ->).
  assert (Forall (refers_ok decode_log) (fieldsOf cls)) as Hrefers.
  { apply Forall_forall. intros [field_name field] _. unfold refers_ok. cbn [snd].
    destruct field; try done. apply decode_log_all. }
  destruct (field_steps_log _ _ Hrefers _ _ _ Hsteps) as (l & Hl & Hsel & Hin).
  exists l. by split.
Qed.

(** What a decoding leaves in the heap. *)
Lemma decodes_by_spec trace cls rowid vals w obj w' :
  decodes_by trace cls rowid vals w obj w' →
  (∀ a, (a < length (heap w))%nat → heap w' !! a = heap w !! a)
  ∧ ∃ o,
      heap w' !! obj = Some o
      ∧ inst_cls o = cls
      ∧ inst_dict o !! "_id" = Some rowid
      ∧ (NoDup (fst <$> fieldsOf cls) →
         ∀ i item, fieldsOf cls !! i = Some item →
           ∃ v wa x wm,
             vals !! i = Some v
             ∧ before_step (with_heap w (heap w ++ [fresh cls])) trace i = Some wa
             ∧ trace !! i = Some (x, wm)
             ∧ field_step obj item v wa x wm
             ∧ bound_field (heap w') obj o item x wm).
Proof.
  intros (-> & Hsteps & ->).
  set (wa := with_heap w (heap w ++ [fresh cls])) in *.
  assert (heap wa !! length (heap w) = Some (fresh cls)) as Hobj.
  { cbn. by rewrite list_lookup_middle. }
  assert (Forall (refers_ok decode_frame) (fieldsOf cls)) as Hall.
  { apply Forall_forall. intros [n f] _. unfold refers_ok. cbn [snd].
    destruct f; try done. apply decode_frame_all. }
  destruct (field_steps_frame _ _ Hall _ _ _ _ Hobj Hsteps)
    as (Hlen & Hkeep & oz & Hoz & Hcls & Hdict & Hfields).
  assert (length (heap wa) = S (length (heap w))) as Hwa.
  { cbn. rewrite length_app. cbn. lia. }
  split.
  { intros a Ha. cbn. rewrite list_lookup_alter_ne by lia.
    rewrite Hkeep by lia. cbn. by rewrite lookup_app_l. }
  exists (set_dict "_id" rowid oz).
  split; [cbn; by rewrite list_lookup_alter_eq, Hoz |].
  split; [cbn; by rewrite Hcls |]. split; [cbn; by rewrite lookup_insert_eq |].
  intros Hnodup i item Hi.
  destruct (field_steps_lookup _ _ _ _ _ _ _ Hsteps Hi)
    as (v & wa' & x & wm & Hv & Hb & Ht & Hs).
  exists v, wa', x, wm. split; [done |]. split; [done |]. split; [done |].
  split; [done |].
  destruct (Hfields Hnodup i item x wm Hi Ht) as [Hx Hloaded]. split.
  - cbn. rewrite lookup_insert_ne; [done |]. intros Heq.
    apply list_elem_of_lookup_2, list_elem_of_In, filter_In in Hi as [_ Hpub].
    unfold public in Hpub. by rewrite <- Heq in Hpub.
  - destruct (snd item); try done.
    destruct Hloaded as (loaded & -> & Hne & Hsome & Hsame).
    exists loaded. split; [done |]. split; [done |]. split; [done |].
    cbn. by rewrite list_lookup_alter_ne.
Qed.

(** What [init_from_db_tuple] returns, when it returns. *)
Lemma decode_spec cls tup w obj w' :
  init_from_db_tuple cls tup w = (Return obj, w') →
  ∃ rowid vals trace o,
    tup = rowid :: vals
    ∧ obj = length (heap w)
    ∧ decodes_by trace cls rowid vals w obj w'
    ∧ (∀ a, (a < length (heap w))%nat → heap w' !! a = heap w !! a)
    ∧ heap w' !! obj = Some o
    ∧ inst_cls o = cls
    ∧ inst_dict o !! "_id" = Some rowid
    ∧ (NoDup (fst <$> fieldsOf cls) →
       ∀ i item, fieldsOf cls !! i = Some item →
         ∃ v wa x wm,
           vals !! i = Some v
           ∧ before_step (with_heap w (heap w ++ [fresh cls])) trace i = Some wa
           ∧ trace !! i = Some (x, wm)
           ∧ field_step obj item v wa x wm
           ∧ bound_field (heap w') obj o item x wm).
Proof.
  intros Hinit.
  destruct tup as [|rowid vals].
  { destruct cls. by apply init_from_db_tuple_inv in Hinit as (? & ? & ? & ? & ? & _). }
  apply init_from_db_tuple_decodes in Hinit as (trace & Hdec).
  destruct (decodes_by_spec _ _ _ _ _ _ _ Hdec) as (Hframe & o & Ho & Hcls & Hid & Hfields).
  exists rowid, vals, trace, o. split; [done |]. split; [apply Hdec |].
  split; [exact Hdec |]. split; [exact Hframe |]. split; [exact Ho |].
  split; [exact Hcls |]. split; [exact Hid | exact Hfields].
Qed.

(** What a plain field is bound to. *)
Lemma field_step_plain obj field_name field v wa x wm :
  plain_field field = true →
  field_step obj (field_name, field) v wa x wm → x = unconvert field v.
Proof. unfold field_step. cbn [snd]. by destruct field; try done; intros _ [-> _]. Qed.

(** C7: [init_from_db_tuple] on a row [(identity, value1, value2, ...)]
    returns exactly when, and what, the decoding of the specification
    gives: the instance is made at the next address, the schema fields
    are bound in order, each in the world the step before left, a plain
    field to the unconverted value at its position, a reference by one
    [SELECT rowid, * FROM <Target> WHERE rowid=<value> LIMIT 1] executed
    in that world of this run and the decoding of the row it yields in
    the world after it, and [_id] is bound to the leading element.  At
    the end the instance has the class, the leading element as [_id] and
    every field bound to the value of its step, and an instance loaded
    for a reference is another one, as its decoding left it.  The log of
    the run has grown by selections only, the selection of every
    reference among them.  A row with enough values is always decoded
    when the class has no reference. *)
Theorem decode_row cls rowid vals w :
  (∀ obj w',
     init_from_db_tuple cls (rowid :: vals) w = (Return obj, w')
     ↔ decodes cls rowid vals w obj w')
  ∧ (NoDup (fst <$> fieldsOf cls) →
     ∀ trace obj w',
       decodes_by trace cls rowid vals w obj w' →
       ∃ o, heap w' !! obj = Some o
         ∧ inst_cls o = cls
         ∧ inst_dict o !! "_id" = Some rowid
         ∧ ∀ i item,
             fieldsOf cls !! i = Some item →
             ∃ v wa x wm,
               vals !! i = Some v
               ∧ before_step (with_heap w (heap w ++ [fresh cls])) trace i = Some wa
               ∧ trace !! i = Some (x, wm)
               ∧ field_step obj item v wa x wm
               ∧ bound_field (heap w') obj o item x wm)
  ∧ (∀ trace obj w',
       decodes_by trace cls rowid vals w obj w' →
       ∃ l, executed w' = executed w ++ l
         ∧ Forall selection l
         ∧ ∀ i field_name other_cls v,
             fieldsOf cls !! i = Some (field_name, ForeignKeyField other_cls) →
             vals !! i = Some v →
             load_statement other_cls v ∈ l)
  ∧ (Forall (λ item, plain_field (snd item) = true) (fieldsOf cls) →
     (length (fieldsOf cls) ≤ length vals)%nat →
     ∃ obj w', init_from_db_tuple cls (rowid :: vals) w = (Return obj, w')).
Proof.
  split; [|split; [|split]].
  - intros obj w'. apply init_from_db_tuple_decodes.
  - intros Hnodup trace obj w' Hdec.
    destruct (decodes_by_spec _ _ _ _ _ _ _ Hdec) as (_ & o & Ho & Hcls & Hid & Hfields).
    exists o. repeat split; try done. by apply Hfields.
  - intros trace obj w'. apply decodes_by_log.
  - intros Hplain Hlen. rewrite init_from_db_tuple_cons. unfold bind at 1.
    destruct (decode_loop_returns (length (heap w)) vals (vars cls)) with
      (idx := 0%nat) (w1 := with_heap w (heap w ++ [fresh cls]))
      as (idx' & w2 & ->).
    + apply Forall_forall. intros item Hin Hpub.
      rewrite Forall_forall in Hplain. apply Hplain.
      apply list_elem_of_In, filter_In. split; [by apply list_elem_of_In | done].
    + exact Hlen.
    + eauto.
Qed.

(** The first loop of [_create_table], from any position on. *)
Lemma declare_loop_spec items :
  ∀ columns w columns' w',
    for_each items (declare_step _create_table) columns w = (Return columns', w') →
    ∃ decls,
      columns' = columns ++ decls
      ∧ Forall2 (λ item d, column_declaration (snd item) (fst item) = Return d)
          (List.filter public items) decls.
Proof.
  induction items as [|[field_name field] rest IH]; intros columns w columns' w' Hloop.
  - injection Hloop as <- <-. exists []. by rewrite app_nil_r.
  - rewrite for_each_cons in Hloop.
    apply bind_inv_Return in Hloop as (columns1 & w1 & Hstep & Hrest).
    unfold declare_step in Hstep.
    apply bind_inv_Return in Hstep as ([] & w0 & _ & Hstep).
    rewrite filter_public_cons. cbn [fst].
    destruct (startswith_underscore field_name).
    + injection Hstep as <- <-. by apply (IH _ _ _ _ Hrest).
    + apply bind_inv_Return in Hstep as (c & ? & Hc & [= <- <-]).
      unfold lift in Hc. injection Hc as Hc <-.
      destruct (IH _ _ _ _ Hrest) as (decls & -> & Hall).
      exists (c :: decls). split; [by rewrite <- app_assoc |].
      by constructor.
Qed.

Lemma constraints_loop_spec cls columns w columns' w' :
  constraints_loop cls columns w = (Return columns', w') →
  ∃ constraints, columns' = columns ++ constraints.
Proof.
  unfold constraints_loop. generalize (vars cls). intros items. revert columns w.
  induction items as [|[field_name field] rest IH]; intros columns w Hloop.
  - injection Hloop as <- <-. exists []. by rewrite app_nil_r.
  - rewrite for_each_cons in Hloop.
    apply bind_inv_Return in Hloop as (columns1 & w1 & Hstep & Hrest).
    destruct (IH _ _ Hrest) as (constraints & ->).
    destruct (startswith_underscore field_name).
    + injection Hstep as <- <-. eauto.
    + apply bind_inv_Return in Hstep as ([c|] & ? & _ & [= <- <-]).
      * exists (c :: constraints). by rewrite <- app_assoc.
      * eauto.
Qed.

(** The statement [_create_table] executes last. *)
Lemma create_table_spec cls w w' :
  _create_table cls w = (Return tt, w') →
  ∃ decls constraints,
    last (executed w') = Some (create_statement (_table_name cls) (decls ++ constraints))
    ∧ Forall2 (λ item d, column_declaration (snd item) (fst item) = Return d)
        (fieldsOf cls) decls.
Proof.
  destruct cls as [name ns]. cbn [_create_table]. intros Hc.
  apply bind_inv_Return in Hc as (columns & w1 & Hloop & Hc).
  apply bind_inv_Return in Hc as (columns' & w2 & Hcons & Hc).
  apply bind_inv_Return in Hc as (c & w3 & Hex & [= <-]).
  apply declare_loop_spec in Hloop as (decls & -> & Hdecls).
  apply constraints_loop_spec in Hcons as (constraints & ->).
  exists decls, constraints. split; [|done].
  rewrite (execute_log _ _ _ _ Hex), last_snoc. f_equal.
  rewrite append_columns_all. unfold create_statement. cbn [_table_name].
  by rewrite !string_app_assoc.
Qed.

(** The statement [save] executes last for an instance without identity. *)
Lemma save_insert_spec self o w w' :
  heap w !! self = Some o →
  inst_dict o !! "_id" = Some VNone →
  save self w = (Return tt, w') →
  ∃ values,
    last (executed w') = Some (insert_statement (_table_name (inst_cls o)) values)
    ∧ outcome_map (field_value (heap w) self) (fieldsOf (inst_cls o)) = Return values.
Proof.
  intros Hself Hid Hsave.
  destruct (_ensure_table_exists (inst_cls o) w) as [[[]|e] w1] eqn:Hens.
  2:{ unfold save in Hsave. unfold bind at 1 in Hsave.
      unfold type_of, reading at 1, type_in in Hsave. rewrite Hself in Hsave.
      unfold bind at 1 in Hsave. by rewrite Hens in Hsave. }
  pose proof (ensure_Return_heap _ _ _ Hens) as Hheap.
  destruct (outcome_map (field_value (heap w) self) (fieldsOf (inst_cls o)))
    as [values|e] eqn:Hvals.
  2:{ unfold save in Hsave. unfold bind at 1 in Hsave.
      unfold type_of, reading at 1, type_in in Hsave. rewrite Hself in Hsave.
      unfold bind at 1 in Hsave. rewrite Hens in Hsave.
      unfold bind at 1 in Hsave. unfold getattr, reading at 1, getattr_in in Hsave.
      rewrite Hheap, Hself, Hid in Hsave.
      unfold bind at 1 in Hsave.
      by rewrite insert_columns_closed, Hheap, Hvals in Hsave. }
  rewrite (save_insert_closed _ _ _ _ _ Hself Hid Hens Hvals) in Hsave.
  apply bind_inv_Return in Hsave as (cursor & w2 & Hex & Hset%setattr_inv).
  exists values. split; [|done]. subst w'. cbn [executed with_heap].
  by rewrite (execute_log _ _ _ _ Hex), last_snoc.
Qed.

(** C1: one enumeration, [fieldsOf], lays out the table, the inserted
    values and the decoded row.  The field at position [i] of the schema
    is declared by item [i] of the [CREATE TABLE] statement; with the
    table in place and the fields convertible, [save] of a new instance
    is the [INSERT] whose value [i] is the converted value of that field;
    and decoding binds the field from the value at position [i] of the
    row, after the identity, which for a class of plain fields with a
    value for each of them always gives the instance. *)
Theorem field_order cls :
  NoDup (fst <$> fieldsOf cls) →
  (∀ w w',
     _create_table cls w = (Return tt, w') →
     ∃ items,
       last (executed w') = Some (create_statement (_table_name cls) items)
       ∧ ∀ i field_name field,
           fieldsOf cls !! i = Some (field_name, field) →
           ∃ type_name, sqlite_type_name field = Return type_name
             ∧ items !! i = Some (field_name +:+ " " +:+ type_name))
  ∧ (∀ self o w w1 values,
       heap w !! self = Some o → inst_cls o = cls →
       inst_dict o !! "_id" = Some VNone →
       _ensure_table_exists cls w = (Return tt, w1) →
       outcome_map (field_value (heap w) self) (fieldsOf cls) = Return values →
       save self w =
         (cursor <- execute (insert_statement (_table_name cls) values) ;;
          setattr self "_id" (lastrowid cursor)) w1
       ∧ length values = length (fieldsOf cls)
       ∧ ∀ i field_name field,
           fieldsOf cls !! i = Some (field_name, field) →
           ∃ v c, inst_dict o !! field_name = Some v
             ∧ convert_in (heap w) field v = Return c
             ∧ values !! i = Some c)
  ∧ (∀ self o w w',
       heap w !! self = Some o → inst_cls o = cls →
       inst_dict o !! "_id" = Some VNone →
       save self w = (Return tt, w') →
       ∃ values,
         last (executed w') = Some (insert_statement (_table_name cls) values)
         ∧ length values = length (fieldsOf cls)
         ∧ ∀ i field_name field,
             fieldsOf cls !! i = Some (field_name, field) →
             ∃ v c, inst_dict o !! field_name = Some v
               ∧ convert_in (heap w) field v = Return c
               ∧ values !! i = Some c)
  ∧ (∀ rowid vals w obj w',
       init_from_db_tuple cls (rowid :: vals) w = (Return obj, w') →
       ∃ trace o,
         decodes_by trace cls rowid vals w obj w'
         ∧ heap w' !! obj = Some o
         ∧ ∀ i item,
             fieldsOf cls !! i = Some item →
             ∃ v wa x wm,
               vals !! i = Some v
               ∧ before_step (with_heap w (heap w ++ [fresh cls])) trace i = Some wa
               ∧ trace !! i = Some (x, wm)
               ∧ field_step obj item v wa x wm
               ∧ bound_field (heap w') obj o item x wm)
  ∧ (∀ rowid vals w,
       Forall (λ item, plain_field (snd item) = true) (fieldsOf cls) →
       (length (fieldsOf cls) ≤ length vals)%nat →
       ∃ obj w' o,
         init_from_db_tuple cls (rowid :: vals) w = (Return obj, w')
         ∧ heap w' !! obj = Some o
         ∧ ∀ i field_name field,
             fieldsOf cls !! i = Some (field_name, field) →
             ∃ v, vals !! i = Some v
               ∧ inst_dict o !! field_name = Some (unconvert field v)).
Proof.
  intros Hnodup. split; [|split; [|split; [|split]]].
  - intros w w' Hc.
    destruct (create_table_spec _ _ _ Hc) as (decls & constraints & Hlast & Hdecls).
    exists (decls ++ constraints). split; [done |].
    intros i field_name field Hi.
    destruct (Forall2_lookup_l _ _ _ _ _ Hdecls Hi) as (d & Hd & Hcol).
    unfold column_declaration in Hcol. cbn [fst snd] in Hcol.
    destruct (sqlite_type_name field) as [type_name|]; [|done].
    injection Hcol as <-. exists type_name. split; [done |].
    by apply lookup_app_l_Some.
  - intros self o w w1 values Hself <- Hid Hens Hvals.
    split; [by apply save_insert_closed |].
    split; [by eapply outcome_map_length |].
    intros i field_name field Hi.
    destruct (outcome_map_lookup _ _ _ _ _ Hvals Hi) as (c & Hc & Hci).
    destruct (field_value_lookup _ _ _ _ _ _ Hself Hc) as (v & Hv & Hconv).
    by exists v, c.
  - intros self o w w' Hself <- Hid Hsave.
    destruct (save_insert_spec _ _ _ _ Hself Hid Hsave) as (values & Hlast & Hvals).
    exists values. split; [done |]. split; [by eapply outcome_map_length |].
    intros i field_name field Hi.
    destruct (outcome_map_lookup _ _ _ _ _ Hvals Hi) as (c & Hc & Hci).
    destruct (field_value_lookup _ _ _ _ _ _ Hself Hc) as (v & Hv & Hconv).
    by exists v, c.
  - intros rowid vals w obj w' Hinit.
    destruct (decode_spec _ _ _ _ _ Hinit)
      as (rowid' & vals' & trace & o & [= <- <-] & _ & Hdec & _ & Ho & _ & _ & Hfields).
    exists trace, o. split; [done |]. split; [done |]. by apply Hfields.
  - intros rowid vals w Hplain Hlen.
    assert (∃ obj w', init_from_db_tuple cls (rowid :: vals) w = (Return obj, w'))
      as (obj & w' & Hinit).
    { rewrite init_from_db_tuple_cons. unfold bind at 1.
      destruct (decode_loop_returns (length (heap w)) vals (vars cls)) with
        (idx := 0%nat) (w1 := with_heap w (heap w ++ [fresh cls]))
        as (idx' & w2 & ->); [| exact Hlen | eauto].
      apply Forall_forall. intros item Hin Hpub.
      rewrite Forall_forall in Hplain. apply Hplain.
      apply list_elem_of_In, filter_In. split; [by apply list_elem_of_In | done]. }
    destruct (decode_spec _ _ _ _ _ Hinit)
      as (rowid' & vals' & trace & o & [= <- <-] & _ & _ & _ & Ho & _ & _ & Hfields).
    exists obj, w', o. split; [done |]. split; [done |].
    intros i field_name field Hi.
    destruct (Hfields Hnodup i _ Hi) as (v & wa & x & wm & Hv & _ & _ & Hstep & Hx & _).
    exists v. split; [done |].
    rewrite Forall_forall in Hplain.
    rewrite (field_step_plain _ _ _ _ _ _ _
               (Hplain _ (list_elem_of_lookup_2 _ _ _ Hi)) Hstep) in Hx.
    exact Hx.
Qed.

End Decoding.

(** ** Quoted literals *)

Module LiteralFacts.

Import MiniSqlite.

Lemma lex_from_cons m c s :
  lex_from m (String c s) =
    match step m c with
    | Some (ts, m') =>
        match lex_from m' s with
        | Some r => Some (ts ++ r)
        | None => None
        end
    | None => None
    end.
Proof. reflexivity. Qed.

(** A body without quotes is read back as it is. *)
Lemma lex_body_clean v a :
  has_quote v = false →
  lex_from (InStr a) (v +:+ "'") = Some [TStr (a +:+ v)].
Proof.
  revert a. induction v as [|c v IH]; intros a Hq.
  - by rewrite string_app_nil_r.
  - cbn [has_quote] in Hq. apply orb_false_elim in Hq as [Hc Hq].
    rewrite string_app_cons, lex_from_cons. cbn [step]. rewrite Hc.
    rewrite IH by done. unfold snoc. by rewrite string_app_assoc.
Qed.

Lemma after_head t c ts m :
  after t c = Some (ts, m) → ∃ ts', ts = t :: ts'.
Proof. unfold after. destruct (start c) as [[ts' m']|]; [|done]. intros [= <- <-]. eauto. Qed.

(** Inside a literal, every quote of the text costs a character of the
    value. *)
Lemma lex_body_length s :
  (∀ a x, lex_from (InStr a) s = Some [TStr x] →
     (String.length x + 1 ≤ String.length a + String.length s)%nat
     ∧ (2 ≤ quotes s →
        String.length x + 2 ≤ String.length a + String.length s)%nat)
  ∧ (∀ a x, lex_from (Quote a) s = Some [TStr x] →
     (String.length x ≤ String.length a + String.length s)%nat
     ∧ (1 ≤ quotes s →
        String.length x + 1 ≤ String.length a + String.length s)%nat).
Proof.
  induction s as [|c s [IHstr IHquote]].
  - split; intros a x Hl; cbn in Hl; [discriminate Hl |].
    injection Hl as <-. cbn. lia.
  - split; intros a x; rewrite lex_from_cons; cbn [step quotes String.length].
    + destruct (Ascii.eqb c "'") eqn:Hc.
      * destruct (lex_from (Quote a) s) as [r|] eqn:Hr; [|done].
        intros [= ->]. destruct (IHquote a x Hr) as [H1 H2]. lia.
      * destruct (lex_from (InStr (snoc a c)) s) as [r|] eqn:Hr; [|done].
        intros [= ->]. destruct (IHstr _ x Hr) as [H1 H2].
        unfold snoc in H1, H2. rewrite string_length_app in H1, H2.
        cbn [String.length] in H1, H2. lia.
    + destruct (Ascii.eqb c "'") eqn:Hc.
      * destruct (lex_from (InStr (snoc a "'")) s) as [r|] eqn:Hr; [|done].
        intros [= ->]. destruct (IHstr _ x Hr) as [H1 H2].
        unfold snoc in H1, H2. rewrite string_length_app in H1, H2.
        cbn [String.length] in H1, H2. lia.
      * destruct (after (TStr a) c) as [[ts m']|] eqn:Ha; [|done].
        destruct (after_head _ _ _ _ Ha) as [ts' ->].
        destruct (lex_from m' s) as [r|]; [|done].
        intros [= <- _]. lia.
Qed.

Lemma quotes_app a b : quotes (a +:+ b) = (quotes a + quotes b)%nat.
Proof.
  induction a as [|c a IH]; [done |].
  rewrite string_app_cons. cbn [quotes]. rewrite IH. lia.
Qed.

Lemma has_quote_quotes v : has_quote v = true → (1 ≤ quotes v)%nat.
Proof.
  induction v as [|c v IH]; [done |]. cbn [has_quote quotes].
  destruct (Ascii.eqb c "'"); [lia |]. cbn. intros Hq. specialize (IH Hq). lia.
Qed.

Lemma lex_quoted v : lex ("'" +:+ v +:+ "'") = lex_from (InStr "") (v +:+ "'").
Proof.
  unfold lex. rewrite string_app_cons, lex_from_cons.
  change (step Start "'") with (Some (@nil Token, InStr "")).
  change ("" +:+ v +:+ "'") with (v +:+ "'"). cbv beta iota.
  by destruct (lex_from (InStr "") (v +:+ "'")).
Qed.

(** The text [convert] makes for a string is the literal of that string
    exactly when the string has no quote. *)
Lemma quoted_literal_iff v :
  sql_literal_value ("'" +:+ v +:+ "'") = Some v ↔ has_quote v = false.
Proof.
  unfold sql_literal_value. rewrite lex_quoted. split.
  - intros Hlit. destruct (has_quote v) eqn:Hq; [exfalso | done].
    destruct (lex_from (InStr "") (v +:+ "'")) as [[|[] []]|] eqn:Hlex;
      try discriminate Hlit.
    injection Hlit as ->.
    destruct (lex_body_length (v +:+ "'")) as [Hlen _].
    destruct (Hlen "" v Hlex) as [_ H2].
    rewrite quotes_app, string_length_app in H2. cbn in H2.
    apply has_quote_quotes in Hq. lia.
  - intros Hq. by rewrite lex_body_clean.
Qed.

End LiteralFacts.

Section Literals.

Context `{External}.

(** C3, amended: for a string [v] the conversion of a [StringField] is
    [v] between two single quotes, with the quotes inside [v] copied as
    they are; that text is the literal of [v] exactly when [v] contains no
    single quote. *)
Theorem string_conversion (v : string) (w : World) :
  convert StringField (VStr v) w = (Return (VStr ("'" +:+ v +:+ "'")), w)
  ∧ (MiniSqlite.sql_literal_value ("'" +:+ v +:+ "'") = Some v
     ↔ MiniSqlite.has_quote v = false).
Proof. split; [reflexivity | apply LiteralFacts.quoted_literal_iff]. Qed.

End Literals.

(** ** The engine model: what a statement may change *)

Module EngineFacts.

Import MiniSqlite.

(** *** Names *)

Lemma same_name_eq a b : same_name a b = true ↔ lower a = lower b.
Proof. apply String.eqb_eq. Qed.

Lemma same_name_refl a : same_name a a = true.
Proof. by apply same_name_eq. Qed.

Lemma same_name_sym a b : same_name a b = same_name b a.
Proof. unfold same_name. apply String.eqb_sym. Qed.

Lemma same_name_l a b c : same_name a b = true → same_name a c = same_name b c.
Proof. intros Hab%same_name_eq. unfold same_name. by rewrite Hab. Qed.

Lemma same_name_r a b c : same_name b c = true → same_name a b = same_name a c.
Proof. intros Hbc%same_name_eq. unfold same_name. by rewrite Hbc. Qed.

(** *** Tables *)

Lemma find_table_snoc db tb t :
  find_table (db ++ [tb]) t =
    match find_table db t with
    | Some x => Some x
    | None => if same_name (tbl_name tb) t then Some tb else None
    end.
Proof.
  induction db as [|tb' db IH]; [done |]. cbn [app find_table].
  by destruct (same_name (tbl_name tb') t).
Qed.

Lemma find_table_same db t t' :
  same_name t t' = true → find_table db t = find_table db t'.
Proof.
  intros Htt. induction db as [|tb db IH]; [done |]. cbn [find_table].
  by rewrite (same_name_r _ _ _ Htt), IH.
Qed.

Lemma find_table_name db t tb :
  find_table db t = Some tb → same_name (tbl_name tb) t = true.
Proof.
  induction db as [|tb' db IH]; [done |]. cbn [find_table].
  destruct (same_name (tbl_name tb') t) eqn:Hn; [|exact IH]. by intros [= <-].
Qed.

Lemma find_put_ne db tb t :
  same_name (tbl_name tb) t = false → find_table (put_table db tb) t = find_table db t.
Proof.
  intros Hne. induction db as [|tb' db IH]; [done |]. cbn [put_table find_table].
  destruct (same_name (tbl_name tb') (tbl_name tb)) eqn:Hn; cbn [find_table].
  - by rewrite Hne, (same_name_l _ _ _ Hn), Hne.
  - by rewrite IH.
Qed.

Lemma find_put_eq db tb old t :
  find_table db t = Some old →
  same_name (tbl_name tb) t = true →
  find_table (put_table db tb) t = Some tb.
Proof.
  intros Hold Htb. induction db as [|tb' db IH]; [done |].
  cbn [put_table find_table] in Hold |- *.
  rewrite (same_name_r _ _ _ Htb).
  destruct (same_name (tbl_name tb') t) eqn:Hn; cbn [find_table].
  - by rewrite Htb.
  - rewrite Hn. by apply IH.
Qed.

(** *** Rows *)

Lemma find_mapM_frame (f : Z * list PyVal → option (Z * list PyVal)) rows rows' r :
  mapM f rows = Some rows' →
  (∀ row row', f row = Some row' → fst row' = fst row) →
  (∀ row, fst row = r → f row = Some row) →
  List.find (λ row, fst row =? r) rows' = List.find (λ row, fst row =? r) rows.
Proof.
  intros Hmap%mapM_Some_1 Hfst Hsame.
  induction Hmap as [|row row' rows rows' Hrow _ IH]; [done |].
  cbn [List.find]. rewrite (Hfst _ _ Hrow).
  destruct (fst row =? r) eqn:Hr; [|exact IH].
  apply Z.eqb_eq in Hr. rewrite (Hsame _ Hr) in Hrow. by injection Hrow as <-.
Qed.

Lemma column_index_rowid cols :
  Forall (λ c, is_rowid c = false) cols → column_index cols "rowid" = None.
Proof.
  induction 1 as [|c cols Hc _ IH]; [done |]. cbn [column_index].
  unfold is_rowid in Hc. apply orb_false_elim in Hc as [Hc _].
  apply orb_false_elim in Hc as [Hc _]. by rewrite Hc, IH.
Qed.

Lemma column_value_rowid cols row :
  Forall (λ c, is_rowid c = false) cols → column_value cols row "rowid" = VInt (fst row).
Proof. intros Hcols. unfold column_value. by rewrite (column_index_rowid _ Hcols). Qed.

Lemma assign_None cols old assigns : foldl (assign cols old) None assigns = None.
Proof. by induction assigns. Qed.

Lemma assign_keeps_id cols old assigns :
  Forall (λ a, is_rowid (fst a) = false) assigns →
  ∀ new row', foldl (assign cols old) (Some new) assigns = Some row' →
    fst row' = fst new.
Proof.
  induction 1 as [|a assigns Ha _ IH]; intros [id vals] row'; cbn [foldl].
  - by intros [= <-].
  - unfold assign at 2. cbn [mbind option_bind].
    destruct (column_index cols (fst a)).
    + intros Hr. by apply IH in Hr.
    + rewrite Ha. intros Hr. by apply IH in Hr.
Qed.

(** A selection changes nothing. *)
Lemma run_select_same s db c db' :
  (∃ n, s = SProbe n) ∨ (∃ t conds limit, s = SSelect t conds limit) →
  run s db = inr (c, db') → db' = db.
Proof.
  intros [[n ->] | (t & conds & limit & ->)]; cbn [run].
  - by intros [= _ <-].
  - destruct (find_table db t); [|done].
    destruct (known_conds _ _); [|done]. by intros [= _ <-].
Qed.

(** A new table changes no row, and no table that was there. *)
Lemma run_create_rows t cols db c db' :
  run (SCreate t cols) db = inr (c, db') →
  (∀ t' r, row_at db' t' r = row_at db t' r)
  ∧ (∀ t' tb, find_table db t' = Some tb → find_table db' t' = Some tb).
Proof.
  cbn [run]. destruct (find_table db t) eqn:Ht; [done |].
  destruct cols; [done |]. destruct (bool_decide _); [|done].
  intros [= _ <-]. split.
  - intros t' r. unfold row_at.
    rewrite find_table_snoc. destruct (find_table db t') eqn:Ht'; [done |].
    cbn [tbl_name]. by destruct (same_name t t').
  - intros t' tb Ht'. by rewrite find_table_snoc, Ht'.
Qed.

(** An update restricted to one [rowid], of a table none of whose
    columns takes that name, changes no other row. *)
Lemma run_update_frame t assigns r db c db' tb :
  find_table db t = Some tb →
  Forall (λ c, is_rowid c = false) (tbl_columns tb) →
  Forall (λ a, is_rowid (fst a) = false) assigns →
  run (SUpdate t assigns [("rowid", ELit (VInt r))]) db = inr (c, db') →
  ∀ t' r', ¬ (same_name t' t = true ∧ r' = r) → row_at db' t' r' = row_at db t' r'.
Proof.
  intros Ht Hcols Hassigns. cbn [run]. rewrite Ht.
  destruct (_ && _); [|done].
  destruct (mapM _ (tbl_rows tb)) as [rows|] eqn:Hrows; [|done].
  destruct (bool_decide _); [|done].
  intros [= _ <-] t' r' Hne. unfold row_at.
  pose proof (find_table_name _ _ _ Ht) as Hname.
  destruct (same_name t' t) eqn:Htt.
  - rewrite (find_table_same db t' t Htt), Ht.
    erewrite find_put_eq;
      [| by rewrite (find_table_same db t' t Htt)
       | cbn [tbl_name]; by rewrite (same_name_r _ _ _ Htt) ].
    cbn [tbl_rows]. f_equal.
    apply (find_mapM_frame _ _ _ _ Hrows).
    + intros row row'. unfold update_row. destruct (matches _ _ _).
      * apply (assign_keeps_id _ _ _ Hassigns).
      * by intros [= <-].
    + intros row Hrow. unfold update_row, matches. cbn [forallb eval].
      rewrite (column_value_rowid _ row Hcols).
      rewrite bool_decide_eq_false_2; [done |].
      intros [= Heq]. apply Hne. split; [done | congruence].
  - rewrite find_put_ne; [done |]. cbn [tbl_name].
    rewrite (same_name_l _ _ _ Hname). by rewrite same_name_sym.
Qed.

(** *** Statements that begin with known words *)

(** One character of a text that begins with known characters. *)
Ltac lex_char :=
  rewrite LiteralFacts.lex_from_cons;
  match goal with
  | |- context [step ?m ?c] =>
      let r := eval vm_compute in (step m c) in
      change (step m c) with r
  end;
  cbv beta iota.

Lemma lex_select_first rest ts :
  lex ("SELECT " +:+ rest) = Some ts → ∃ r, ts = TWord "SELECT" :: r.
Proof.
  unfold lex. change ("SELECT " +:+ rest)
    with (String "S" (String "E" (String "L" (String "E" (String "C" (String "T"
            (String " " rest))))))).
  do 7 lex_char. destruct (lex_from Start rest) as [r|]; cbn; [|done].
  intros [= <-]. eauto.
Qed.

Lemma lex_create_first rest ts :
  lex ("CREATE TABLE " +:+ rest) = Some ts → ∃ r, ts = TWord "CREATE" :: r.
Proof.
  unfold lex. change ("CREATE TABLE " +:+ rest)
    with (String "C" (String "R" (String "E" (String "A" (String "T" (String "E"
            (String " " ("TABLE " +:+ rest)))))))).
  do 7 lex_char. destruct (lex_from Start ("TABLE " +:+ rest)) as [r|]; cbn; [|done].
  intros [= <-]. eauto.
Qed.

Lemma parse_rows_kind ts s :
  parse_rows ts = Some s → ∃ t conds limit, s = SSelect t conds limit.
Proof.
  unfold parse_rows. intros Hp.
  repeat first [discriminate Hp | progress simplify_option_eq | case_match]; eauto.
Qed.

Lemma parse_select_kind ts s :
  parse_select ts = Some s →
  (∃ n, s = SProbe n) ∨ (∃ t conds limit, s = SSelect t conds limit).
Proof.
  unfold parse_select. intros Hp.
  repeat (case_match; try discriminate Hp);
    try (right; by eapply parse_rows_kind).
  injection Hp as <-. left. eauto.
Qed.

Lemma parse_tokens_select r s :
  parse_tokens (TWord "SELECT" :: r) = Some s →
  (∃ n, s = SProbe n) ∨ (∃ t conds limit, s = SSelect t conds limit).
Proof. cbn. apply parse_select_kind. Qed.

Lemma parse_tokens_create r s :
  parse_tokens (TWord "CREATE" :: r) = Some s → ∃ t cols, s = SCreate t cols.
Proof.
  cbn. intros Hp.
  repeat first [discriminate Hp | progress simplify_option_eq | case_match]; eauto.
Qed.

(** The statements of the table lifecycle change no row, and no table
    that was there. *)
Lemma execute_text_lifecycle sql db c db' :
  (∃ rest, sql = "SELECT " +:+ rest) ∨ (∃ rest, sql = "CREATE TABLE " +:+ rest) →
  execute_text sql db = inr (c, db') →
  (∀ t r, row_at db' t r = row_at db t r)
  ∧ (∀ t tb, find_table db t = Some tb → find_table db' t = Some tb).
Proof.
  unfold execute_text, parse. intros Hsql Hrun.
  destruct (lex sql) as [ts|] eqn:Hlex; [|done]. cbn in Hrun.
  destruct (parse_tokens ts) as [s|] eqn:Hparse; [|done].
  destruct Hsql as [[rest ->] | [rest ->]].
  - apply lex_select_first in Hlex as [r ->].
    apply parse_tokens_select in Hparse.
    by rewrite (run_select_same _ _ _ _ Hparse Hrun).
  - apply lex_create_first in Hlex as [r ->].
    apply parse_tokens_create in Hparse as (t0 & cols & ->).
    by apply (run_create_rows _ _ _ _ _ Hrun).
Qed.

(** *** The lexer on the parts of a text *)

Lemma lex_from_run m s :
  lex_from m s =
    match lex_run m s with
    | Some (ts, m') =>
        match finish m' with
        | Some r => Some (ts ++ r)
        | None => None
        end
    | None => None
    end.
Proof.
  revert m. induction s as [|c s IH]; intros m; cbn [lex_from lex_run].
  - by destruct (finish m).
  - destruct (step m c) as [[ts m']|]; [|done]. rewrite IH.
    destruct (lex_run m' s) as [[ts' m'']|]; [|done].
    destruct (finish m''); [|done]. by rewrite app_assoc.
Qed.

Lemma lex_run_app m a b :
  lex_run m (a +:+ b) =
    match lex_run m a with
    | Some (ts, m') =>
        match lex_run m' b with
        | Some (ts', m'') => Some (ts ++ ts', m'')
        | None => None
        end
    | None => None
    end.
Proof.
  revert m. induction a as [|c a IH]; intros m.
  - change ("" +:+ b) with b. cbn [lex_run]. by destruct (lex_run m b) as [[]|].
  - rewrite string_app_cons. cbn [lex_run].
    destruct (step m c) as [[ts m']|]; [|done]. rewrite IH.
    destruct (lex_run m' a) as [[ts' m'']|]; [|done].
    destruct (lex_run m'' b) as [[]|]; [|done]. by rewrite app_assoc.
Qed.

Ltac ascii_cases c :=
  destruct c as [[] [] [] [] [] [] [] []]; vm_compute; try reflexivity;
  intros; discriminate.

Lemma start_letter c :
  is_letter c = true → start c = Some ([], InWord (String c "")).
Proof. revert c. intros c. ascii_cases c. Qed.

Lemma start_digit c :
  is_digit c = true → start c = Some ([], InNum (String c "")).
Proof. ascii_cases c. Qed.

Lemma dash_digit c :
  is_digit c = true → step Dash c = Some ([TSym "-"], InNum (String c "")).
Proof. ascii_cases c. Qed.

Lemma digit_num_char c : is_digit c = true → is_num_char c = true.
Proof. unfold is_num_char. by intros ->. Qed.

Lemma all_chars_impl (P Q : ascii → bool) s :
  (∀ c, P c = true → Q c = true) → all_chars P s = true → all_chars Q s = true.
Proof.
  intros HPQ. induction s as [|c s IH]; [done |]. cbn [all_chars].
  intros [Hc Hs]%andb_prop. by rewrite (HPQ _ Hc), IH.
Qed.

Lemma all_chars_app P a b :
  all_chars P (a +:+ b) = all_chars P a && all_chars P b.
Proof.
  induction a as [|c a IH]; [done |]. rewrite string_app_cons. cbn [all_chars].
  by rewrite IH, andb_assoc.
Qed.

Lemma snoc_app acc c s : snoc acc c +:+ s = acc +:+ String c s.
Proof. unfold snoc. by rewrite string_app_assoc. Qed.

Lemma lex_run_word acc s :
  all_chars is_word_char s = true →
  lex_run (InWord acc) s = Some ([], InWord (acc +:+ s)).
Proof.
  revert acc. induction s as [|c s IH]; intros acc.
  - by rewrite string_app_nil_r.
  - cbn [all_chars]. intros [Hc Hs]%andb_prop. cbn [lex_run step].
    unfold is_word_char in Hc. rewrite Hc, (IH _ Hs). by rewrite snoc_app.
Qed.

Lemma lex_run_identifier s :
  identifier s = true → lex_run Start s = Some ([], InWord s).
Proof.
  destruct s as [|c s]; [done |]. cbn [identifier].
  intros [Hc Hs]%andb_prop. cbn [lex_run step].
  by rewrite (start_letter _ Hc), (lex_run_word _ _ Hs).
Qed.

Lemma lex_run_num acc s :
  all_chars is_num_char s = true →
  lex_run (InNum acc) s = Some ([], InNum (acc +:+ s)).
Proof.
  revert acc. induction s as [|c s IH]; intros acc.
  - by rewrite string_app_nil_r.
  - cbn [all_chars]. intros [Hc Hs]%andb_prop. cbn [lex_run step].
    unfold is_num_char in Hc. rewrite Hc, (IH _ Hs). by rewrite snoc_app.
Qed.

Lemma lex_run_body acc s :
  has_quote s = false →
  lex_run (InStr acc) s = Some ([], InStr (acc +:+ s)).
Proof.
  revert acc. induction s as [|c s IH]; intros acc.
  - by rewrite string_app_nil_r.
  - cbn [has_quote]. intros [Hc Hs]%orb_false_elim. cbn [lex_run step].
    rewrite Hc, (IH _ Hs). by rewrite snoc_app.
Qed.

(** A literal is read as its tokens, the last of which the character
    after it completes. *)
Lemma lex_shape sh :
  shape_ok sh = true →
  ∃ pre m tok,
    lex_run Start (shape_text sh) = Some (pre, m)
    ∧ shape_tokens sh = pre ++ [tok]
    ∧ closes m tok.
Proof.
  destruct sh as [[] d|b]; cbn [shape_ok shape_text shape_tokens].
  - destruct d as [|c d]; [done |]. cbn [unsigned_text].
    intros [Hc Hd]%andb_prop.
    exists [TSym "-"], (InNum (String c d)), (TNum (String c d)).
    split; [|by split].
    change ("-" +:+ String c d) with (String "-" (String c d)).
    cbn [lex_run]. change (step Start "-") with (Some (@nil Token, Dash)). cbv iota.
    by rewrite (dash_digit _ Hc), (lex_run_num _ _ Hd).
  - destruct d as [|c d]; [done |]. cbn [unsigned_text].
    intros [Hc Hd]%andb_prop.
    exists [], (InNum (String c d)), (TNum (String c d)).
    split; [|by split].
    cbn [lex_run step]. by rewrite (start_digit _ Hc), (lex_run_num _ _ Hd).
  - intros Hb%negb_true_iff.
    exists [], (Quote b), (TStr b). split; [|by split].
    change ("'" +:+ b +:+ "'") with (String "'" (b +:+ "'")).
    cbn [lex_run]. change (step Start "'") with (Some (@nil Token, InStr "")). cbv iota.
    rewrite lex_run_app, (lex_run_body _ _ Hb).
    change ("" +:+ b) with b. cbn [lex_run step].
    by rewrite Ascii.eqb_refl.
Qed.

Lemma lex_assignment a :
  identifier (fst a) = true → shape_ok (snd a) = true →
  ∃ pre m tok,
    lex_run Start (assignment_text a)
    = Some (TWord (fst a) :: TSym "=" :: pre, m)
    ∧ shape_tokens (snd a) = pre ++ [tok]
    ∧ closes m tok.
Proof.
  intros Hf Hsh. destruct (lex_shape _ Hsh) as (pre & m & tok & Hlex & Htoks & Hm).
  exists pre, m, tok. split; [|done]. unfold assignment_text.
  rewrite lex_run_app, (lex_run_identifier _ Hf).
  change ("=" +:+ shape_text (snd a)) with (String "=" (shape_text (snd a))).
  cbn [lex_run].
  change (step (InWord (fst a)) "=") with (Some ([TWord (fst a); TSym "="], Start)).
  cbv iota. by rewrite Hlex.
Qed.

Lemma assignment_tokens_cons a b rest :
  assignment_tokens (a :: b :: rest)
  = TWord (fst a) :: TSym "=" :: shape_tokens (snd a)
    ++ TSym "," :: assignment_tokens (b :: rest).
Proof. reflexivity. Qed.

Lemma assignment_tokens_one a :
  assignment_tokens [a] = TWord (fst a) :: TSym "=" :: shape_tokens (snd a).
Proof. cbn. by rewrite app_nil_r. Qed.

(** The assignments of an [UPDATE], up to the blank after them. *)
Lemma lex_assignments items :
  items ≠ [] →
  Forall (λ a, identifier (fst a) = true ∧ shape_ok (snd a) = true) items →
  ∀ k,
    lex_run Start (String.concat ", " (map assignment_text items) +:+ String " " k)
    = match lex_run Start k with
      | Some (ts, m) => Some (assignment_tokens items ++ ts, m)
      | None => None
      end.
Proof.
  intros Hne Hall. induction Hall as [|a items [Hf Hsh] Hall IH]; [done |]. intros k.
  destruct (lex_assignment _ Hf Hsh) as (pre & m & tok & Hlex & Htoks & Hfin & Hcomma & Hblank).
  destruct items as [|b items].
  - cbn [map String.concat]. rewrite lex_run_app, Hlex. cbn [lex_run]. rewrite Hblank.
    destruct (lex_run Start k) as [[ts m']|]; [|done].
    rewrite assignment_tokens_one, Htoks. cbn [app].
    by repeat (rewrite <- app_assoc; cbn [app]).
  - cbn [map]. rewrite concat_cons by done. rewrite !string_app_assoc.
    rewrite lex_run_app, Hlex.
    change (", " +:+ ?x) with (String "," (String " " x)).
    cbn [lex_run]. rewrite Hcomma.
    change (step Start " ") with (Some (@nil Token, Start)). cbv iota.
    specialize (IH ltac:(done) k). cbn [map] in IH. rewrite IH.
    destruct (lex_run Start k) as [[ts m']|]; [|done].
    rewrite assignment_tokens_cons, Htoks. cbn [app].
    by repeat (rewrite <- app_assoc; cbn [app]).
Qed.

(** *** The parser on the tokens of an [UPDATE] *)

Lemma parse_expr_shape sh r :
  parse_expr (shape_tokens sh ++ r) = Some (shape_expr sh, r).
Proof. by destruct sh as [[] d|b]. Qed.

Lemma parse_assignments items :
  items ≠ [] →
  ∀ fuel rest,
    (length items ≤ fuel)%nat →
    (∀ r', rest ≠ TSym "," :: r') →
    parse_eqs (TSym ",") fuel (assignment_tokens items ++ rest)
    = Some (assignment_exprs items, rest).
Proof.
  induction items as [|a items IH]; [done |]. intros _ fuel rest Hfuel Hrest.
  destruct fuel as [|fuel]; [cbn in Hfuel; lia |].
  destruct items as [|b items].
  - rewrite assignment_tokens_one. cbn [app parse_eqs].
    change (is_sym "=" (TSym "=")) with true. cbv iota.
    rewrite parse_expr_shape. cbn [mbind option_bind].
    destruct rest as [|t' r']; [done |].
    rewrite bool_decide_eq_false_2; [done |]. intros ->. by apply (Hrest r').
  - rewrite assignment_tokens_cons. cbn [app parse_eqs].
    change (is_sym "=" (TSym "=")) with true. cbv iota.
    rewrite <- app_assoc, parse_expr_shape. cbn [mbind option_bind app].
    rewrite bool_decide_eq_true_2 by done.
    rewrite IH; [done | done | cbn in Hfuel |- *; lia | done].
Qed.

(** *** The text of an integer *)

Lemma digit_char d : is_digit (pretty_N_char d) = true.
Proof. unfold pretty_N_char. by repeat case_match. Qed.

Lemma digit_char_value d :
  (d < 10)%N → Z.of_nat (nat_of_ascii (pretty_N_char d) - 48) = Z.of_N d.
Proof.
  intros Hd.
  assert (d = 0 ∨ d = 1 ∨ d = 2 ∨ d = 3 ∨ d = 4 ∨ d = 5 ∨ d = 6 ∨ d = 7 ∨ d = 8
          ∨ d = 9)%N as Hcases by lia.
  by repeat (destruct Hcases as [->|Hcases]; [done |]); subst.
Qed.

Lemma pretty_go_prefix x s :
  ∃ p, pretty_N_go x s = p +:+ s
    ∧ all_chars is_digit p = true
    ∧ ((0 < x)%N → p ≠ "").
Proof.
  revert s. induction (N.lt_wf_0 x) as [x _ IH]; intros s.
  destruct (decide (x = 0)%N) as [->|Hx].
  - exists "". rewrite pretty_N_go_0. split; [done |]. split; [done | lia].
  - rewrite pretty_N_go_step by lia.
    destruct (IH (x `div` 10)%N) with (s := String (pretty_N_char (x `mod` 10)) s)
      as (p & -> & Hp & _); [apply N.div_lt; lia |].
    exists (p +:+ String (pretty_N_char (x `mod` 10)) "").
    split; [by rewrite string_app_assoc |]. split.
    + rewrite all_chars_app, Hp. cbn. by rewrite digit_char.
    + intros _. by destruct p.
Qed.

Lemma pretty_go_value x :
  ∃ k, 0 ≤ k ∧ ∀ s acc,
    digits_value (pretty_N_go x s) acc = digits_value s (acc * 10 ^ k + Z.of_N x).
Proof.
  induction (N.lt_wf_0 x) as [x _ IH].
  destruct (decide (x = 0)%N) as [->|Hx].
  - exists 0. split; [done |]. intros s acc. rewrite pretty_N_go_0. f_equal. lia.
  - destruct (IH (x `div` 10)%N) as (k & Hk & Hgo); [apply N.div_lt; lia |].
    exists (Z.succ k). split; [lia |]. intros s acc.
    rewrite pretty_N_go_step by lia. rewrite Hgo. cbn [digits_value].
    rewrite digit_char, digit_char_value by (apply N.mod_lt; lia). f_equal.
    rewrite Z.pow_succ_r by done.
    pose proof (N.div_mod x 10 ltac:(lia)) as Hdiv.
    apply (f_equal Z.of_N) in Hdiv. rewrite N2Z.inj_add, N2Z.inj_mul in Hdiv.
    change (Z.of_N 10) with 10 in Hdiv. lia.
Qed.

Lemma pretty_N_unsigned (n : N) : unsigned_text (pretty n) = true.
Proof.
  unfold pretty, pretty_N. destruct (decide (n = 0)%N) as [->|Hn]; [done |].
  destruct (pretty_go_prefix n "") as (p & -> & Hp & Hne).
  rewrite string_app_nil_r. destruct p as [|c p]; [exfalso; apply Hne; [lia | done] |].
  cbn [all_chars] in Hp. apply andb_prop in Hp as [Hc Hp]. cbn [unsigned_text].
  rewrite Hc. apply (all_chars_impl is_digit); [apply digit_num_char | exact Hp].
Qed.

Lemma pretty_N_value (n : N) : digits_value (pretty n) 0 = Some (Z.of_N n).
Proof.
  unfold pretty, pretty_N. destruct (decide (n = 0)%N) as [->|Hn]; [done |].
  destruct (pretty_go_value n) as (k & _ & Hgo). by rewrite Hgo.
Qed.

Lemma int_shape_text z : pretty z = shape_text (int_shape z).
Proof. by destruct z. Qed.

Lemma int_shape_ok z : shape_ok (int_shape z) = true.
Proof. apply pretty_N_unsigned. Qed.

Lemma int_shape_expr z : shape_expr (int_shape z) = ELit (VInt z).
Proof.
  unfold int_shape, shape_expr, num_value. rewrite pretty_N_value. f_equal. f_equal.
  destruct z; cbn; lia.
Qed.

End EngineFacts.

Section Updates.

Context `{External}.

(** The three ways a [save] on an instance with an identity can go. *)
Lemma save_update_cases self o w _id :
  heap w !! self = Some o →
  inst_dict o !! "_id" = Some _id →
  _id ≠ VNone →
  match _ensure_table_exists (inst_cls o) w with
  | (Return _, w1) =>
      match outcome_map (field_value (heap w) self) (fieldsOf (inst_cls o)) with
      | Return values =>
          save self w =
            (execute (update_statement (_table_name (inst_cls o))
                        (fieldsOf (inst_cls o)) values _id) ;;; ret tt) w1
      | Raise e => save self w = (Raise e, w1)
      end
  | (Raise e, w1) => save self w = (Raise e, w1)
  end.
Proof.
  intros Hself Hid Hnone.
  destruct (_ensure_table_exists (inst_cls o) w) as [[[]|e] w1] eqn:Hens.
  - destruct (outcome_map _ _) as [values|e] eqn:Hvals.
    + by apply save_update_closed.
    + pose proof (ensure_Return_heap _ _ _ Hens) as Hheap.
      unfold save. unfold bind at 1. unfold type_of, reading at 1, type_in.
      rewrite Hself. unfold bind at 1. rewrite Hens.
      unfold bind at 1. unfold getattr, reading at 1, getattr_in.
      rewrite Hheap, Hself, Hid.
      assert (∀ (A : Type) (x y : A), match _id with VNone => x | _ => y end = y)
        as Hbranch by (intros A x y; by destruct _id).
      rewrite Hbranch. unfold bind at 1.
      by rewrite update_columns_closed, Hheap, Hvals.
  - unfold save. unfold bind at 1. unfold type_of, reading at 1, type_in.
    rewrite Hself. unfold bind at 1. by rewrite Hens.
Qed.

(** A [save] on an instance with an identity leaves the heap as it was. *)
Lemma save_update_heap self o w _id :
  heap w !! self = Some o →
  inst_dict o !! "_id" = Some _id →
  _id ≠ VNone →
  heap (snd (save self w)) = heap w.
Proof.
  intros Hself Hid Hnone.
  pose proof (save_update_cases _ _ _ _ Hself Hid Hnone) as Hcases.
  pose proof (ensure_table_exists_heap (inst_cls o) w) as Hheap.
  destruct (_ensure_table_exists (inst_cls o) w) as [[[]|e] w1]; cbn [snd] in Hheap.
  - destruct (outcome_map _ _) as [values|e]; rewrite Hcases; [|done].
    unfold bind.
    destruct (execute _ w1) as [[c|e] w2] eqn:Hex; cbn [snd ret];
      by rewrite (execute_heap _ _ _ _ Hex).
  - by rewrite Hcases.
Qed.

End Updates.

(** ** Updates over the engine model *)

Section EngineUpdates.

Import MiniSqlite.

#[local] Existing Instance external.

#[local] Instance same_rows_preorder : PreOrder same_rows.
Proof.
  split; [by split |]. intros w1 w2 w3 [Hr12 Hc12] [Hr23 Hc23]. split.
  - intros t r. by rewrite Hr23, Hr12.
  - intros t cols Hc. by apply Hc23, Hc12.
Qed.

Lemma execute_same_rows sql : lifecycle sql → always same_rows (execute sql).
Proof.
  intros Hsql w. unfold execute, same_rows, stored_row, stored_columns.
  cbn [bound_method_truth negb Database external] in *.
  destruct (DB_CONNECTION w) as [db|] eqn:Hdb; cbn [snd]; [|by rewrite Hdb].
  cbn [sqlite3_execute external].
  destruct (execute_text sql db) as [msg|[c db']] eqn:Hrun; cbn [snd DB_CONNECTION].
  - done.
  - destruct (EngineFacts.execute_text_lifecycle _ _ _ _ Hsql Hrun) as [Hrows Htabs].
    split; [done |]. intros t cols Hc.
    destruct (find_table db t) as [tb|] eqn:Ht; [|done].
    injection Hc as <-. by rewrite (Htabs _ _ Ht).
Qed.

Lemma ensure_same_rows cls : always same_rows (_ensure_table_exists cls).
Proof.
  apply (always_ensure_table_exists (H := external) same_rows lifecycle).
  - intros rest. left. eauto.
  - intros rest. right. eauto.
  - apply execute_same_rows.
Qed.

(** The text of a plain value is one literal. *)
Lemma plain_value_shape c :
  plain_value c → ∃ sh, shape_ok sh = true ∧ py_str c = shape_text sh.
Proof.
  destruct c as [| |z|r|s|]; try done; cbn [plain_value py_str].
  - intros _. exists (int_shape z).
    split; [apply EngineFacts.int_shape_ok | apply EngineFacts.int_shape_text].
  - intros (sh & Hok & -> & _). by exists sh.
  - intros (body & -> & Hq). exists (SStr body). cbn. by rewrite Hq.
Qed.

Lemma plain_values_shapes values :
  Forall plain_value values →
  ∃ shapes, Forall2 (λ c sh, shape_ok sh = true ∧ py_str c = shape_text sh) values shapes.
Proof.
  induction 1 as [|c values Hc _ [shapes IH]]; [by exists [] |].
  destruct (plain_value_shape _ Hc) as [sh Hsh]. exists (sh :: shapes). by constructor.
Qed.

Lemma assignments_text (fields : list (string * ClassAttr)) values shapes :
  Forall2 (λ c sh, shape_ok sh = true ∧ py_str c = shape_text sh) values shapes →
  length fields = length values →
  zip_with assignment fields values
  = map assignment_text (zip (fst <$> fields) shapes).
Proof.
  intros Hall. revert fields.
  induction Hall as [|c sh values shapes [_ Hc] _ IH]; intros [|p fields] Hlen; try done.
  cbn. unfold assignment at 1, assignment_text at 1. cbn [fst snd]. rewrite Hc.
  f_equal. apply IH. by injection Hlen.
Qed.

Lemma assignment_tokens_length items :
  (length items ≤ length (assignment_tokens items))%nat.
Proof.
  induction items as [|a [|b items] IH]; [done | cbn; lia |].
  rewrite EngineFacts.assignment_tokens_cons. cbn [length] in *.
  rewrite length_app. cbn [length]. lia.
Qed.

Lemma parse_tokens_update t sets :
  parse_tokens (TWord "UPDATE" :: TWord t :: TWord "SET" :: sets)
  = ('(assigns, rest) ← parse_eqs (TSym ",") (length sets) sets;
     '(conds, rest) ← parse_where rest;
     match rest with [] => Some (SUpdate t assigns conds) | _ => None end).
Proof. reflexivity. Qed.

Lemma parse_where_rowid sh :
  parse_where (TWord "WHERE" :: TWord "rowid" :: TSym "=" :: shape_tokens sh)
  = Some ([("rowid", shape_expr sh)], []).
Proof. by destruct sh as [[] d|b]. Qed.

(** The tokens of the text of an [UPDATE] of the module. *)
Lemma lex_update t items sh :
  identifier t = true →
  Forall (λ a, identifier (fst a) = true ∧ shape_ok (snd a) = true) items →
  shape_ok sh = true →
  lex ("UPDATE " +:+ t +:+ " SET " +:+ String.concat ", " (map assignment_text items)
       +:+ " WHERE rowid=" +:+ shape_text sh)
  = Some (TWord "UPDATE" :: TWord t :: TWord "SET"
          :: assignment_tokens items
          ++ TWord "WHERE" :: TWord "rowid" :: TSym "=" :: shape_tokens sh).
Proof.
  intros Ht Hitems Hsh. unfold lex. rewrite EngineFacts.lex_from_run.
  destruct (EngineFacts.lex_shape _ Hsh) as (pre & m & tok & Hlex & Htoks & Hfin & _).
  assert (lex_run Start ("WHERE rowid=" +:+ shape_text sh)
          = Some (TWord "WHERE" :: TWord "rowid" :: TSym "=" :: pre, m)) as Hwhere.
  { rewrite EngineFacts.lex_run_app.
    change (lex_run Start "WHERE rowid=")
      with (Some ([TWord "WHERE"; TWord "rowid"; TSym "="], Start)).
    cbv iota. by rewrite Hlex. }
  rewrite EngineFacts.lex_run_app.
  change (lex_run Start "UPDATE ") with (Some ([TWord "UPDATE"], Start)). cbv iota.
  rewrite EngineFacts.lex_run_app, (EngineFacts.lex_run_identifier _ Ht).
  rewrite EngineFacts.lex_run_app.
  change (lex_run (InWord t) " SET ") with (Some ([TWord t; TWord "SET"], Start)).
  cbv iota.
  change (" WHERE rowid=" +:+ shape_text sh)
    with (String " " ("WHERE rowid=" +:+ shape_text sh)).
  destruct items as [|a items].
  - cbn [map String.concat]. change ("" +:+ ?x) with x. cbn [lex_run].
    change (step Start " ") with (Some (@nil Token, Start)). cbv iota.
    rewrite Hwhere, Hfin, Htoks. cbn [app assignment_tokens].
    by repeat (rewrite <- app_assoc; cbn [app]).
  - rewrite EngineFacts.lex_assignments by done.
    rewrite Hwhere, Hfin, Htoks. cbn [app].
    by repeat (rewrite <- app_assoc; cbn [app]).
Qed.

(** How the engine reads the text of an [UPDATE] of the module whose
    names are identifiers and whose values are plain: as the update of
    the fields restricted to that [rowid], or, without a field, not at
    all. *)
Lemma parse_update t (fields : list (string * ClassAttr)) values r :
  identifier t = true →
  Forall (λ p, identifier (fst p) = true) fields →
  length fields = length values →
  Forall plain_value values →
  match fields with
  | [] => parse (update_statement t fields values (VInt r)) = None
  | _ =>
      ∃ assigns,
        parse (update_statement t fields values (VInt r))
        = Some (SUpdate t assigns [("rowid", ELit (VInt r))])
        ∧ fst <$> assigns = fst <$> fields
  end.
Proof.
  intros Ht Hfields Hlen Hplain.
  destruct (plain_values_shapes _ Hplain) as [shapes Hshapes].
  pose proof (Forall2_length _ _ _ Hshapes) as Hlen2.
  set (items := zip (fst <$> fields) shapes).
  assert (Forall (λ a, identifier (fst a) = true ∧ shape_ok (snd a) = true) items)
    as Hitems.
  { subst items. clear Hlen Hlen2 Hplain. revert fields Hfields.
    induction Hshapes as [|c sh values shapes [Hok _] _ IH]; intros fields Hfields.
    - destruct fields; constructor.
    - destruct Hfields as [|p fields Hp Hfields]; [constructor |].
      cbn. constructor; [done |]. by apply IH. }
  assert (fst <$> items = fst <$> fields) as Hnames.
  { subst items. rewrite fst_zip; [done |]. rewrite length_fmap. lia. }
  unfold parse, update_statement. rewrite (assignments_text _ _ _ Hshapes Hlen).
  fold items. cbn [py_str]. rewrite EngineFacts.int_shape_text.
  rewrite (lex_update _ _ _ Ht Hitems (EngineFacts.int_shape_ok r)).
  cbn [mbind option_bind]. rewrite parse_tokens_update.
  destruct fields as [|p fields].
  - assert (items = []) as -> by done. cbn [assignment_tokens app].
    by destruct (shape_tokens (int_shape r)).
  - assert (items ≠ []) as Hne.
    { intros Hnil. by rewrite Hnil in Hnames. }
    rewrite (EngineFacts.parse_assignments _ Hne);
      [| rewrite length_app; pose proof (assignment_tokens_length items); lia | done].
    cbn [mbind option_bind]. rewrite parse_where_rowid. cbn [mbind option_bind].
    rewrite EngineFacts.int_shape_expr. exists (assignment_exprs items).
    split; [done |]. rewrite <- Hnames. unfold assignment_exprs.
    rewrite <- list_fmap_compose. by apply list_fmap_ext.
Qed.

(** The [UPDATE] of the module, executed on a table none of whose
    columns takes the name of the identity, changes no other row. *)
Lemma update_other_rows t (fields : list (string * ClassAttr)) values r cols w1 :
  identifier t = true →
  Forall (λ p, identifier (fst p) = true ∧ is_rowid (fst p) = false) fields →
  length fields = length values →
  Forall plain_value values →
  stored_columns w1 t = Some cols →
  Forall (λ c, is_rowid c = false) cols →
  ∀ t' r', ¬ (same_name t' t = true ∧ r' = r) →
    stored_row (snd ((execute (update_statement t fields values (VInt r)) ;;; ret tt) w1))
      t' r'
    = stored_row w1 t' r'.
Proof.
  intros Ht Hfields Hlen Hplain Hcols Hnorow t' r' Hne.
  unfold bind, execute, stored_columns, stored_row in *.
  cbn [bound_method_truth negb Database external] in *.
  destruct (DB_CONNECTION w1) as [db|] eqn:Hdb; [|done].
  destruct (find_table db t) as [tb|] eqn:Htb; [|done]. injection Hcols as <-.
  cbn [sqlite3_execute external]. unfold execute_text.
  assert (Forall (λ p : string * ClassAttr, identifier (fst p) = true) fields) as Hids.
  { eapply Forall_impl; [exact Hfields |]. by intros p [Hp _]. }
  pose proof (parse_update t fields values r Ht Hids Hlen Hplain) as Hparse.
  destruct fields as [|p fields].
  - by rewrite Hparse.
  - destruct Hparse as (assigns & -> & Hnames).
    destruct (run _ db) as [msg|[c db']] eqn:Hrun; cbn [snd ret DB_CONNECTION]; [done |].
    assert (Forall (λ a : string * Expr, is_rowid (fst a) = false) assigns) as Hassigns.
    { apply Forall_forall. intros a Ha.
      assert (fst a ∈ fst <$> (p :: fields)) as Hin.
      { rewrite <- Hnames. by apply list_elem_of_fmap_2. }
      apply list_elem_of_fmap in Hin as (q & -> & Hq).
      rewrite Forall_forall in Hfields. by apply Hfields. }
    exact (EngineFacts.run_update_frame t assigns r db c db' tb Htb Hnorow Hassigns Hrun
             t' r' Hne).
Qed.

(** C6, amended: [save] on an instance that has an identity leaves the
    heap, and so that identity, as it was, whether it returns or raises.
    When the identity is an integer, the names of the class and of its
    fields are identifiers, no field and no column of the stored table
    takes the name of the identity of a row, and the text of every
    converted value is one literal, a number or a text between quotes
    without a quote inside, every stored row but the instance's own is as
    it was. *)
Theorem save_update_frame self o w _id :
  heap w !! self = Some o →
  inst_dict o !! "_id" = Some _id →
  _id ≠ VNone →
  heap (snd (save self w)) = heap w
  ∧ getattr_in (heap (snd (save self w))) self "_id" = Return _id
  ∧ (∀ r values cols,
       _id = VInt r →
       identifier (_table_name (inst_cls o)) = true →
       Forall (λ p, identifier (fst p) = true ∧ is_rowid (fst p) = false)
         (fieldsOf (inst_cls o)) →
       outcome_map (field_value (heap w) self) (fieldsOf (inst_cls o)) = Return values →
       Forall plain_value values →
       stored_columns w (_table_name (inst_cls o)) = Some cols →
       Forall (λ c, is_rowid c = false) cols →
       ∀ t r', ¬ (same_name t (_table_name (inst_cls o)) = true ∧ r' = r) →
         stored_row (snd (save self w)) t r' = stored_row w t r').
Proof.
  intros Hself Hid Hnone.
  pose proof (save_update_heap _ _ _ _ Hself Hid Hnone) as Hheap.
  split; [exact Hheap |]. split.
  { unfold getattr_in. by rewrite Hheap, Hself, Hid. }
  intros r values cols -> Hname Hfields Hvals Hplain Hcols Hnorow t r' Hne.
  pose proof (save_update_cases _ _ _ _ Hself Hid Hnone) as Hcases.
  destruct (ensure_same_rows (inst_cls o) w) as [Hrows Hkeeps].
  destruct (_ensure_table_exists (inst_cls o) w) as [[[]|e] w1]; cbn [snd] in Hrows, Hkeeps.
  - rewrite Hvals in Hcases. rewrite Hcases, <- (Hrows t r').
    apply (update_other_rows _ _ _ _ cols); try done.
    + symmetry. by eapply outcome_map_length.
    + by apply Hkeeps.
  - rewrite Hcases. apply Hrows.
Qed.

End EngineUpdates.

(** * The properties on the examples *)

Section OnExamples.

Import MiniSqlite Examples.

#[local] Existing Instance external.

Lemma field_order_witness :
  NoDup (fst <$> fieldsOf Coord3D)
  ∧ _create_table Coord3D w_made = (Return tt, snd (_create_table Coord3D w_made))
  ∧ (∃ items,
       last (executed (snd (_create_table Coord3D w_made)))
         = Some (create_statement "Coord3D" items)
       ∧ ∀ i field_name field,
           fieldsOf Coord3D !! i = Some (field_name, field) →
           ∃ type_name, sqlite_type_name field = Return type_name
             ∧ items !! i = Some (field_name +:+ " " +:+ type_name))
  ∧ save 0%nat w_made = (Return tt, snd (save 0%nat w_made))
  ∧ save 0%nat w_made =
      (cursor <- execute (insert_statement "Coord3D"
                            [VInt 1; VInt 2; VInt 3; VStr "'p1'"]) ;;
       setattr 0%nat "_id" (lastrowid cursor)) (snd (_ensure_table_exists Coord3D w_made))
  ∧ (∀ i field_name field,
       fieldsOf Coord3D !! i = Some (field_name, field) →
       ∃ v c, inst_dict p1_made !! field_name = Some v
         ∧ convert_in (heap w_made) field v = Return c
         ∧ [VInt 1; VInt 2; VInt 3; VStr "'p1'"] !! i = Some c)
  ∧ (∃ values,
       last (executed (snd (save 0%nat w_made)))
         = Some (insert_statement "Coord3D" values)
       ∧ length values = length (fieldsOf Coord3D)
       ∧ ∀ i field_name field,
           fieldsOf Coord3D !! i = Some (field_name, field) →
           ∃ v c, inst_dict p1_made !! field_name = Some v
             ∧ convert_in (heap w_made) field v = Return c
             ∧ values !! i = Some c)
  ∧ init_from_db_tuple Coord3D [VInt 1; VInt 1; VInt 2; VInt 3; VStr "p1"] w_saved
    = (Return 2%nat,
       snd (init_from_db_tuple Coord3D [VInt 1; VInt 1; VInt 2; VInt 3; VStr "p1"] w_saved))
  ∧ (∃ obj w' o,
       init_from_db_tuple Coord3D [VInt 1; VInt 1; VInt 2; VInt 3; VStr "p1"] w_saved
       = (Return obj, w')
       ∧ heap w' !! obj = Some o
       ∧ ∀ i field_name field,
           fieldsOf Coord3D !! i = Some (field_name, field) →
           ∃ v, [VInt 1; VInt 2; VInt 3; VStr "p1"] !! i = Some v
             ∧ inst_dict o !! field_name = Some (unconvert field v))
  ∧ ∃ trace o,
      decodes_by trace Coord3D (VInt 1) [VInt 1; VInt 2; VInt 3; VStr "p1"] w_saved 2%nat
        (snd (init_from_db_tuple Coord3D [VInt 1; VInt 1; VInt 2; VInt 3; VStr "p1"]
                w_saved))
      ∧ heap (snd (init_from_db_tuple Coord3D [VInt 1; VInt 1; VInt 2; VInt 3; VStr "p1"]
                     w_saved)) !! 2%nat = Some o
      ∧ ∀ i item,
          fieldsOf Coord3D !! i = Some item →
          ∃ v wa x wm,
            [VInt 1; VInt 2; VInt 3; VStr "p1"] !! i = Some v
            ∧ before_step (with_heap w_saved (heap w_saved ++ [fresh Coord3D])) trace i
              = Some wa
            ∧ trace !! i = Some (x, wm)
            ∧ field_step 2%nat item v wa x wm
            ∧ bound_field
                (heap (snd (init_from_db_tuple Coord3D
                              [VInt 1; VInt 1; VInt 2; VInt 3; VStr "p1"] w_saved)))
                2%nat o item x wm.
Proof.
  assert (NoDup (fst <$> fieldsOf Coord3D)) as Hnodup.
  { apply (bool_decide_unpack _). vm_compute. exact I. }
  assert (_create_table Coord3D w_made = (Return tt, snd (_create_table Coord3D w_made)))
    as Hcreate by (vm_compute; reflexivity).
  assert (heap w_made !! 0%nat = Some p1_made) as Hself by (vm_compute; reflexivity).
  assert (inst_cls p1_made = Coord3D) as Hcls by (vm_compute; reflexivity).
  assert (inst_dict p1_made !! "_id" = Some VNone) as Hid by (vm_compute; reflexivity).
  assert (_ensure_table_exists Coord3D w_made
          = (Return tt, snd (_ensure_table_exists Coord3D w_made))) as Hens
    by (vm_compute; reflexivity).
  assert (outcome_map (field_value (heap w_made) 0%nat) (fieldsOf Coord3D)
          = Return [VInt 1; VInt 2; VInt 3; VStr "'p1'"]) as Hvals
    by (vm_compute; reflexivity).
  assert (save 0%nat w_made = (Return tt, snd (save 0%nat w_made))) as Hsave
    by (vm_compute; reflexivity).
  assert (init_from_db_tuple Coord3D [VInt 1; VInt 1; VInt 2; VInt 3; VStr "p1"] w_saved
          = (Return 2%nat,
             snd (init_from_db_tuple Coord3D [VInt 1; VInt 1; VInt 2; VInt 3; VStr "p1"]
                    w_saved))) as Hinit by (vm_compute; reflexivity).
  assert (Forall (λ item, plain_field (snd item) = true) (fieldsOf Coord3D)) as Hplain.
  { apply (bool_decide_unpack _). vm_compute. exact I. }
  assert (length (fieldsOf Coord3D) ≤ length [VInt 1; VInt 2; VInt 3; VStr "p1"])%nat
    as Hlen by (vm_compute; lia).
  destruct (field_order Coord3D Hnodup) as (Hcreated & Hinsert & Hinserted & Hdecoded & Htotal).
  destruct (Hinsert 0%nat p1_made w_made _ _ Hself Hcls Hid Hens Hvals)
    as (Hequation & _ & Hvalues).
  split; [exact Hnodup |]. split; [exact Hcreate |].
  split; [exact (Hcreated _ _ Hcreate) |].
  split; [exact Hsave |]. split; [exact Hequation |]. split; [exact Hvalues |].
  split; [exact (Hinserted 0%nat p1_made w_made _ Hself Hcls Hid Hsave) |].
  split; [exact Hinit |].
  split; [exact (Htotal (VInt 1) _ w_saved Hplain Hlen) |].
  exact (Hdecoded (VInt 1) _ w_saved _ _ Hinit).
Defined.

Lemma execute_without_connection_witness :
  DB_CONNECTION w_start = None
  ∧ execute "SELECT 1" w_start = (Raise AttributeError, w_start)
  ∧ execute "SELECT 1" w_start ≠ (Raise AssertionError, w_start)
  ∧ disconnnect w_start = (Raise AssertionError, w_start).
Proof.
  split; [reflexivity |]. apply (execute_without_connection "SELECT 1" w_start).
  reflexivity.
Defined.

(** C3 fails as stated: the text made for [O'Brien] is not the literal of
    [O'Brien]. *)
Lemma string_conversion_counterexample :
  convert StringField (VStr "O'Brien") w_start = (Return (VStr "'O'Brien'"), w_start)
  ∧ sql_literal_value "'O'Brien'" ≠ Some "O'Brien".
Proof. split; [reflexivity |]. vm_compute. discriminate. Qed.

Lemma query_construction_witness :
  outcome_map (condition (heap w_saved) Coord3D) two_filters
    = Return ["x=1"; "name='p1'"]
  ∧ get_query_string Coord3D two_filters w_saved
    = (Return "SELECT rowid, * FROM Coord3D WHERE x=1 AND name='p1' ", w_saved).
Proof.
  assert (outcome_map (condition (heap w_saved) Coord3D) two_filters
          = Return ["x=1"; "name='p1'"]) as Hconds by (vm_compute; reflexivity).
  split; [exact Hconds |].
  exact (proj1 (proj2 (query_construction Coord3D two_filters _ w_saved Hconds))).
Defined.

(** C4 fails as stated: the text built for one filter ends with a space
    that the statement of the specification does not have. *)
Lemma query_construction_counterexample :
  get_query_string Coord3D [("x", VInt 1)] w_saved
    = (Return "SELECT rowid, * FROM Coord3D WHERE x=1 ", w_saved)
  ∧ get_query_string Coord3D [("x", VInt 1)] w_saved
    ≠ (Return (select_statement_spec "Coord3D" ["x=1"]), w_saved).
Proof.
  split; [vm_compute; reflexivity |]. intros Heq.
  assert (fst (get_query_string Coord3D [("x", VInt 1)] w_saved)
          = Return (select_statement_spec "Coord3D" ["x=1"])) as Hfst by (by rewrite Heq).
  vm_compute in Hfst. discriminate Hfst.
Qed.

Lemma save_statements_witness :
  heap w_made !! 0%nat = Some p1_made
  ∧ _ensure_table_exists Coord3D w_made
    = (Return tt, snd (_ensure_table_exists Coord3D w_made))
  ∧ outcome_map (field_value (heap w_made) 0%nat) (fieldsOf Coord3D)
    = Return [VInt 1; VInt 2; VInt 3; VStr "'p1'"]
  ∧ inst_dict p1_made !! "_id" = Some VNone
  ∧ save 0%nat w_made =
      (cursor <- execute "INSERT INTO Coord3D VALUES (1, 2, 3, 'p1')" ;;
       setattr 0%nat "_id" (lastrowid cursor)) (snd (_ensure_table_exists Coord3D w_made)).
Proof.
  assert (heap w_made !! 0%nat = Some p1_made) as Hself by (vm_compute; reflexivity).
  assert (_ensure_table_exists (inst_cls p1_made) w_made
          = (Return tt, snd (_ensure_table_exists Coord3D w_made))) as Hens
    by (vm_compute; reflexivity).
  assert (outcome_map (field_value (heap w_made) 0%nat) (fieldsOf (inst_cls p1_made))
          = Return [VInt 1; VInt 2; VInt 3; VStr "'p1'"]) as Hvals
    by (vm_compute; reflexivity).
  assert (inst_dict p1_made !! "_id" = Some VNone) as Hid by (vm_compute; reflexivity).
  split; [exact Hself |]. split; [exact Hens |]. split; [exact Hvals |].
  split; [exact Hid |].
  exact (proj1 (proj2 (save_statements _ _ _ _ _ Hself Hens Hvals)) Hid).
Defined.

Lemma save_update_frame_witness :
  heap w_saved !! 0%nat = Some p1_saved
  ∧ inst_dict p1_saved !! "_id" = Some (VInt 1)
  ∧ VInt 1 ≠ VNone
  ∧ identifier "Coord3D" = true
  ∧ Forall (λ p, identifier (fst p) = true ∧ is_rowid (fst p) = false) (fieldsOf Coord3D)
  ∧ outcome_map (field_value (heap w_saved) 0%nat) (fieldsOf Coord3D)
    = Return [VInt 1; VInt 2; VInt 3; VStr "'p1'"]
  ∧ Forall plain_value [VInt 1; VInt 2; VInt 3; VStr "'p1'"]
  ∧ stored_columns w_saved "Coord3D" = Some ["x"; "y"; "z"; "name"]
  ∧ Forall (λ c, is_rowid c = false) ["x"; "y"; "z"; "name"]
  ∧ heap (snd (save 0%nat w_saved)) = heap w_saved
  ∧ getattr_in (heap (snd (save 0%nat w_saved))) 0%nat "_id" = Return (VInt 1)
  ∧ ∀ t r', ¬ (same_name t "Coord3D" = true ∧ r' = 1) →
      stored_row (snd (save 0%nat w_saved)) t r' = stored_row w_saved t r'.
Proof.
  assert (heap w_saved !! 0%nat = Some p1_saved) as Hself by (vm_compute; reflexivity).
  assert (inst_dict p1_saved !! "_id" = Some (VInt 1)) as Hid by (vm_compute; reflexivity).
  assert (VInt 1 ≠ VNone) as Hnone by discriminate.
  assert (identifier (_table_name (inst_cls p1_saved)) = true) as Hname
    by (vm_compute; reflexivity).
  assert (Forall (λ p, identifier (fst p) = true ∧ is_rowid (fst p) = false)
            (fieldsOf (inst_cls p1_saved))) as Hfields.
  { repeat constructor. }
  assert (outcome_map (field_value (heap w_saved) 0%nat) (fieldsOf (inst_cls p1_saved))
          = Return [VInt 1; VInt 2; VInt 3; VStr "'p1'"]) as Hvals
    by (vm_compute; reflexivity).
  assert (Forall plain_value [VInt 1; VInt 2; VInt 3; VStr "'p1'"]) as Hplain.
  { repeat constructor. by exists "p1". }
  assert (stored_columns w_saved (_table_name (inst_cls p1_saved))
          = Some ["x"; "y"; "z"; "name"]) as Hcols by (vm_compute; reflexivity).
  assert (Forall (λ c, is_rowid c = false) ["x"; "y"; "z"; "name"]) as Hnorow.
  { repeat constructor. }
  split; [exact Hself |]. split; [exact Hid |]. split; [exact Hnone |].
  split; [exact Hname |]. split; [exact Hfields |]. split; [exact Hvals |].
  split; [exact Hplain |]. split; [exact Hcols |]. split; [exact Hnorow |].
  destruct (save_update_frame _ _ _ _ Hself Hid Hnone) as (Hheap & Hkept & Hrows).
  split; [exact Hheap |]. split; [exact Hkept |].
  exact (Hrows 1 _ _ eq_refl Hname Hfields Hvals Hplain Hcols Hnorow).
Defined.

(** C6 fails as stated: the first point, saved as row 1, is renamed to a
    text with a quote and a comment mark; saving it changes row 2, the row
    of the second point. *)
Lemma save_update_counterexample :
  getattr_in (heap w_renamed) 0%nat "_id" = Return (VInt 1)
  ∧ fst (save 0%nat w_renamed) = Return tt
  ∧ last (executed (snd (save 0%nat w_renamed)))
    = Some "UPDATE Coord3D SET x=1, y=2, z=3, name='p1' --' WHERE rowid=1"
  ∧ stored_row w_renamed "Coord3D" 2 = Some [VInt 1; VInt 3; VInt 2; VStr "p2"]
  ∧ stored_row (snd (save 0%nat w_renamed)) "Coord3D" 2
    = Some [VInt 1; VInt 2; VInt 3; VStr "p1"]
  ∧ stored_row (snd (save 0%nat w_renamed)) "Coord3D" 2
    ≠ stored_row w_renamed "Coord3D" 2
  ∧ outcome_map (field_value (heap w_renamed) 0%nat) (fieldsOf Coord3D)
    = Return [VInt 1; VInt 2; VInt 3; VStr "'p1' --'"]
  ∧ ¬ plain_value (VStr "'p1' --'").
Proof.
  split; [vm_compute; reflexivity |]. split; [vm_compute; reflexivity |].
  split; [vm_compute; reflexivity |]. split; [vm_compute; reflexivity |].
  split; [vm_compute; reflexivity |]. split; [vm_compute; discriminate |].
  split; [vm_compute; reflexivity |].
  intros (body & Hbody & Hquote).
  destruct body as [|a [|b [|c body]]]; try discriminate Hbody.
  injection Hbody as <- <- <- _. discriminate Hquote.
Qed.

(** Why the fields must leave the names of the identity alone: with a
    field named [rowid] the restriction of the [UPDATE] reads the declared
    column, so saving the first instance, whose identity is 1, rewrites
    the row of the second, whose rank is 1, and not its own. *)
Lemma rowid_field_update :
  getattr_in (heap w_ranked) 0%nat "_id" = Return (VInt 1)
  ∧ getattr_in (heap w_ranked) 1%nat "_id" = Return (VInt 2)
  ∧ fst (save 0%nat w_ranked) = Return tt
  ∧ last (executed (snd (save 0%nat w_ranked)))
    = Some "UPDATE Ranked SET rowid=9 WHERE rowid=1"
  ∧ stored_row w_ranked "Ranked" 1 = Some [VInt 7]
  ∧ stored_row w_ranked "Ranked" 2 = Some [VInt 1]
  ∧ stored_row (snd (save 0%nat w_ranked)) "Ranked" 1 = Some [VInt 7]
  ∧ stored_row (snd (save 0%nat w_ranked)) "Ranked" 2 = Some [VInt 9].
Proof. repeat split; vm_compute; reflexivity. Qed.

Lemma decode_row_witness :
  init_from_db_tuple EnrollmentRecord [VInt 1; VInt 1] w_enrolled
  = (Return 2%nat, snd (init_from_db_tuple EnrollmentRecord [VInt 1; VInt 1] w_enrolled))
  ∧ NoDup (fst <$> fieldsOf EnrollmentRecord)
  ∧ (∃ trace,
       decodes_by trace EnrollmentRecord (VInt 1) [VInt 1] w_enrolled 2%nat
         (snd (init_from_db_tuple EnrollmentRecord [VInt 1; VInt 1] w_enrolled))
       ∧ (∃ o,
            heap (snd (init_from_db_tuple EnrollmentRecord [VInt 1; VInt 1] w_enrolled))
              !! 2%nat = Some o
            ∧ inst_cls o = EnrollmentRecord
            ∧ inst_dict o !! "_id" = Some (VInt 1)
            ∧ ∀ i item,
                fieldsOf EnrollmentRecord !! i = Some item →
                ∃ v wa x wm,
                  [VInt 1] !! i = Some v
                  ∧ before_step
                      (with_heap w_enrolled (heap w_enrolled ++ [fresh EnrollmentRecord]))
                      trace i = Some wa
                  ∧ trace !! i = Some (x, wm)
                  ∧ field_step 2%nat item v wa x wm
                  ∧ bound_field
                      (heap (snd (init_from_db_tuple EnrollmentRecord [VInt 1; VInt 1]
                                    w_enrolled)))
                      2%nat o item x wm)
       ∧ ∃ l,
           executed (snd (init_from_db_tuple EnrollmentRecord [VInt 1; VInt 1] w_enrolled))
           = executed w_enrolled ++ l
           ∧ Forall selection l
           ∧ ∀ i field_name other_cls v,
               fieldsOf EnrollmentRecord !! i
               = Some (field_name, ForeignKeyField other_cls) →
               [VInt 1] !! i = Some v →
               load_statement other_cls v ∈ l)
  ∧ executed (snd (init_from_db_tuple EnrollmentRecord [VInt 1; VInt 1] w_enrolled))
    = executed w_enrolled ++ ["SELECT rowid, * FROM Course WHERE rowid=1 LIMIT 1"]
  ∧ Forall (λ item, plain_field (snd item) = true) (fieldsOf Coord3D)
  ∧ (length (fieldsOf Coord3D) ≤ length [VInt 1; VInt 2; VInt 3; VStr "p1"])%nat
  ∧ ∃ obj w',
      init_from_db_tuple Coord3D [VInt 1; VInt 1; VInt 2; VInt 3; VStr "p1"] w_saved
      = (Return obj, w').
Proof.
  assert (NoDup (fst <$> fieldsOf EnrollmentRecord)) as Hnodup.
  { apply (bool_decide_unpack _). vm_compute. exact I. }
  assert (init_from_db_tuple EnrollmentRecord [VInt 1; VInt 1] w_enrolled
          = (Return 2%nat,
             snd (init_from_db_tuple EnrollmentRecord [VInt 1; VInt 1] w_enrolled)))
    as Hinit by (vm_compute; reflexivity).
  assert (Forall (λ item, plain_field (snd item) = true) (fieldsOf Coord3D)) as Hplain.
  { apply (bool_decide_unpack _). vm_compute. exact I. }
  assert (length (fieldsOf Coord3D) ≤ length [VInt 1; VInt 2; VInt 3; VStr "p1"])%nat
    as Hlen by (vm_compute; lia).
  destruct (decode_row EnrollmentRecord (VInt 1) [VInt 1] w_enrolled)
    as (Hiff & Hfields & Hlog & _).
  destruct (proj1 (Hiff _ _) Hinit) as [trace Hdec].
  split; [exact Hinit |]. split; [exact Hnodup |].
  split; [exists trace; split; [exact Hdec |];
          split; [exact (Hfields Hnodup trace _ _ Hdec) | exact (Hlog trace _ _ Hdec)] |].
  split; [vm_compute; reflexivity |].
  split; [exact Hplain |]. split; [exact Hlen |].
  exact (proj2 (proj2 (proj2 (decode_row Coord3D (VInt 1)
                                [VInt 1; VInt 2; VInt 3; VStr "p1"] w_saved)))
           Hplain Hlen).
Defined.

Lemma getitem_positions_witness :
  (0 ≤ 0 < Z.of_nat (count one_row))
  ∧ (∃ tup, items one_row !! Z.to_nat 0 = Some tup
       ∧ QuerySet_getitem one_row 0 w_saved
         = init_from_db_tuple (model_cls one_row) tup w_saved)
  ∧ (- Z.of_nat (count one_row) ≤ -1 < 0)
  ∧ (∃ tup, items one_row !! Z.to_nat (Z.of_nat (count one_row) + -1) = Some tup
       ∧ QuerySet_getitem one_row (-1) w_saved
         = init_from_db_tuple (model_cls one_row) tup w_saved)
  ∧ (1 < - Z.of_nat (count one_row) ∨ Z.of_nat (count one_row) ≤ 1)
  ∧ QuerySet_getitem one_row 1 w_saved = (Raise IndexError, w_saved).
Proof.
  assert (0 ≤ 0 < Z.of_nat (count one_row)) as H0 by (vm_compute; split; [discriminate | reflexivity]).
  assert (- Z.of_nat (count one_row) ≤ -1 < 0) as Hneg
    by (vm_compute; split; [discriminate | reflexivity]).
  assert (1 < - Z.of_nat (count one_row) ∨ Z.of_nat (count one_row) ≤ 1) as Hout
    by (right; vm_compute; discriminate).
  split; [exact H0 |].
  split; [exact (proj1 (getitem_positions one_row 0 w_saved) H0) |].
  split; [exact Hneg |].
  split; [exact (proj1 (proj2 (getitem_positions one_row (-1) w_saved)) Hneg) |].
  split; [exact Hout |].
  exact (proj2 (proj2 (getitem_positions one_row 1 w_saved)) Hout).
Defined.

(** C8 fails as stated: position [-1] is not between [0] and [count - 1],
    and indexing there raises no [IndexError]; it decodes the last row. *)
Lemma getitem_counterexample :
  ¬ (0 ≤ -1 < Z.of_nat (count one_row))
  ∧ QuerySet_getitem one_row (-1) w_saved
    = init_from_db_tuple Coord3D [VInt 1; VInt 1; VInt 2; VInt 3; VStr "p1"] w_saved
  ∧ fst (QuerySet_getitem one_row (-1) w_saved) = Return 2%nat
  ∧ fst (QuerySet_getitem one_row (-1) w_saved) ≠ Raise IndexError.
Proof.
  split; [intros [Hle _]; by apply Hle |].
  split; [reflexivity |]. split; [vm_compute; reflexivity |].
  vm_compute. discriminate.
Qed.



Lemma delete_keeps_identity_witness :
  heap w_saved !! 0%nat = Some p1_saved
  ∧ inst_dict p1_saved !! "_id" = Some (VInt 1)
  ∧ _ensure_table_exists (inst_cls p1_saved) w_saved
    = (Return tt, snd (_ensure_table_exists Coord3D w_saved))
  ∧ delete 0%nat w_saved
    = (execute "DELETE FROM Coord3D WHERE rowid=1" ;;; ret tt)
        (snd (_ensure_table_exists Coord3D w_saved))
  ∧ heap (snd (delete 0%nat w_saved)) = heap w_saved
  ∧ heap w_made !! 0%nat = Some p1_made
  ∧ inst_dict p1_made !! "_id" = Some VNone
  ∧ _ensure_table_exists (inst_cls p1_made) w_made
    = (Return tt, snd (_ensure_table_exists Coord3D w_made))
  ∧ delete 0%nat w_made
    = (execute "DELETE FROM Coord3D WHERE rowid=None" ;;; ret tt)
        (snd (_ensure_table_exists Coord3D w_made)).
Proof.
  assert (heap w_saved !! 0%nat = Some p1_saved) as Hself by (vm_compute; reflexivity).
  assert (inst_dict p1_saved !! "_id" = Some (VInt 1)) as Hid by (vm_compute; reflexivity).
  assert (_ensure_table_exists (inst_cls p1_saved) w_saved
          = (Return tt, snd (_ensure_table_exists Coord3D w_saved))) as Hens
    by (vm_compute; reflexivity).
  assert (heap w_made !! 0%nat = Some p1_made) as Hself' by (vm_compute; reflexivity).
  assert (inst_dict p1_made !! "_id" = Some VNone) as Hid' by (vm_compute; reflexivity).
  assert (_ensure_table_exists (inst_cls p1_made) w_made
          = (Return tt, snd (_ensure_table_exists Coord3D w_made))) as Hens'
    by (vm_compute; reflexivity).
  split; [exact Hself |]. split; [exact Hid |]. split; [exact Hens |].
  split; [exact (proj1 (delete_keeps_identity _ _ _ _ _ Hself Hid Hens)) |].
  split; [exact (proj1 (proj2 (proj2 (delete_keeps_identity _ _ _ _ _ Hself Hid Hens)))) |].
  split; [exact Hself' |]. split; [exact Hid' |]. split; [exact Hens' |].
  exact (proj1 (delete_keeps_identity _ _ _ _ _ Hself' Hid' Hens')).
Defined.

End OnExamples.

(** * Further properties *)

Section Connection.

Context `{External}.

(** X1: through every sequence of calls of the methods of [Connector],
    whatever [sqlite3.connect] gives and whether the calls return or
    raise, a connection is never without a name: [DB_CONNECTION] is not
    [None] only if [DB_NAME] is not [None]; the heap is never touched, and
    the log grows only by statements passed to [execute].  The converse
    does not hold: a [connect] that fails has overwritten [DB_NAME] and
    left [DB_CONNECTION] as it was, so a name can be there without a
    connection, and after a failed second [connect] the name is that of
    the database that could not be opened while [execute] still runs on
    the first. *)
Theorem connector_invariant (cs : list ConnectorCall) (w : World) :
  (is_connected w = true → is_Some (DB_NAME w)) →
  (is_connected (calls cs w) = true → is_Some (DB_NAME (calls cs w)))
  ∧ heap (calls cs w) = heap w
  ∧ (∃ l, executed (calls cs w) = executed w ++ l
        ∧ ∀ sql, sql ∈ l → CallExecute sql ∈ cs)
  ∧ (∀ db_name msg,
       connect db_name (inl msg) (calls cs w)
       = (Raise (Sqlite3Error msg),
          {| DB_NAME := Some db_name; DB_CONNECTION := DB_CONNECTION (calls cs w);
             executed := executed (calls cs w); heap := heap (calls cs w) |})).
Proof.
  intros Hw. split; [|split; [|split]]; [| | |done].
  - revert w Hw. induction cs as [|c cs IH]; intros w Hw; [done |].
    change (calls (c :: cs) w) with (calls cs (call c w)). apply IH. clear IH.
    destruct c as [db_name [msg|db]| |sql]; unfold call, is_connected in *.
    + cbn. eauto.
    + cbn. eauto.
    + unfold disconnnect, is_connected.
      destruct (DB_CONNECTION w) eqn:Hdb; cbn; [done | by rewrite Hdb].
    + unfold execute. cbn [bound_method_truth negb].
      destruct (DB_CONNECTION w) as [db|] eqn:Hdb; cbn [snd].
      * destruct (sqlite3_execute sql db) as [|[]]; cbn; intros _; by apply Hw.
      * by rewrite Hdb.
  - clear Hw. revert w. induction cs as [|c cs IH]; intros w; [done |].
    change (calls (c :: cs) w) with (calls cs (call c w)). rewrite IH.
    destruct c as [db_name [msg|db]| |sql]; unfold call; try done.
    + unfold disconnnect. by destruct (is_connected w).
    + apply execute_same_heap.
  - clear Hw. revert w. induction cs as [|c cs IH]; intros w.
    { exists []. split; [by rewrite app_nil_r | by intros sql Hin%elem_of_nil]. }
    change (calls (c :: cs) w) with (calls cs (call c w)). destruct (IH (call c w)) as (l & Hl & Hin).
    assert (∃ l0, executed (call c w) = executed w ++ l0
                  ∧ ∀ sql, sql ∈ l0 → c = CallExecute sql) as (l0 & Hl0 & Hin0).
    { destruct c as [db_name [msg|db]| |sql]; unfold call.
      - exists []. split; [by rewrite app_nil_r | by intros sql Hs%elem_of_nil].
      - exists []. split; [by rewrite app_nil_r | by intros sql Hs%elem_of_nil].
      - exists []. split; [|by intros sql Hs%elem_of_nil].
        unfold disconnnect. destruct (is_connected w); by rewrite app_nil_r.
      - unfold execute. cbn [bound_method_truth negb].
        destruct (DB_CONNECTION w) as [db|].
        + exists [sql]. split; [by destruct (sqlite3_execute sql db) as [|[]] |].
          by intros sql' ->%list_elem_of_singleton.
        + exists []. split; [by rewrite app_nil_r | by intros sql' Hs%elem_of_nil]. }
    exists (l0 ++ l). split; [by rewrite Hl, Hl0, app_assoc |].
    intros sql [Hs|Hs]%elem_of_app.
    + rewrite (Hin0 sql Hs). by left.
    + right. by apply Hin.
Qed.

Lemma execute_disconnected sql w :
  DB_CONNECTION w = None → execute sql w = (Raise AttributeError, w).
Proof. unfold execute. cbn [bound_method_truth negb]. by intros ->. Qed.

Lemma table_exists_disconnected cls w :
  DB_CONNECTION w = None → _table_exists cls w = (Raise AttributeError, w).
Proof.
  intros Hw. unfold _table_exists. apply bind_Raise. by apply execute_disconnected.
Qed.

Lemma ensure_disconnected cls w :
  DB_CONNECTION w = None → _ensure_table_exists cls w = (Raise AttributeError, w).
Proof.
  intros Hw. unfold _ensure_table_exists, ensure_with. apply bind_Raise.
  by apply table_exists_disconnected.
Qed.

(** X2: with no connection every operation that reaches the store ends in
    the [AttributeError] of the absent connection and changes nothing:
    no statement is logged, no instance is touched. *)
Theorem without_connection self o cls kwargs conds other_cls other_id w :
  DB_CONNECTION w = None →
  heap w !! self = Some o →
  outcome_map (condition (heap w) cls) kwargs = Return conds →
  _ensure_table_exists cls w = (Raise AttributeError, w)
  ∧ save self w = (Raise AttributeError, w)
  ∧ delete self w = (Raise AttributeError, w)
  ∧ objects cls kwargs w = (Raise AttributeError, w)
  ∧ load_fk_field other_cls other_id w = (Raise AttributeError, w).
Proof.
  intros Hw Hself Hconds. split; [by apply ensure_disconnected |].
  assert (type_of self w = (Return (inst_cls o), w)) as Htype.
  { unfold type_of, reading, type_in. by rewrite Hself. }
  split; [|split; [|split]].
  - unfold save. rewrite (bind_Return _ _ _ _ _ Htype).
    apply bind_Raise. by apply ensure_disconnected.
  - unfold delete. rewrite (bind_Return _ _ _ _ _ Htype).
    apply bind_Raise. by apply ensure_disconnected.
  - unfold objects. rewrite QuerySet_init_closed, Hconds.
    apply bind_Raise. by apply execute_disconnected.
  - unfold load_fk_field, load_fk_field_with. apply bind_Raise.
    by apply execute_disconnected.
Qed.

End Connection.

Section Lifecycle.

Context `{External}.

Lemma Forall2_outcome_map {A B} (f : A → Outcome B) l ys :
  Forall2 (λ x y, f x = Return y) l ys → outcome_map f l = Return ys.
Proof.
  induction 1 as [|x y l ys Hx _ IH]; [done |]. cbn. by rewrite Hx, IH.
Qed.

Lemma outcome_map_Forall2 {A B} (f : A → Outcome B) l ys :
  outcome_map f l = Return ys → Forall2 (λ x y, f x = Return y) l ys.
Proof.
  revert ys. induction l as [|x l IH]; intros ys; cbn.
  - intros [= <-]. constructor.
  - destruct (f x) as [y|] eqn:Hx; [|done].
    destruct (outcome_map f l) as [ys'|]; [|done].
    intros [= <-]. constructor; [done | by apply IH].
Qed.

(** The second loop of [_create_table], from any position on. *)
Lemma constraints_from items columns w columns' w' :
  for_each items (λ '(field_name, field) columns,
    if startswith_underscore field_name then ret columns
    else
      constr <- lift (get_post_declaration_constraint field field_name) ;;
      match constr with
      | Some c => ret (columns ++ [c])
      | None => ret columns
      end) columns w = (Return columns', w') →
  w' = w
  ∧ columns' = columns ++
      omap (λ p, match snd p with
                 | ForeignKeyField other_cls =>
                     Some ("FOREIGN KEY(" +:+ fst p +:+ ") REFERENCES "
                           +:+ _table_name other_cls +:+ "(rowid)")
                 | _ => None
                 end) (List.filter public items).
Proof.
  revert columns w. induction items as [|[field_name field] rest IH]; intros columns w Hloop.
  - injection Hloop as <- <-. by rewrite app_nil_r.
  - rewrite for_each_cons in Hloop.
    apply bind_inv_Return in Hloop as (columns1 & w1 & Hstep & Hrest).
    destruct (IH _ _ Hrest) as (-> & ->).
    rewrite filter_public_cons. cbn [fst].
    destruct (startswith_underscore field_name).
    + by injection Hstep as <- <-.
    + apply bind_inv_Return in Hstep as (constr & w2 & Hc & Hstep).
      unfold lift in Hc. injection Hc as Hc <-.
      destruct field; cbn in Hc; try discriminate Hc; injection Hc as <-;
        injection Hstep as <- <-; cbn [omap snd fst]; try done.
      by rewrite <- app_assoc.
Qed.

#[local] Instance lifecycle_only_preorder : PreOrder lifecycle_only.
Proof.
  split.
  - intros w. repeat split. exists []. by rewrite app_nil_r.
  - intros w1 w2 w3 (Hh & Hn & Hc & l & Hl & Hall) (Hh' & Hn' & Hc' & l' & Hl' & Hall').
    split; [congruence |]. split; [congruence |]. split; [congruence |].
    exists (l ++ l'). split; [by rewrite Hl', Hl, app_assoc | by apply Forall_app].
Qed.

Lemma execute_lifecycle_only sql :
  MiniSqlite.lifecycle sql → always lifecycle_only (execute sql).
Proof.
  intros Hsql w. unfold execute, lifecycle_only, is_connected, log_extends.
  cbn [bound_method_truth negb].
  destruct (DB_CONNECTION w) as [db|] eqn:Hdb; cbn [snd].
  - assert (Forall MiniSqlite.lifecycle [sql]) as Hall by (by constructor).
    destruct (sqlite3_execute sql db) as [|[]]; cbn; eauto 10.
  - rewrite Hdb. repeat split. exists []. by rewrite app_nil_r.
Qed.

(** X3: [_ensure_table_exists] executes nothing but statements that begin
    with [SELECT] or with [CREATE TABLE], for the class and for the classes
    it refers to: it extends the log by them, and leaves the heap, the
    name of the database and the fact of being connected as they were,
    whether it returns or fails. *)
Theorem ensure_only_lifecycle (cls : ModelCls) (w : World) :
  heap (snd (_ensure_table_exists cls w)) = heap w
  ∧ DB_NAME (snd (_ensure_table_exists cls w)) = DB_NAME w
  ∧ is_connected (snd (_ensure_table_exists cls w)) = is_connected w
  ∧ ∃ statements,
      executed (snd (_ensure_table_exists cls w)) = executed w ++ statements
      ∧ Forall MiniSqlite.lifecycle statements.
Proof.
  apply (always_ensure_table_exists lifecycle_only MiniSqlite.lifecycle).
  - intros rest. left. eauto.
  - intros rest. right. eauto.
  - apply execute_lifecycle_only.
Qed.

#[local] Instance log_grows_preorder : PreOrder log_grows.
Proof.
  split.
  - intros w. exists []. by rewrite app_nil_r.
  - intros w1 w2 w3 (l & Hl & _) (l' & Hl' & _). exists (l ++ l').
    split; [by rewrite Hl', Hl, app_assoc | by apply Forall_true].
Qed.

Lemma execute_log_grows sql : always log_grows (execute sql).
Proof.
  intros w. unfold execute, log_grows, log_extends. cbn [bound_method_truth negb].
  destruct (DB_CONNECTION w) as [db|]; cbn [snd].
  - destruct (sqlite3_execute sql db) as [|[]]; cbn; exists [sql];
      (split; [done | by apply Forall_true]).
  - exists []. by rewrite app_nil_r.
Qed.

Lemma create_table_log_grows cls : always log_grows (_create_table cls).
Proof.
  apply (always_create_table log_grows (λ _, True)); try done.
  intros sql _. apply execute_log_grows.
Qed.

Lemma declare_step_log_grows item columns :
  always log_grows (declare_step _create_table item columns).
Proof.
  destruct item as [field_name field]. unfold declare_step. apply always_bind; [apply _ | |].
  - destruct field; try apply always_ret, _.
    apply (always_ensure_with log_grows (λ _, True)); try done.
    + intros sql _. apply execute_log_grows.
    + apply create_table_log_grows.
  - intros _. destruct (startswith_underscore field_name); [apply always_ret, _ |].
    apply always_bind; [apply _ | apply always_lift, _ | intros c; apply always_ret, _].
Qed.

Lemma declare_loop_log_grows items columns :
  always log_grows (for_each items (declare_step _create_table) columns).
Proof.
  apply always_for_each; [apply _ |]. apply Forall_forall. intros item _ s.
  apply declare_step_log_grows.
Qed.

Lemma table_exists_log cls w b w' :
  _table_exists cls w = (Return b, w') →
  executed w' = executed w ++ [probe_statement cls].
Proof.
  unfold _table_exists. intros Hp.
  apply bind_inv_Return in Hp as (c & w1 & Hex & Hp).
  apply execute_log in Hex.
  destruct (fetchone c) as [row|]; [|done].
  destruct (row !! 0%nat); [|done]. by injection Hp as _ <-.
Qed.

(** The first loop of [_create_table] probes the table of every class
    the namespace refers to. *)
Lemma declare_loop_probes items field_name other_cls :
  (field_name, ForeignKeyField other_cls) ∈ items →
  ∀ columns w columns' w',
    for_each items (declare_step _create_table) columns w = (Return columns', w') →
    ∃ before after,
      executed w' = executed w ++ before ++ [probe_statement other_cls] ++ after.
Proof.
  intros Hin. induction items as [|item0 items IH]; [by apply elem_of_nil in Hin |].
  intros columns w columns' w' Hloop.
  rewrite for_each_cons in Hloop.
  apply bind_inv_Return in Hloop as (columns1 & w1 & Hstep & Hrest).
  apply elem_of_cons in Hin as [<- | Hin].
  - pose proof (declare_loop_log_grows items columns1 w1) as (after2 & Hafter2 & _).
    rewrite Hrest in Hafter2. cbn [snd] in Hafter2.
    unfold declare_step in Hstep.
    apply bind_inv_Return in Hstep as ([] & wa & Hens & Hstep).
    assert (executed w1 = executed wa) as Hsame.
    { destruct (startswith_underscore field_name); [by injection Hstep as _ <- |].
      apply bind_inv_Return in Hstep as (c & ? & Hc & [= _ <-]).
      unfold lift in Hc. by injection Hc as _ <-. }
    unfold ensure_with in Hens.
    apply bind_inv_Return in Hens as (b & wb & Hprobe & Hens).
    apply table_exists_log in Hprobe.
    assert (∃ after1, executed wa = executed wb ++ after1) as (after1 & Hafter1).
    { destruct b; cbn [negb] in Hens.
      - injection Hens as <-. exists []. by rewrite app_nil_r.
      - pose proof (create_table_log_grows other_cls wb) as (l & Hl & _).
        rewrite Hens in Hl. eauto. }
    exists [], (after1 ++ after2).
    rewrite Hafter2, Hsame, Hafter1, Hprobe. cbn [app]. by rewrite <- !app_assoc.
  - pose proof (declare_step_log_grows item0 columns w) as (l & Hl & _).
    rewrite Hstep in Hl. cbn [snd] in Hl.
    destruct (IH Hin _ _ _ _ Hrest) as (before & after & Hlog).
    exists (l ++ before), after. rewrite Hlog, Hl. by rewrite <- !app_assoc.
Qed.

Lemma declare_step_plain create field_name field columns w :
  is_reference field = false →
  declare_step create (field_name, field) columns w
  = (if startswith_underscore field_name then Return columns
     else match column_declaration field field_name with
          | Return c => Return (columns ++ [c])
          | Raise e => Raise e
          end, w).
Proof.
  intros Hfield. unfold declare_step, bind, lift, ret.
  destruct field; try discriminate Hfield;
    destruct (startswith_underscore field_name); try reflexivity;
    by destruct (column_declaration _ field_name).
Qed.

(** X4: the statement [_create_table] executes last, when it returns, is
    [CREATE TABLE <name> (...)] over the declarations of all the schema
    fields in schema order followed by the constraints of the reference
    fields in schema order; the heap is as it was.  For a class that
    refers to no other class this statement is all that [_create_table]
    does. *)
Theorem create_table_statement (cls : ModelCls) :
  (∀ w w',
     _create_table cls w = (Return tt, w') →
     ∃ decls,
       declarations cls = Return decls
       ∧ length decls = length (fieldsOf cls)
       ∧ heap w' = heap w
       ∧ ∃ before,
           executed w' = executed w ++ before
             ++ [create_statement (_table_name cls) (decls ++ foreign_keys cls)])
  ∧ (∀ decls w,
       Forall (λ item, is_reference (snd item) = false) (vars cls) →
       declarations cls = Return decls →
       _create_table cls w
       = (execute (create_statement (_table_name cls) decls) ;;; ret tt) w).
Proof.
  split.
  - intros w w' Hc.
    pose proof (always_create_table same_heap (λ _, True) (λ _, I) (λ _, I)
                  (λ sql _, execute_same_heap sql) cls w) as Hheap.
    rewrite Hc in Hheap. cbn [snd] in Hheap.
    destruct cls as [name ns]. cbn [_create_table] in Hc.
    apply bind_inv_Return in Hc as (columns & w1 & Hloop & Hc).
    apply bind_inv_Return in Hc as (columns' & w2 & Hcons & Hc).
    apply bind_inv_Return in Hc as (c & w3 & Hex & [= <-]).
    pose proof (declare_loop_log_grows ns [] w) as (before & Hbefore & _).
    cbn [vars] in Hloop. rewrite Hloop in Hbefore. cbn [snd] in Hbefore.
    apply declare_loop_spec in Hloop as (decls & -> & Hdecls).
    unfold constraints_loop in Hcons. cbn [vars] in Hcons.
    apply constraints_from in Hcons as (-> & ->).
    exists decls. split; [by apply Forall2_outcome_map |].
    split; [symmetry; by eapply Forall2_length |]. split; [exact Hheap |].
    exists before. rewrite (execute_log _ _ _ _ Hex), Hbefore, <- app_assoc.
    do 3 f_equal. rewrite append_columns_all. unfold create_statement. cbn [_table_name].
    by rewrite !string_app_assoc.
  - intros decls w Hplain Hdecls. destruct cls as [name ns].
    unfold declarations, fieldsOf in Hdecls. cbn [vars] in Hplain, Hdecls.
    cbn [_create_table _table_name vars].
    assert (∀ items columns d,
              Forall (λ item, is_reference (snd item) = false) items →
              outcome_map (λ p, column_declaration (snd p) (fst p))
                (List.filter public items) = Return d →
              for_each items (declare_step _create_table) columns w
              = (Return (columns ++ d), w)) as Hloop.
    { clear. intros items. induction items as [|[field_name field] items IH];
        intros columns d Hplain Hd.
      - injection Hd as <-. by rewrite app_nil_r.
      - apply Forall_cons in Hplain as [Hfield Hplain]. cbn [snd] in Hfield.
        rewrite filter_public_cons in Hd. cbn [fst] in Hd.
        rewrite for_each_cons. unfold bind at 1.
        rewrite declare_step_plain by done.
        destruct (startswith_underscore field_name); [by apply IH |].
        cbn [outcome_map fst snd] in Hd.
        destruct (column_declaration field field_name) as [c|]; [|done].
        destruct (outcome_map _ _) as [d'|] eqn:Hd'; [|done].
        injection Hd as <-. rewrite (IH _ d') by done.
        by rewrite <- app_assoc. }
    assert (∀ items columns d,
              Forall (λ item, is_reference (snd item) = false) items →
              outcome_map (λ p, column_declaration (snd p) (fst p))
                (List.filter public items) = Return d →
              constraints_loop (Class name items) columns w = (Return columns, w))
      as Hcons.
    { clear. unfold constraints_loop. cbn [vars]. intros items.
      induction items as [|[field_name field] items IH]; intros columns d Hplain Hd;
        [done |].
      apply Forall_cons in Hplain as [Hfield Hplain]. cbn [snd] in Hfield.
      rewrite filter_public_cons in Hd. cbn [fst] in Hd.
      rewrite for_each_cons. unfold bind at 1.
      destruct (startswith_underscore field_name); [by apply (IH _ d) |].
      cbn [outcome_map fst snd] in Hd.
      destruct (column_declaration field field_name) as [c|] eqn:Hc; [|done].
      destruct (outcome_map _ _) as [d'|] eqn:Hd'; [|done].
      unfold bind, lift.
      destruct field; try discriminate Hfield; try discriminate Hc;
        cbn [get_post_declaration_constraint ret]; by apply (IH _ d'). }
    unfold bind at 1. rewrite (Hloop ns [] decls Hplain Hdecls). cbn [app].
    unfold bind at 1. rewrite (Hcons ns decls decls Hplain Hdecls).
    rewrite append_columns_all. unfold create_statement.
    by rewrite !string_app_assoc.
Qed.

(** X5: when [_create_table] returns, the table of every class that the
    namespace refers to (whatever the name of the attribute) was probed
    before the [CREATE TABLE] of the class itself was executed. *)
Theorem referenced_table_first (cls other_cls : ModelCls) (field_name : string)
    (w w' : World) :
  (field_name, ForeignKeyField other_cls) ∈ vars cls →
  _create_table cls w = (Return tt, w') →
  ∃ before after items,
    executed w' = executed w ++ before ++ [probe_statement other_cls] ++ after
                    ++ [create_statement (_table_name cls) items].
Proof.
  intros Hin Hc. destruct cls as [name ns]. cbn [vars] in Hin.
  cbn [_create_table] in Hc.
  apply bind_inv_Return in Hc as (columns & w1 & Hloop & Hc).
  apply bind_inv_Return in Hc as (columns' & w2 & Hcons & Hc).
  apply bind_inv_Return in Hc as (c & w3 & Hex & [= <-]).
  destruct (declare_loop_probes _ _ _ Hin _ _ _ _ Hloop) as (before & after & Hlog).
  unfold constraints_loop in Hcons. apply constraints_from in Hcons as (-> & _).
  exists before, after, columns'.
  rewrite (execute_log _ _ _ _ Hex), Hlog, <- !app_assoc. do 4 f_equal.
  rewrite append_columns_all. unfold create_statement. cbn [_table_name].
  by rewrite !string_app_assoc.
Qed.

(** X6: a class whose schema has a name bound to something that declares
    no column, a bare [Field()] or an object that is no field at all such
    as a method, is never created: [_create_table] ends in an exception
    from every world, and so does [save] of an instance of the class
    whenever the probe answers that the table is not there. *)
Theorem undeclarable_class (cls : ModelCls) (field_name : string) (field : ClassAttr)
    (e : Exn) :
  (field_name, field) ∈ fieldsOf cls →
  sqlite_type_name field = Raise e →
  (∀ w, ∃ e', fst (_create_table cls w) = Raise e')
  ∧ (∀ self o w w1,
       heap w !! self = Some o → inst_cls o = cls →
       _table_exists cls w = (Return false, w1) →
       ∃ e', fst (save self w) = Raise e').
Proof.
  intros Hin Htype.
  assert (∀ w, ∃ e', fst (_create_table cls w) = Raise e') as Hcreate.
  { intros w. destruct (_create_table cls w) as [[[]|e'] w'] eqn:Hc; [|by exists e'].
    destruct (create_table_spec _ _ _ Hc) as (decls & constraints & _ & Hdecls).
    apply list_elem_of_lookup in Hin as [i Hi].
    destruct (Forall2_lookup_l _ _ _ _ _ Hdecls Hi) as (d & _ & Hd).
    unfold column_declaration in Hd. cbn [fst snd] in Hd. by rewrite Htype in Hd. }
  split; [exact Hcreate |].
  intros self o w w1 Hself Hcls Hprobe. subst cls.
  unfold save. unfold bind at 1. unfold type_of, reading at 1, type_in. rewrite Hself.
  unfold bind at 1. unfold _ensure_table_exists, ensure_with. unfold bind at 1.
  rewrite Hprobe. cbn [negb]. destruct (Hcreate w1) as [e' He'].
  destruct (_create_table (inst_cls o) w1) as [[[]|e''] w2]; [done |]. by exists e''.
Qed.

End Lifecycle.

Section Saving.

Context `{External}.

Lemma outcome_map_ext {A B} (f g : A → Outcome B) l :
  (∀ x, x ∈ l → f x = g x) → outcome_map f l = outcome_map g l.
Proof.
  induction l as [|x l IH]; intros Hfg; [done |]. cbn.
  rewrite (Hfg x) by left. rewrite IH; [done |]. intros y Hy. apply Hfg. by right.
Qed.

Lemma outcome_map_first_Raise {A B} (f : A → Outcome B) l i x ys e :
  l !! i = Some x → outcome_map f (take i l) = Return ys → f x = Raise e →
  outcome_map f l = Raise e.
Proof.
  intros Hi Hpre Hx. rewrite <- (take_drop_middle l i x Hi), outcome_map_app, Hpre.
  cbn. by rewrite Hx.
Qed.

(** The three ways a [save] on an instance without identity can go. *)
Lemma save_insert_cases self o w :
  heap w !! self = Some o →
  inst_dict o !! "_id" = Some VNone →
  match _ensure_table_exists (inst_cls o) w with
  | (Return _, w1) =>
      match outcome_map (field_value (heap w) self) (fieldsOf (inst_cls o)) with
      | Return values =>
          save self w =
            (cursor <- execute (insert_statement (_table_name (inst_cls o)) values) ;;
             setattr self "_id" (lastrowid cursor)) w1
      | Raise e => save self w = (Raise e, w1)
      end
  | (Raise e, w1) => save self w = (Raise e, w1)
  end.
Proof.
  intros Hself Hid.
  destruct (_ensure_table_exists (inst_cls o) w) as [[[]|e] w1] eqn:Hens.
  - destruct (outcome_map _ _) as [values|e] eqn:Hvals.
    + by apply save_insert_closed.
    + pose proof (ensure_Return_heap _ _ _ Hens) as Hheap.
      unfold save. unfold bind at 1. unfold type_of, reading at 1, type_in.
      rewrite Hself. unfold bind at 1. rewrite Hens.
      unfold bind at 1. unfold getattr, reading at 1, getattr_in.
      rewrite Hheap, Hself, Hid. unfold bind at 1.
      by rewrite insert_columns_closed, Hheap, Hvals.
  - unfold save. unfold bind at 1. unfold type_of, reading at 1, type_in.
    rewrite Hself. unfold bind at 1. by rewrite Hens.
Qed.

(** X7: [save] of an instance one of whose schema fields was never
    assigned ends in the [KeyError] of [vars(self)[field_name]], when the
    table lifecycle went through and the fields before it convert: no
    [INSERT] and no [UPDATE] is executed, the world is the one the table
    lifecycle left, and the heap is as it was. *)
Theorem save_unassigned_field (self : nat) (o : Instance) (w w1 : World) (i : nat)
    (field_name : string) (field : ClassAttr) (_id : PyVal) (before : list PyVal) :
  heap w !! self = Some o →
  inst_dict o !! "_id" = Some _id →
  _ensure_table_exists (inst_cls o) w = (Return tt, w1) →
  fieldsOf (inst_cls o) !! i = Some (field_name, field) →
  outcome_map (field_value (heap w) self) (take i (fieldsOf (inst_cls o))) = Return before →
  field ≠ NonField →
  inst_dict o !! field_name = None →
  save self w = (Raise KeyError, w1) ∧ heap w1 = heap w.
Proof.
  intros Hself Hid Hens Hi Hbefore Hfield Hnone.
  split; [|by eapply ensure_Return_heap].
  assert (field_value (heap w) self (field_name, field) = Raise KeyError) as Hv.
  { unfold field_value, vars_self_in. cbn [fst snd]. rewrite Hself, Hnone.
    by destruct field. }
  pose proof (outcome_map_first_Raise _ _ _ _ _ _ Hi Hbefore Hv) as Hall.
  destruct (decide (_id = VNone)) as [-> | Hsaved].
  - pose proof (save_insert_cases _ _ _ Hself Hid) as Hcases.
    by rewrite Hens, Hall in Hcases.
  - pose proof (save_update_cases _ _ _ _ Hself Hid Hsaved) as Hcases.
    by rewrite Hens, Hall in Hcases.
Qed.

Lemma public_name_not_id (p : string * ClassAttr) : public p = true → fst p ≠ "_id".
Proof. unfold public. intros Hp Heq. by rewrite Heq in Hp. Qed.

(** The stored value of a field after [_id] of the instance was bound. *)
Lemma field_value_after_id h self o x p :
  h !! self = Some o →
  public p = true →
  (∀ v, inst_dict o !! fst p = Some v → v ≠ VObj self) →
  field_value (alter (set_dict "_id" x) self h) self p = field_value h self p.
Proof.
  intros Hself Hp Hnot. unfold field_value, vars_self_in.
  rewrite list_lookup_alter_eq, Hself. cbn [fmap option_fmap option_map set_dict inst_dict].
  rewrite lookup_insert_ne by (symmetry; by apply public_name_not_id).
  destruct (snd p) eqn:Hf; try reflexivity.
  destruct (inst_dict o !! fst p) as [v|] eqn:Hv; [|reflexivity].
  destruct v as [| | | | |a]; try reflexivity. cbn [convert_in]. unfold getattr_in.
  rewrite list_lookup_alter_ne; [done |]. intros <-. by apply (Hnot _ eq_refl).
Qed.

(** X8: the first [save] of an instance binds its [_id] to the identity
    the engine gave and changes nothing else in the heap; when that is not
    [None] the next [save] is the [UPDATE] of the row of that identity, and
    it writes the very values the [INSERT] wrote unless a field of the
    instance refers to the instance itself. *)
Theorem save_then_save (self : nat) (o : Instance) (w w' : World) :
  heap w !! self = Some o →
  inst_dict o !! "_id" = Some VNone →
  save self w = (Return tt, w') →
  ∃ values identity,
    outcome_map (field_value (heap w) self) (fieldsOf (inst_cls o)) = Return values
    ∧ last (executed w') = Some (insert_statement (_table_name (inst_cls o)) values)
    ∧ heap w' = alter (set_dict "_id" identity) self (heap w)
    ∧ getattr_in (heap w') self "_id" = Return identity
    ∧ (identity ≠ VNone →
       ∀ w1' values',
         _ensure_table_exists (inst_cls o) w' = (Return tt, w1') →
         outcome_map (field_value (heap w') self) (fieldsOf (inst_cls o)) = Return values' →
         save self w' =
           (execute (update_statement (_table_name (inst_cls o)) (fieldsOf (inst_cls o))
                       values' identity) ;;; ret tt) w1')
    ∧ ((∀ p v, p ∈ fieldsOf (inst_cls o) → inst_dict o !! fst p = Some v → v ≠ VObj self) →
       outcome_map (field_value (heap w') self) (fieldsOf (inst_cls o)) = Return values).
Proof.
  intros Hself Hid Hsave.
  pose proof (save_insert_cases _ _ _ Hself Hid) as Hcases.
  destruct (_ensure_table_exists (inst_cls o) w) as [[[]|e] w1] eqn:Hens;
    [|by rewrite Hcases in Hsave].
  pose proof (ensure_Return_heap _ _ _ Hens) as Hheap.
  destruct (outcome_map _ _) as [values|e] eqn:Hvals; [|by rewrite Hcases in Hsave].
  rewrite Hcases in Hsave.
  apply bind_inv_Return in Hsave as (cursor & w2 & Hex & Hset%setattr_inv).
  pose proof (execute_heap _ _ _ _ Hex) as Hheap2.
  assert (heap w' = alter (set_dict "_id" (lastrowid cursor)) self (heap w)) as Hw'.
  { subst w'. cbn [heap with_heap]. by rewrite Hheap2, Hheap. }
  assert (heap w' !! self = Some (set_dict "_id" (lastrowid cursor) o)) as Hself'.
  { by rewrite Hw', list_lookup_alter_eq, Hself. }
  exists values, (lastrowid cursor). split; [done |]. split.
  { subst w'. cbn [executed with_heap]. by rewrite (execute_log _ _ _ _ Hex), last_snoc. }
  split; [exact Hw' |]. split.
  { unfold getattr_in. rewrite Hself'. cbn. by rewrite lookup_insert_eq. }
  split.
  - intros Hsaved w1' values' Hens' Hvals'.
    apply (save_update_closed self (set_dict "_id" (lastrowid cursor) o)); try done.
    cbn. by rewrite lookup_insert_eq.
  - intros Hnot. rewrite Hw'. rewrite <- Hvals. apply outcome_map_ext.
    intros p Hp. apply (field_value_after_id _ _ o); [done | |].
    + by apply list_elem_of_In, filter_In in Hp as [_ Hp].
    + intros v. by apply Hnot.
Qed.

(** X9: a reference field converts to whatever [_id] the instance it
    holds has, whatever the class of that instance.  [save] of an instance
    that refers to a never-saved one does not save the target: with the
    table in place and the fields convertible it executes the [INSERT]
    with the text [None] in the column of the reference, and the target
    is in the heap as it was, without identity. *)
Theorem save_unsaved_reference (self target : nat) (o ot : Instance) (w w1 : World)
    (i : nat) (field_name : string) (other_cls : ModelCls) (values : list PyVal) :
  heap w !! self = Some o →
  inst_dict o !! "_id" = Some VNone →
  fieldsOf (inst_cls o) !! i = Some (field_name, ForeignKeyField other_cls) →
  inst_dict o !! field_name = Some (VObj target) →
  heap w !! target = Some ot →
  inst_dict ot !! "_id" = Some VNone →
  target ≠ self →
  _ensure_table_exists (inst_cls o) w = (Return tt, w1) →
  outcome_map (field_value (heap w) self) (fieldsOf (inst_cls o)) = Return values →
  values !! i = Some VNone
  ∧ map py_str values !! i = Some "None"
  ∧ save self w =
      (cursor <- execute (insert_statement (_table_name (inst_cls o)) values) ;;
       setattr self "_id" (lastrowid cursor)) w1
  ∧ heap (snd (save self w)) !! target = Some ot.
Proof.
  intros Hself Hid Hi Hfield Htarget Htid Hne Hens Hvals.
  pose proof (ensure_Return_heap _ _ _ Hens) as Hheap.
  destruct (outcome_map_lookup _ _ _ _ _ Hvals Hi) as (c & Hc & Hci).
  assert (c = VNone) as ->.
  { unfold field_value, vars_self_in in Hc. cbn [fst snd] in Hc.
    rewrite Hself, Hfield in Hc. cbn [convert_in] in Hc. unfold getattr_in in Hc.
    rewrite Htarget, Htid in Hc. by injection Hc as <-. }
  split; [exact Hci |]. split; [by rewrite list_lookup_fmap, Hci |].
  pose proof (save_insert_closed _ _ _ _ _ Hself Hid Hens Hvals) as Hsave.
  split; [exact Hsave |]. rewrite Hsave. unfold bind.
  destruct (execute _ w1) as [[cursor|e] w2] eqn:Hex;
    apply execute_heap in Hex; cbn [snd setattr heap with_heap].
  - rewrite list_lookup_alter_ne by done. by rewrite Hex, Hheap.
  - by rewrite Hex, Hheap.
Qed.

End Saving.

Section MoreDecoding.

Context `{External}.

Lemma decode_step_returns init obj vals field_name field idx w idx1 w1 :
  decode_step init obj vals (field_name, field) idx w = (Return idx1, w1) →
  if startswith_underscore field_name then idx1 = idx ∧ w1 = w
  else idx1 = S idx ∧ is_Some (vals !! idx).
Proof.
  unfold decode_step. destruct (startswith_underscore field_name); [by intros [= <- <-] |].
  intros Hs. apply bind_inv_Return in Hs as ([] & w2 & Hs & [= <- <-]).
  split; [done |].
  destruct field as [| | | | |other_cls|]; cbv beta iota in Hs;
    try (match type of Hs with
         | (lookup_method _ ;;; _) _ = _ =>
             apply bind_inv_Return in Hs as (? & ? & _ & Hs)
         end);
    apply bind_inv_Return in Hs as (v & ? & [Hv _]%vals_get_inv & _); eauto.
Qed.

Lemma decode_loop_extra init obj vals extra items :
  ∀ idx w,
    (idx + length (List.filter public items) ≤ length vals)%nat →
    for_each items (decode_step init obj (vals ++ extra)) idx w
    = for_each items (decode_step init obj vals) idx w.
Proof.
  induction items as [|[field_name field] items IH]; intros idx w Hlen; [done |].
  rewrite !for_each_cons. rewrite filter_public_cons in Hlen. cbn [fst] in Hlen.
  assert (decode_step init obj (vals ++ extra) (field_name, field) idx w
          = decode_step init obj vals (field_name, field) idx w) as Hstep.
  { unfold decode_step. destruct (startswith_underscore field_name); [done |].
    cbn [length] in Hlen.
    assert (vals_get (vals ++ extra) idx = vals_get vals idx) as Hg.
    { unfold vals_get. by rewrite lookup_app_l by lia. }
    by rewrite Hg. }
  unfold bind. rewrite Hstep.
  destruct (decode_step init obj vals (field_name, field) idx w) as [[idx1|e] w1] eqn:Hs;
    [|done].
  apply decode_step_returns in Hs.
  destruct (startswith_underscore field_name).
  - destruct Hs as [-> ->]. by apply IH.
  - destruct Hs as [-> _]. apply IH. cbn [length] in Hlen. lia.
Qed.

(** X10: a row with more values than the class has schema fields is
    decoded as the row without the values in excess: they are never
    read. *)
Theorem decode_ignores_excess (cls : ModelCls) (rowid : PyVal) (vals excess : list PyVal)
    (w : World) :
  (length (fieldsOf cls) ≤ length vals)%nat →
  init_from_db_tuple cls (rowid :: vals ++ excess) w
  = init_from_db_tuple cls (rowid :: vals) w.
Proof.
  intros Hlen. rewrite !init_from_db_tuple_cons. unfold bind at 1 3.
  by rewrite decode_loop_extra by (by rewrite <- fieldsOf_eq).
Qed.

Lemma decode_loop_reads init obj vals items :
  ∀ idx w idx' w',
    for_each items (decode_step init obj vals) idx w = (Return idx', w') →
    List.filter public items = [] ∨ (idx + length (List.filter public items) ≤ length vals)%nat.
Proof.
  induction items as [|[field_name field] items IH]; intros idx w idx' w' Hloop;
    [by left |].
  rewrite for_each_cons in Hloop.
  apply bind_inv_Return in Hloop as (idx1 & w1 & Hs%decode_step_returns & Hrest).
  rewrite filter_public_cons. cbn [fst].
  destruct (startswith_underscore field_name).
  - destruct Hs as [-> ->]. by eapply IH.
  - destruct Hs as [-> Hv%lookup_lt_is_Some]. right. cbn [length].
    destruct (IH _ _ _ _ Hrest) as [-> | Hlen]; cbn [length]; lia.
Qed.

Lemma alter_last {A} (f : A → A) (l : list A) (x : A) :
  alter f (length l) (l ++ [x]) = l ++ [f x].
Proof.
  replace (length l) with (length l + 0)%nat at 1 by lia. by rewrite alter_app_r.
Qed.

(** The loop of [init_from_db_tuple] over plain fields, from any position
    on, for the instance that is last in the heap. *)
Lemma decode_loop_plain vals items :
  Forall (λ item, public item = true → plain_field (snd item) = true) items →
  ∀ idx w h o,
    heap w = h ++ [o] →
    (idx + length (List.filter public items) ≤ length vals)%nat →
    for_each items (decode_step init_from_db_tuple (length h) vals) idx w
    = (Return (idx + length (List.filter public items))%nat,
       with_heap w (h ++ [ {| inst_cls := inst_cls o;
                              inst_dict := decoded_dict (List.filter public items)
                                             (drop idx vals) (inst_dict o) |} ])).
Proof.
  induction 1 as [|[field_name field] rest Hplain _ IH]; intros idx w h o Hheap Hlen.
  - cbn. rewrite Nat.add_0_r. unfold ret. f_equal. destruct w, o. cbn in *. by subst.
  - rewrite for_each_cons. rewrite filter_public_cons in Hlen |- *. cbn [fst] in Hlen |- *.
    unfold public in Hplain. cbn [fst snd] in Hplain.
    destruct (startswith_underscore field_name) eqn:Hu.
    + unfold bind, decode_step. rewrite Hu. by apply IH.
    + cbn [length] in Hlen.
      destruct (lookup_lt_is_Some_2 vals idx) as [v Hv]; [lia |].
      unfold bind. rewrite (decode_step_plain _ _ _ _ _ _ v Hu (Hplain eq_refl) Hv).
      rewrite Hheap, alter_last.
      rewrite (IH (S idx) _ h (set_dict field_name (unconvert field v) o))
        by (done || lia).
      rewrite (drop_S _ _ _ Hv). cbn [length zip zip_with foldl decoded_dict fst snd].
      replace (S idx + length (List.filter public rest))%nat
        with (idx + S (length (List.filter public rest)))%nat by lia.
      reflexivity.
Qed.

(** X11: a row of a class whose schema fields are all plain, with a value
    for each of them, is decoded without a statement and without the
    connection: [init_from_db_tuple] returns the next address of the heap
    and appends one instance there, whose [__dict__] binds every field to
    its unconverted value and [_id] to the leading element; nothing else
    of the world changes. *)
Theorem decode_plain_closed (cls : ModelCls) (rowid : PyVal) (vals : list PyVal)
    (w : World) :
  Forall (λ item, plain_field (snd item) = true) (fieldsOf cls) →
  (length (fieldsOf cls) ≤ length vals)%nat →
  init_from_db_tuple cls (rowid :: vals) w
  = (Return (length (heap w)),
     with_heap w (heap w ++ [decoded_instance cls rowid vals])).
Proof.
  intros Hplain Hlen. rewrite init_from_db_tuple_cons. unfold bind at 1.
  rewrite (decode_loop_plain vals (vars cls)) with (o := fresh cls) (h := heap w).
  - unfold bind, setattr, ret. cbn [with_heap heap]. rewrite alter_last. done.
  - apply Forall_forall. intros item Hin Hpub.
    rewrite Forall_forall in Hplain. apply Hplain.
    apply list_elem_of_In, filter_In. split; [by apply list_elem_of_In | done].
  - done.
  - by rewrite <- fieldsOf_eq.
Qed.

End MoreDecoding.

Section ShortRows.

Context `{External}.

Lemma decode_step_plain_short obj vals field_name field idx w :
  startswith_underscore field_name = false →
  plain_field field = true →
  vals !! idx = None →
  decode_step init_from_db_tuple obj vals (field_name, field) idx w
  = (Raise IndexError, w).
Proof.
  intros Hu Hp Hv. unfold decode_step. rewrite Hu.
  destruct field; try discriminate Hp;
    unfold bind, lookup_method, vals_get, ret, raise; by rewrite Hv.
Qed.

(** The loop of [init_from_db_tuple] over plain fields, on values that
    end before the fields do. *)
Lemma decode_loop_short obj vals items :
  Forall (λ item, public item = true → plain_field (snd item) = true) items →
  ∀ idx w,
    (idx ≤ length vals < idx + length (List.filter public items))%nat →
    ∃ w',
      for_each items (decode_step init_from_db_tuple obj vals) idx w
      = (Raise IndexError, w')
      ∧ length (heap w') = length (heap w)
      ∧ same_connection w w'.
Proof.
  induction 1 as [|[field_name field] rest Hplain _ IH]; intros idx w Hlen.
  - cbn in Hlen. lia.
  - rewrite for_each_cons. rewrite filter_public_cons in Hlen. cbn [fst] in Hlen.
    unfold public in Hplain. cbn [fst snd] in Hplain.
    destruct (startswith_underscore field_name) eqn:Hu.
    + unfold bind, decode_step. rewrite Hu. by apply IH.
    + cbn [length] in Hlen. unfold bind.
      destruct (vals !! idx) as [v|] eqn:Hv.
      * apply lookup_lt_Some in Hv as Hlt.
        rewrite (decode_step_plain _ _ _ _ _ _ v Hu (Hplain eq_refl) Hv).
        destruct (IH (S idx)
                    (with_heap w (alter (set_dict field_name (unconvert field v)) obj
                                    (heap w)))) as (w' & -> & Hheap & Hconn); [lia |].
        exists w'. split; [done |]. cbn in Hheap. rewrite length_alter in Hheap.
        split; [done |]. exact Hconn.
      * rewrite (decode_step_plain_short _ _ _ _ _ _ Hu (Hplain eq_refl) Hv).
        exists w. by repeat split.
Qed.

(** X12: a row that is too short is never decoded.  The empty tuple ends
    in the [ValueError] of the unpacking; a row with fewer values than
    the class has schema fields never gives an instance, and for a class
    of plain fields it ends in the [IndexError] of [vals[idx]].  In both
    cases the instance that [cls()] made first stays in the heap, and the
    connection and the log are as they were. *)
Theorem decode_short_row (cls : ModelCls) (rowid : PyVal) (vals : list PyVal) (w : World) :
  init_from_db_tuple cls [] w = (Raise ValueError, with_heap w (heap w ++ [fresh cls]))
  ∧ ((length vals < length (fieldsOf cls))%nat →
     (∀ obj w', init_from_db_tuple cls (rowid :: vals) w ≠ (Return obj, w'))
     ∧ (Forall (λ item, plain_field (snd item) = true) (fieldsOf cls) →
        ∃ w', init_from_db_tuple cls (rowid :: vals) w = (Raise IndexError, w')
          ∧ length (heap w') = S (length (heap w))
          ∧ same_connection w w')).
Proof.
  split; [by destruct cls |]. intros Hlen. split.
  - intros obj w' Hinit. rewrite init_from_db_tuple_cons in Hinit.
    apply bind_inv_Return in Hinit as (idx' & w2 & Hloop & _).
    apply decode_loop_reads in Hloop. rewrite <- fieldsOf_eq in Hloop.
    destruct Hloop as [Hnil | Hle]; [rewrite Hnil in Hlen; cbn in Hlen |]; lia.
  - intros Hplain. rewrite init_from_db_tuple_cons. unfold bind at 1.
    destruct (decode_loop_short (length (heap w)) vals (vars cls)) with
      (idx := 0%nat) (w := with_heap w (heap w ++ [fresh cls]))
      as (w' & -> & Hheap & Hconn).
    + apply Forall_forall. intros item Hin Hpub.
      rewrite Forall_forall in Hplain. apply Hplain.
      apply list_elem_of_In, filter_In. split; [by apply list_elem_of_In | done].
    + rewrite <- fieldsOf_eq. lia.
    + exists w'. split; [done |]. split; [|exact Hconn].
      rewrite Hheap. cbn. rewrite length_app. cbn. lia.
Qed.

(** X13: there is no identity map.  Indexing a query set twice at the
    same position gives two instances at two addresses: the second is
    new, the first stays as it was, and both have the class of the query
    set, the same [_id] and the same value in every plain field. *)
Theorem getitem_twice (qs : QuerySet) (key : Z) (w w1 w2 : World) (obj1 obj2 : nat) :
  NoDup (fst <$> fieldsOf (model_cls qs)) →
  QuerySet_getitem qs key w = (Return obj1, w1) →
  QuerySet_getitem qs key w1 = (Return obj2, w2) →
  (obj1 < obj2)%nat
  ∧ ∃ o1 o2 rowid,
      heap w1 !! obj1 = Some o1
      ∧ heap w2 !! obj1 = Some o1
      ∧ heap w2 !! obj2 = Some o2
      ∧ inst_cls o1 = model_cls qs ∧ inst_cls o2 = model_cls qs
      ∧ inst_dict o1 !! "_id" = Some rowid ∧ inst_dict o2 !! "_id" = Some rowid
      ∧ ∀ field_name field,
          (field_name, field) ∈ fieldsOf (model_cls qs) →
          plain_field field = true →
          ∃ v, inst_dict o1 !! field_name = Some v ∧ inst_dict o2 !! field_name = Some v.
Proof.
  intros Hnodup. unfold QuerySet_getitem.
  destruct (py_index (items qs) key) as [tup|]; [|done]. intros Hfirst Hsecond.
  destruct (decode_spec _ _ _ _ _ Hfirst)
    as (rowid & vals & trace1 & o1 & -> & -> & _ & _ & Ho1 & Hcls1 & Hid1 & Hfields1).
  destruct (decode_spec _ _ _ _ _ Hsecond)
    as (rowid' & vals' & trace2 & o2 & [= <- <-] & -> & _ & Hkeep & Ho2 & Hcls2 & Hid2
        & Hfields2).
  apply lookup_lt_Some in Ho1 as Hlt. split; [exact Hlt |].
  exists o1, o2, rowid. split; [exact Ho1 |]. split; [by rewrite Hkeep |].
  split; [exact Ho2 |]. split; [exact Hcls1 |]. split; [exact Hcls2 |].
  split; [exact Hid1 |]. split; [exact Hid2 |].
  intros field_name field [i Hi]%list_elem_of_lookup Hplain.
  destruct (Hfields1 Hnodup i _ Hi) as (v & wa & x & wm & Hv & _ & _ & Hs1 & Hx1 & _).
  destruct (Hfields2 Hnodup i _ Hi) as (v' & wa' & x' & wm' & Hv' & _ & _ & Hs2 & Hx2 & _).
  rewrite Hv in Hv'. injection Hv' as <-.
  apply (field_step_plain _ _ _ _ _ _ _ Hplain) in Hs1, Hs2. subst x x'.
  by exists (unconvert field v).
Qed.

(** The loop of [init_from_db_tuple] up to a reference whose row the
    engine does not find. *)
Lemma decode_loop_dangling obj vals field_name other_cls v db cursor db' post items :
  sqlite3_execute (load_statement other_cls v) db = inr (cursor, db') →
  fetchone cursor = None →
  ∀ pre idx w,
    List.filter public items = pre ++ (field_name, ForeignKeyField other_cls) :: post →
    Forall (λ item, plain_field (snd item) = true) pre →
    vals !! (idx + length pre)%nat = Some v →
    DB_CONNECTION w = Some db →
    ∃ w',
      for_each items (decode_step init_from_db_tuple obj vals) idx w
      = (Raise TypeError, w')
      ∧ executed w' = executed w ++ [load_statement other_cls v]
      ∧ length (heap w') = S (length (heap w)).
Proof.
  intros Hrun Hfetch.
  induction items as [|[name0 field0] items IH]; intros pre idx w Hitems Hpre Hv Hdb.
  - by destruct pre.
  - rewrite for_each_cons. rewrite filter_public_cons in Hitems. cbn [fst] in Hitems.
    destruct (startswith_underscore name0) eqn:Hu.
    + unfold bind, decode_step. rewrite Hu. by apply (IH pre).
    + destruct pre as [|p pre]; cbn [app] in Hitems.
      * injection Hitems as -> -> Hitems. cbn [length] in Hv. rewrite Nat.add_0_r in Hv.
        exists (with_heap
                  {| DB_NAME := DB_NAME w; DB_CONNECTION := Some db';
                     executed := executed w ++ [load_statement other_cls v];
                     heap := heap w |}
                  (heap w ++ [fresh other_cls])).
        split; [| split; [done | cbn; rewrite length_app; cbn; lia]].
        unfold bind at 1. unfold decode_step. rewrite Hu.
        unfold bind at 1. unfold bind at 1. unfold vals_get. rewrite Hv. cbn [ret].
        unfold bind at 1. unfold load_fk_field_with. unfold bind at 1.
        fold (load_statement other_cls v).
        rewrite (execute_connected _ _ _ Hdb), Hrun, Hfetch. reflexivity.
      * injection Hitems as <- Hitems. apply Forall_cons in Hpre as [Hplain Hpre]. cbn [snd] in Hplain.
        cbn [length] in Hv.
        destruct (lookup_lt_is_Some_2 vals idx) as [v0 Hv0];
          [apply lookup_lt_Some in Hv; lia |].
        unfold bind. rewrite (decode_step_plain _ _ _ _ _ _ v0 Hu Hplain Hv0).
        destruct (IH pre (S idx)
                    (with_heap w (alter (set_dict name0 (unconvert field0 v0)) obj
                                    (heap w)))) as (w' & -> & Hlog & Hheap); try done.
        { by replace (S idx + length pre)%nat with (idx + S (length pre))%nat by lia. }
        exists w'. split; [done |]. split; [exact Hlog |].
        rewrite Hheap. cbn. by rewrite length_alter.
Qed.

(** X14: a dangling reference.  When the fields before a reference field
    are plain and the selection of [load_fk_field] on the target table
    yields no row, decoding ends in the [TypeError] of unpacking [None]:
    that selection is the one statement executed, and two instances stay
    in the heap, the one being decoded and the empty one of the target
    class. *)
Theorem decode_dangling_reference (cls other_cls : ModelCls) (rowid v : PyVal)
    (vals : list PyVal) (w : World) (i : nat) (field_name : string)
    (db db' : Database) (cursor : Cursor) :
  fieldsOf cls !! i = Some (field_name, ForeignKeyField other_cls) →
  Forall (λ item, plain_field (snd item) = true) (take i (fieldsOf cls)) →
  vals !! i = Some v →
  DB_CONNECTION w = Some db →
  sqlite3_execute (load_statement other_cls v) db = inr (cursor, db') →
  fetchone cursor = None →
  ∃ w',
    init_from_db_tuple cls (rowid :: vals) w = (Raise TypeError, w')
    ∧ executed w' = executed w ++ [load_statement other_cls v]
    ∧ length (heap w') = S (S (length (heap w))).
Proof.
  intros Hi Hpre Hv Hdb Hrun Hfetch. rewrite init_from_db_tuple_cons. unfold bind at 1.
  destruct (decode_loop_dangling (length (heap w)) vals field_name other_cls v db cursor db'
              (drop (S i) (fieldsOf cls)) (vars cls) Hrun Hfetch
              (take i (fieldsOf cls)) 0%nat (with_heap w (heap w ++ [fresh cls])))
    as (w' & -> & Hlog & Hheap); try done.
  - rewrite <- fieldsOf_eq. symmetry. by apply take_drop_middle.
  - apply lookup_lt_Some in Hi. rewrite length_take, Nat.min_l by lia. exact Hv.
  - exists w'. split; [done |]. split; [exact Hlog |].
    rewrite Hheap. cbn. rewrite length_app. cbn. lia.
Qed.

End ShortRows.

Section Iterating.

Context `{External}.

Lemma each_cons {A B} (f : A → M B) x l :
  each f (x :: l) = (y <- f x ;; ys <- each f l ;; ret (y :: ys)).
Proof. reflexivity. Qed.

Lemma each_length {A B} (f : A → M B) l :
  ∀ w ys w', each f l w = (Return ys, w') → length ys = length l.
Proof.
  induction l as [|x l IH]; intros w ys w' Hl.
  - by injection Hl as <- <-.
  - rewrite each_cons in Hl.
    apply bind_inv_Return in Hl as (y & w1 & _ & Hl).
    apply bind_inv_Return in Hl as (ys' & w2 & Hl & [= <- <-]).
    cbn. f_equal. by eapply IH.
Qed.

Lemma getitem_at (qs : QuerySet) (i : nat) tup w :
  items qs !! i = Some tup →
  QuerySet_getitem qs (Z.of_nat i) w = init_from_db_tuple (model_cls qs) tup w.
Proof.
  intros Hi. unfold QuerySet_getitem, py_index. apply lookup_lt_Some in Hi as Hlt.
  assert ((0 <=? Z.of_nat i) && (Z.of_nat i <? Z.of_nat (length (items qs))) = true)
    as -> by lia.
  by rewrite Nat2Z.id, Hi.
Qed.

(** Iteration from any position on. *)
Lemma comprehension_from (q : QuerySet) (fuel : nat) :
  ∀ i w,
    (length (items q) - i < fuel)%nat →
    comprehension fuel {| idx := i; qs := q |} w
    = (l <- each (init_from_db_tuple (model_cls q)) (drop i (items q)) ;;
       ret (Some l)) w.
Proof.
  induction fuel as [|fuel IH]; intros i w Hfuel; [lia |].
  cbn [comprehension]. unfold bind at 1. unfold Iterator_next. cbn [idx qs].
  destruct (length (items q) <=? i)%nat eqn:Hend.
  - apply Nat.leb_le in Hend. by rewrite drop_ge.
  - apply Nat.leb_gt in Hend.
    destruct (lookup_lt_is_Some_2 (items q) i Hend) as [tup Htup].
    rewrite Htup, (drop_S _ _ _ Htup), each_cons. unfold bind.
    destruct (init_from_db_tuple (model_cls q) tup w) as [[elem|e] w1]; [|done].
    cbn [ret]. rewrite IH by lia. unfold bind.
    by destruct (each _ _ w1) as [[l|e] w2].
Qed.

Lemma each_getitem_from (q : QuerySet) :
  ∀ m i w,
    (i + m = length (items q))%nat →
    each (init_from_db_tuple (model_cls q)) (drop i (items q)) w
    = each (QuerySet_getitem q) (Z.of_nat <$> seq i m) w.
Proof.
  induction m as [|m IH]; intros i w Hlen.
  - by rewrite drop_ge by lia.
  - destruct (lookup_lt_is_Some_2 (items q) i) as [tup Htup]; [lia |].
    rewrite (drop_S _ _ _ Htup). cbn [seq fmap list_fmap]. rewrite !each_cons.
    unfold bind. rewrite (getitem_at _ _ _ _ Htup).
    destruct (init_from_db_tuple (model_cls q) tup w) as [[elem|e] w1]; [|done].
    by rewrite IH by lia.
Qed.

(** X15: iterating over a query set, with room for one call of
    [__next__] more than there are rows, decodes the rows of the snapshot
    once each, in order, and then stops; the instances are those that
    indexing at the positions [0], [1], ... [count - 1] gives, made in
    that order, and there are [count] of them. *)
Theorem iteration_visits_rows (q : QuerySet) (fuel : nat) (w : World) :
  (count q < fuel)%nat →
  comprehension fuel (QuerySet_iter q) w
  = (l <- each (init_from_db_tuple (model_cls q)) (items q) ;; ret (Some l)) w
  ∧ each (init_from_db_tuple (model_cls q)) (items q) w
    = each (QuerySet_getitem q) (Z.of_nat <$> seq 0 (count q)) w
  ∧ (∀ l w', comprehension fuel (QuerySet_iter q) w = (Return (Some l), w') →
       length l = count q
       ∧ Iterator_next {| idx := count q; qs := q |} w' = (Return StopIteration, w')).
Proof.
  intros Hfuel. unfold count in *.
  assert (comprehension fuel (QuerySet_iter q) w
          = (l <- each (init_from_db_tuple (model_cls q)) (items q) ;; ret (Some l)) w)
    as Hiter.
  { unfold QuerySet_iter. rewrite comprehension_from by lia. by rewrite drop_0. }
  split; [exact Hiter |]. split.
  - rewrite <- (each_getitem_from q (length (items q)) 0%nat) by lia. by rewrite drop_0.
  - intros l w'. rewrite Hiter. intros Hl.
    apply bind_inv_Return in Hl as (l' & w1 & Hl & [= <- <-]).
    split; [by eapply each_length |].
    unfold Iterator_next. cbn [idx qs]. by rewrite Nat.leb_refl.
Qed.

End Iterating.

Section Conversions.

Context `{External}.

(** X16: a Boolean field stores [1] or [0], and reads back the truth
    value of what was stored: for every value [v], converted to [c],
    [unconvert c] is [bool(v)] and converts to [c] again; a Boolean comes
    back as it was. *)
Theorem boolean_round_trip (h : list Instance) (v : PyVal) :
  ∃ c, convert_in h BooleanField v = Return c
    ∧ (c = VInt 0 ∨ c = VInt 1)
    ∧ unconvert BooleanField c = VBool (truthy v)
    ∧ convert_in h BooleanField (unconvert BooleanField c) = Return c
    ∧ (∀ b, v = VBool b → unconvert BooleanField c = v).
Proof.
  exists (VInt (if truthy v then 1 else 0)). split; [done |].
  destruct (truthy v) eqn:Hv; cbn; rewrite ?Hv.
  - split; [by right |]. split; [done |]. split; [done |]. intros b ->. cbn in Hv. by subst.
  - split; [by left |]. split; [done |]. split; [done |]. intros b ->. cbn in Hv. by subst.
Qed.

End Conversions.

(** * The further properties on the examples *)

Section MoreOnExamples.

Import MiniSqlite Examples MoreExamples.

#[local] Existing Instance external.

Lemma connector_invariant_witness :
  (is_connected w_connected = true → is_Some (DB_NAME w_connected))
  ∧ is_connected w_connected = true
  ∧ (is_connected (calls session w_connected) = true
     → is_Some (DB_NAME (calls session w_connected)))
  ∧ heap (calls session w_connected) = heap w_connected
  ∧ (∃ l, executed (calls session w_connected) = executed w_connected ++ l
        ∧ ∀ sql, sql ∈ l → CallExecute sql ∈ session)
  ∧ (∀ db_name msg,
       connect db_name (inl msg) (calls session w_connected)
       = (Raise (Sqlite3Error msg),
          {| DB_NAME := Some db_name;
             DB_CONNECTION := DB_CONNECTION (calls session w_connected);
             executed := executed (calls session w_connected);
             heap := heap (calls session w_connected) |}))
  ∧ executed (calls session w_connected)
    = ["SELECT rowid, * FROM Coord3D"; "SELECT rowid, * FROM Coord3D"]
  ∧ DB_NAME (calls (take 3 session) w_connected) = Some "missing/points.db"
  ∧ DB_CONNECTION (calls (take 3 session) w_connected) = Some memory.
Proof.
  assert (is_connected w_connected = true → is_Some (DB_NAME w_connected)) as Hw.
  { intros _. vm_compute. by exists ":memory:". }
  split; [exact Hw |]. split; [vm_compute; reflexivity |].
  pose proof (connector_invariant session w_connected Hw) as (Hname & Hheap & Hlog & Hfail).
  split; [exact Hname |]. split; [exact Hheap |]. split; [exact Hlog |].
  split; [exact Hfail |]. repeat split; vm_compute; reflexivity.
Defined.

Lemma without_connection_witness :
  DB_CONNECTION w_offline = None
  ∧ save 0%nat w_offline = (Raise AttributeError, w_offline)
  ∧ delete 0%nat w_offline = (Raise AttributeError, w_offline)
  ∧ objects Coord3D two_filters w_offline = (Raise AttributeError, w_offline)
  ∧ load_fk_field Course (VInt 1) w_offline = (Raise AttributeError, w_offline).
Proof.
  assert (DB_CONNECTION w_offline = None) as Hw by (vm_compute; reflexivity).
  assert (heap w_offline !! 0%nat = Some (default (fresh Coord3D) (heap w_offline !! 0%nat)))
    as Hself by (vm_compute; reflexivity).
  assert (outcome_map (condition (heap w_offline) Coord3D) two_filters
          = Return ["x=1"; "name='p1'"]) as Hconds by (vm_compute; reflexivity).
  split; [exact Hw |].
  exact (proj2 (without_connection 0%nat _ Coord3D two_filters _ Course (VInt 1)
                  w_offline Hw Hself Hconds)).
Defined.

Lemma create_table_statement_witness :
  _create_table EnrollmentRecord w_connected
  = (Return tt, snd (_create_table EnrollmentRecord w_connected))
  ∧ (∃ decls,
       declarations EnrollmentRecord = Return decls
       ∧ length decls = length (fieldsOf EnrollmentRecord)
       ∧ heap (snd (_create_table EnrollmentRecord w_connected)) = heap w_connected
       ∧ ∃ before,
           executed (snd (_create_table EnrollmentRecord w_connected))
           = executed w_connected ++ before
               ++ [create_statement (_table_name EnrollmentRecord)
                     (decls ++ foreign_keys EnrollmentRecord)])
  ∧ Forall (λ item, is_reference (snd item) = false) (vars Coord3D)
  ∧ declarations Coord3D = Return ["x INTEGER"; "y INTEGER"; "z INTEGER"; "name TEXT"]
  ∧ _create_table Coord3D w_connected
    = (execute (create_statement (_table_name Coord3D)
                  ["x INTEGER"; "y INTEGER"; "z INTEGER"; "name TEXT"]) ;;; ret tt)
        w_connected.
Proof.
  assert (_create_table EnrollmentRecord w_connected
          = (Return tt, snd (_create_table EnrollmentRecord w_connected))) as Hc
    by (vm_compute; reflexivity).
  assert (Forall (λ item, is_reference (snd item) = false) (vars Coord3D)) as Hplain.
  { apply (bool_decide_unpack _). vm_compute. exact I. }
  assert (declarations Coord3D = Return ["x INTEGER"; "y INTEGER"; "z INTEGER"; "name TEXT"])
    as Hdecls by (vm_compute; reflexivity).
  split; [exact Hc |].
  split; [exact (proj1 (create_table_statement EnrollmentRecord) _ _ Hc) |].
  split; [exact Hplain |]. split; [exact Hdecls |].
  exact (proj2 (create_table_statement Coord3D) _ w_connected Hplain Hdecls).
Defined.

Lemma referenced_table_first_witness :
  ("course", ForeignKeyField Course) ∈ vars EnrollmentRecord
  ∧ _create_table EnrollmentRecord w_connected
    = (Return tt, snd (_create_table EnrollmentRecord w_connected))
  ∧ ∃ before after items,
      executed (snd (_create_table EnrollmentRecord w_connected))
      = executed w_connected ++ before ++ [probe_statement Course] ++ after
          ++ [create_statement (_table_name EnrollmentRecord) items].
Proof.
  assert (("course", ForeignKeyField Course) ∈ vars EnrollmentRecord) as Hin.
  { apply (list_elem_of_lookup_2 _ 1%nat). vm_compute. reflexivity. }
  assert (_create_table EnrollmentRecord w_connected
          = (Return tt, snd (_create_table EnrollmentRecord w_connected))) as Hc
    by (vm_compute; reflexivity).
  split; [exact Hin |]. split; [exact Hc |].
  exact (referenced_table_first EnrollmentRecord Course "course" w_connected _ Hin Hc).
Defined.

Lemma undeclarable_class_witness :
  ("describe", NonField) ∈ fieldsOf Tagged
  ∧ sqlite_type_name NonField = Raise AttributeError
  ∧ (∀ w, ∃ e', fst (_create_table Tagged w) = Raise e')
  ∧ _table_exists Tagged w_tagged = (Return false, snd (_table_exists Tagged w_tagged))
  ∧ ∃ e', fst (save 0%nat w_tagged) = Raise e'.
Proof.
  assert (("describe", NonField) ∈ fieldsOf Tagged) as Hin.
  { apply (list_elem_of_lookup_2 _ 1%nat). vm_compute. reflexivity. }
  assert (sqlite_type_name NonField = Raise AttributeError) as Htype by reflexivity.
  assert (heap w_tagged !! 0%nat = Some (default (fresh Tagged) (heap w_tagged !! 0%nat)))
    as Hself by (vm_compute; reflexivity).
  assert (inst_cls (default (fresh Tagged) (heap w_tagged !! 0%nat)) = Tagged) as Hcls
    by (vm_compute; reflexivity).
  assert (_table_exists Tagged w_tagged = (Return false, snd (_table_exists Tagged w_tagged)))
    as Hprobe by (vm_compute; reflexivity).
  split; [exact Hin |]. split; [exact Htype |].
  split; [exact (proj1 (undeclarable_class Tagged _ _ _ Hin Htype)) |].
  split; [exact Hprobe |].
  exact (proj2 (undeclarable_class Tagged _ _ _ Hin Htype) 0%nat _ w_tagged _
           Hself Hcls Hprobe).
Defined.

Lemma save_unassigned_field_witness :
  fieldsOf Coord3D !! 1%nat = Some ("y", IntField)
  ∧ getattr_in (heap w_partial) 0%nat "x" = Return (VInt 1)
  ∧ getattr_in (heap w_partial) 0%nat "y" = Raise AttributeError
  ∧ save 0%nat w_partial = (Raise KeyError, snd (_ensure_table_exists Coord3D w_partial))
  ∧ heap (snd (_ensure_table_exists Coord3D w_partial)) = heap w_partial.
Proof.
  set (o := default (fresh Coord3D) (heap w_partial !! 0%nat)).
  assert (heap w_partial !! 0%nat = Some o) as Hself by (vm_compute; reflexivity).
  assert (inst_dict o !! "_id" = Some VNone) as Hid by (vm_compute; reflexivity).
  assert (_ensure_table_exists (inst_cls o) w_partial
          = (Return tt, snd (_ensure_table_exists Coord3D w_partial))) as Hens
    by (vm_compute; reflexivity).
  assert (fieldsOf (inst_cls o) !! 1%nat = Some ("y", IntField)) as Hi
    by (vm_compute; reflexivity).
  assert (outcome_map (field_value (heap w_partial) 0%nat) (take 1 (fieldsOf (inst_cls o)))
          = Return [VInt 1]) as Hbefore by (vm_compute; reflexivity).
  assert (IntField ≠ NonField) as Hfield by discriminate.
  assert (inst_dict o !! "y" = None) as Hnone by (vm_compute; reflexivity).
  split; [exact Hi |]. split; [vm_compute; reflexivity |].
  split; [vm_compute; reflexivity |].
  exact (save_unassigned_field 0%nat o w_partial _ 1%nat "y" IntField VNone [VInt 1]
           Hself Hid Hens Hi Hbefore Hfield Hnone).
Defined.

Lemma save_then_save_witness :
  heap w_made !! 0%nat = Some p1_made
  ∧ inst_dict p1_made !! "_id" = Some VNone
  ∧ save 0%nat w_made = (Return tt, snd (save 0%nat w_made))
  ∧ ∃ values identity,
      outcome_map (field_value (heap w_made) 0%nat) (fieldsOf (inst_cls p1_made))
      = Return values
      ∧ last (executed (snd (save 0%nat w_made)))
        = Some (insert_statement (_table_name (inst_cls p1_made)) values)
      ∧ heap (snd (save 0%nat w_made))
        = alter (set_dict "_id" identity) 0%nat (heap w_made)
      ∧ getattr_in (heap (snd (save 0%nat w_made))) 0%nat "_id" = Return identity
      ∧ (identity ≠ VNone →
         ∀ w1' values',
           _ensure_table_exists (inst_cls p1_made) (snd (save 0%nat w_made))
           = (Return tt, w1') →
           outcome_map (field_value (heap (snd (save 0%nat w_made))) 0%nat)
             (fieldsOf (inst_cls p1_made)) = Return values' →
           save 0%nat (snd (save 0%nat w_made)) =
             (execute (update_statement (_table_name (inst_cls p1_made))
                         (fieldsOf (inst_cls p1_made)) values' identity) ;;; ret tt) w1')
      ∧ ((∀ p v, p ∈ fieldsOf (inst_cls p1_made) →
                 inst_dict p1_made !! fst p = Some v → v ≠ VObj 0%nat) →
         outcome_map (field_value (heap (snd (save 0%nat w_made))) 0%nat)
           (fieldsOf (inst_cls p1_made)) = Return values).
Proof.
  assert (heap w_made !! 0%nat = Some p1_made) as Hself by (vm_compute; reflexivity).
  assert (inst_dict p1_made !! "_id" = Some VNone) as Hid by (vm_compute; reflexivity).
  assert (save 0%nat w_made = (Return tt, snd (save 0%nat w_made))) as Hsave
    by (vm_compute; reflexivity).
  split; [exact Hself |]. split; [exact Hid |]. split; [exact Hsave |].
  exact (save_then_save 0%nat p1_made w_made _ Hself Hid Hsave).
Defined.

Lemma save_unsaved_reference_witness :
  getattr_in (heap w_pending) 1%nat "course" = Return (VObj 0%nat)
  ∧ getattr_in (heap w_pending) 0%nat "_id" = Return VNone
  ∧ [VNone] !! 0%nat = Some VNone
  ∧ map py_str [VNone] !! 0%nat = Some "None"
  ∧ save 1%nat w_pending =
      (cursor <- execute (insert_statement "EnrollmentRecord" [VNone]) ;;
       setattr 1%nat "_id" (lastrowid cursor))
        (snd (_ensure_table_exists EnrollmentRecord w_pending))
  ∧ heap (snd (save 1%nat w_pending)) !! 0%nat = heap w_pending !! 0%nat.
Proof.
  set (o := default (fresh EnrollmentRecord) (heap w_pending !! 1%nat)).
  set (ot := default (fresh Course) (heap w_pending !! 0%nat)).
  assert (heap w_pending !! 1%nat = Some o) as Hself by (vm_compute; reflexivity).
  assert (inst_dict o !! "_id" = Some VNone) as Hid by (vm_compute; reflexivity).
  assert (fieldsOf (inst_cls o) !! 0%nat = Some ("course", ForeignKeyField Course)) as Hi
    by (vm_compute; reflexivity).
  assert (inst_dict o !! "course" = Some (VObj 0%nat)) as Hfield
    by (vm_compute; reflexivity).
  assert (heap w_pending !! 0%nat = Some ot) as Htarget by (vm_compute; reflexivity).
  assert (inst_dict ot !! "_id" = Some VNone) as Htid by (vm_compute; reflexivity).
  assert (0%nat ≠ 1%nat) as Hne by discriminate.
  assert (_ensure_table_exists (inst_cls o) w_pending
          = (Return tt, snd (_ensure_table_exists EnrollmentRecord w_pending))) as Hens
    by (vm_compute; reflexivity).
  assert (outcome_map (field_value (heap w_pending) 1%nat) (fieldsOf (inst_cls o))
          = Return [VNone]) as Hvals by (vm_compute; reflexivity).
  split; [vm_compute; reflexivity |]. split; [vm_compute; reflexivity |].
  rewrite Htarget.
  exact (save_unsaved_reference 1%nat 0%nat o ot w_pending _ 0%nat "course" Course [VNone]
           Hself Hid Hi Hfield Htarget Htid Hne Hens Hvals).
Defined.

Lemma decode_ignores_excess_witness :
  (length (fieldsOf Coord3D) ≤ length [VInt 1; VInt 2; VInt 3; VStr "p1"])%nat
  ∧ init_from_db_tuple Coord3D
      (VInt 1 :: [VInt 1; VInt 2; VInt 3; VStr "p1"] ++ [VStr "more"; VInt 9]) w_saved
    = init_from_db_tuple Coord3D (VInt 1 :: [VInt 1; VInt 2; VInt 3; VStr "p1"]) w_saved.
Proof.
  assert (length (fieldsOf Coord3D) ≤ length [VInt 1; VInt 2; VInt 3; VStr "p1"])%nat
    as Hlen by (vm_compute; lia).
  split; [exact Hlen |].
  exact (decode_ignores_excess Coord3D (VInt 1) _ [VStr "more"; VInt 9] w_saved Hlen).
Defined.

Lemma decode_plain_closed_witness :
  Forall (λ item, plain_field (snd item) = true) (fieldsOf Coord3D)
  ∧ (length (fieldsOf Coord3D) ≤ length [VInt 1; VInt 2; VInt 3; VStr "p1"])%nat
  ∧ init_from_db_tuple Coord3D [VInt 1; VInt 1; VInt 2; VInt 3; VStr "p1"] w_saved
    = (Return (length (heap w_saved)),
       with_heap w_saved
         (heap w_saved
          ++ [decoded_instance Coord3D (VInt 1) [VInt 1; VInt 2; VInt 3; VStr "p1"]])).
Proof.
  assert (Forall (λ item, plain_field (snd item) = true) (fieldsOf Coord3D)) as Hplain.
  { apply (bool_decide_unpack _). vm_compute. exact I. }
  assert (length (fieldsOf Coord3D) ≤ length [VInt 1; VInt 2; VInt 3; VStr "p1"])%nat
    as Hlen by (vm_compute; lia).
  split; [exact Hplain |]. split; [exact Hlen |].
  exact (decode_plain_closed Coord3D (VInt 1) _ w_saved Hplain Hlen).
Defined.

Lemma decode_short_row_witness :
  (length [VInt 1; VInt 2] < length (fieldsOf Coord3D))%nat
  ∧ Forall (λ item, plain_field (snd item) = true) (fieldsOf Coord3D)
  ∧ (∀ obj w', init_from_db_tuple Coord3D [VInt 1; VInt 1; VInt 2] w_saved
               ≠ (Return obj, w'))
  ∧ ∃ w', init_from_db_tuple Coord3D [VInt 1; VInt 1; VInt 2] w_saved
          = (Raise IndexError, w')
      ∧ length (heap w') = S (length (heap w_saved))
      ∧ same_connection w_saved w'.
Proof.
  assert (length [VInt 1; VInt 2] < length (fieldsOf Coord3D))%nat as Hlen
    by (vm_compute; lia).
  assert (Forall (λ item, plain_field (snd item) = true) (fieldsOf Coord3D)) as Hplain.
  { apply (bool_decide_unpack _). vm_compute. exact I. }
  split; [exact Hlen |]. split; [exact Hplain |].
  destruct (proj2 (decode_short_row Coord3D (VInt 1) [VInt 1; VInt 2] w_saved) Hlen)
    as [Hnever Hindex].
  split; [exact Hnever | exact (Hindex Hplain)].
Defined.

Lemma getitem_twice_witness :
  NoDup (fst <$> fieldsOf (model_cls one_row))
  ∧ QuerySet_getitem one_row 0 w_saved
    = (Return 2%nat, snd (QuerySet_getitem one_row 0 w_saved))
  ∧ QuerySet_getitem one_row 0 (snd (QuerySet_getitem one_row 0 w_saved))
    = (Return 3%nat,
       snd (QuerySet_getitem one_row 0 (snd (QuerySet_getitem one_row 0 w_saved))))
  ∧ (2 < 3)%nat
  ∧ ∃ o1 o2 rowid,
      heap (snd (QuerySet_getitem one_row 0 w_saved)) !! 2%nat = Some o1
      ∧ heap (snd (QuerySet_getitem one_row 0 (snd (QuerySet_getitem one_row 0 w_saved))))
          !! 2%nat = Some o1
      ∧ heap (snd (QuerySet_getitem one_row 0 (snd (QuerySet_getitem one_row 0 w_saved))))
          !! 3%nat = Some o2
      ∧ inst_cls o1 = model_cls one_row ∧ inst_cls o2 = model_cls one_row
      ∧ inst_dict o1 !! "_id" = Some rowid ∧ inst_dict o2 !! "_id" = Some rowid
      ∧ ∀ field_name field,
          (field_name, field) ∈ fieldsOf (model_cls one_row) →
          plain_field field = true →
          ∃ v, inst_dict o1 !! field_name = Some v ∧ inst_dict o2 !! field_name = Some v.
Proof.
  assert (NoDup (fst <$> fieldsOf (model_cls one_row))) as Hnodup.
  { apply (bool_decide_unpack _). vm_compute. exact I. }
  assert (QuerySet_getitem one_row 0 w_saved
          = (Return 2%nat, snd (QuerySet_getitem one_row 0 w_saved))) as Hfirst
    by (vm_compute; reflexivity).
  assert (QuerySet_getitem one_row 0 (snd (QuerySet_getitem one_row 0 w_saved))
          = (Return 3%nat,
             snd (QuerySet_getitem one_row 0 (snd (QuerySet_getitem one_row 0 w_saved)))))
    as Hsecond by (vm_compute; reflexivity).
  split; [exact Hnodup |]. split; [exact Hfirst |]. split; [exact Hsecond |].
  exact (getitem_twice one_row 0 w_saved _ _ 2%nat 3%nat Hnodup Hfirst Hsecond).
Defined.

Lemma decode_dangling_reference_witness :
  DB_CONNECTION w_enrolled = Some db_enrolled
  ∧ sqlite3_execute (load_statement Course (VInt 7)) db_enrolled
    = inr ({| cur_rows := []; lastrowid := VNone |}, db_enrolled)
  ∧ ∃ w',
      init_from_db_tuple EnrollmentRecord [VInt 1; VInt 7] w_enrolled = (Raise TypeError, w')
      ∧ executed w' = executed w_enrolled ++ [load_statement Course (VInt 7)]
      ∧ length (heap w') = S (S (length (heap w_enrolled))).
Proof.
  assert (fieldsOf EnrollmentRecord !! 0%nat = Some ("course", ForeignKeyField Course))
    as Hi by (vm_compute; reflexivity).
  assert (Forall (λ item, plain_field (snd item) = true)
            (take 0 (fieldsOf EnrollmentRecord))) as Hpre by constructor.
  assert ([VInt 7] !! 0%nat = Some (VInt 7)) as Hv by reflexivity.
  assert (DB_CONNECTION w_enrolled = Some db_enrolled) as Hdb by (vm_compute; reflexivity).
  assert (sqlite3_execute (load_statement Course (VInt 7)) db_enrolled
          = inr ({| cur_rows := []; lastrowid := VNone |}, db_enrolled)) as Hrun
    by (vm_compute; reflexivity).
  assert (fetchone {| cur_rows := []; lastrowid := VNone |} = None) as Hfetch
    by reflexivity.
  split; [exact Hdb |]. split; [exact Hrun |].
  exact (decode_dangling_reference EnrollmentRecord Course (VInt 1) (VInt 7) [VInt 7]
           w_enrolled 0%nat "course" db_enrolled db_enrolled _ Hi Hpre Hv Hdb Hrun Hfetch).
Defined.

Lemma iteration_visits_rows_witness :
  (count all_points < 3)%nat
  ∧ fst (comprehension 3 (QuerySet_iter all_points) w_saved) = Return (Some [2%nat; 3%nat])
  ∧ comprehension 3 (QuerySet_iter all_points) w_saved
    = (l <- each (init_from_db_tuple (model_cls all_points)) (items all_points) ;;
       ret (Some l)) w_saved
  ∧ each (init_from_db_tuple (model_cls all_points)) (items all_points) w_saved
    = each (QuerySet_getitem all_points) (Z.of_nat <$> seq 0 (count all_points)) w_saved.
Proof.
  assert (count all_points < 3)%nat as Hfuel by (vm_compute; lia).
  split; [exact Hfuel |]. split; [vm_compute; reflexivity |].
  destruct (iteration_visits_rows all_points 3 w_saved Hfuel) as (Hiter & Hindex & _).
  split; [exact Hiter | exact Hindex].
Defined.

End MoreOnExamples.
